(** * A model of [vector.h]: [RawMemory<T>] and [Vector<T>]

    The two classes of the repository are embedded over an explicit
    memory: a heap of raw blocks handed out by [operator new], whose
    slots either hold a constructed element or are raw, and a store of
    [Vector] objects, so that two references to the same vector can be
    told apart from references to two vectors of equal value.

    Every member function is a computation in a monad with three
    outcomes: normal return, a C++ exception in flight, or a fault
    (failed [assert], undefined behaviour, [std::terminate]). *)

From stdpp Require Import base numbers option list gmap.

Local Open Scope Z_scope.

(** ** Machine integers *)

(** [size_t] is a 64-bit unsigned integer: arithmetic wraps. *)
Definition wrap (z : Z) : Z := z mod 2 ^ 64.

(** The largest request [operator new] can ever satisfy. *)
Definition PTRDIFF_MAX : Z := 2 ^ 63 - 1.

(** ** The element type

    [Vector<T>] uses the element type only through its special member
    functions and two type traits.  An operation that yields [None]
    throws.  A move returns the new value together with what is left in
    the moved-from object, which stays alive until it is destructed. *)
Class Element (T : Type) := {
  (* sizeof(T): at least one byte, and no object is larger than
     PTRDIFF_MAX bytes *)
  sizeof_T : Z;
  sizeof_T_pos : 0 < sizeof_T;
  sizeof_T_max : sizeof_T ≤ PTRDIFF_MAX;
  is_nothrow_move_constructible : bool;
  is_copy_constructible : bool;
  (* T() *)
  value_init : option T;
  (* T(const T&) *)
  copy_construct : T → option T;
  (* T(T&&) *)
  move_construct : T → option (T * T);
  (* lhs = rhs, from the old value of lhs *)
  copy_assign : T → T → option T;
  (* lhs = std::move(rhs) *)
  move_assign : T → T → option (T * T);
}.

(** An element type whose operations never throw and preserve values,
    as those of [int] or of a well-behaved value type do. *)
Class Regular (T : Type) `{Element T} := {
  regular_default : T;
  regular_value_init : value_init = Some regular_default;
  regular_copy_construct x : copy_construct x = Some x;
  regular_move_construct x : ∃ r, move_construct x = Some (x, r);
  regular_copy_assign d x : copy_assign d x = Some x;
  regular_move_assign d x : ∃ r, move_assign d x = Some (x, r);
}.

(** ** Pointers, objects and memory *)

(** A [T*] is null or points at a slot of a block; the offset may be
    one past the end, or anywhere if pointer arithmetic went astray. *)
Inductive ptr := NullPtr | Ptr (b : nat) (off : Z).

Global Instance ptr_eq_dec : EqDecision ptr.
Proof. solve_decision. Defined.

Record RawMemory := { buffer_ : ptr; capacity_ : Z }.
Record Vector := { data_ : RawMemory; size_ : Z }.

Inductive exn := bad_alloc | element_exception.

Inductive fault := AssertionFailed | Undefined | Terminated.

Record state (T : Type) := State {
  (* the Vector objects alive, by address *)
  objs : gmap nat Vector;
  (* the blocks obtained from operator new; None is a raw slot *)
  heap : gmap nat (list (option T));
  (* bytes operator new can still hand out *)
  avail : Z;
  (* the values on which ~T() has run, latest first *)
  dtor_log : list T;
}.
Global Arguments State {T}.
Global Arguments objs {T}.
Global Arguments heap {T}.
Global Arguments avail {T}.
Global Arguments dtor_log {T}.

Inductive outcome (S A : Type) :=
  | Ok (a : A) (σ : S)
  | Throw (e : exn) (σ : S)
  | Fault (f : fault).
Global Arguments Ok {S A}.
Global Arguments Throw {S A}.
Global Arguments Fault {S A}.

Definition M (S A : Type) : Type := S → outcome S A.

Global Instance M_ret {S} : MRet (M S) := λ A a σ, Ok a σ.

Global Instance M_bind {S} : MBind (M S) := λ A B k m σ,
  match m σ with
  | Ok a σ' => k a σ'
  | Throw e σ' => Throw e σ'
  | Fault f => Fault f
  end.

Definition throw {S A} (e : exn) : M S A := λ σ, Throw e σ.
Definition fail {S A} (f : fault) : M S A := λ _, Fault f.

(** [assert(c)] of <cassert>. *)
Definition assert {S} (c : bool) : M S unit :=
  if c then mret tt else fail AssertionFailed.

(** The outcome of calling one of the element type's operations. *)
Definition call {S A} (o : option A) : M S A :=
  match o with Some a => mret a | None => throw element_exception end.

(** A value that only exists when the behaviour is defined. *)
Definition defined {S A} (o : option A) : M S A :=
  match o with Some a => mret a | None => fail Undefined end.

(** [try { m } catch (...) { h; throw; }]. *)
Definition on_throw {S A} (m : M S A) (h : M S unit) : M S A := λ σ,
  match m σ with
  | Throw e σ' =>
      match h σ' with
      | Ok _ σ'' => Throw e σ''
      | Throw e' σ'' => Throw e' σ''
      | Fault f => Fault f
      end
  | r => r
  end.

(** A function declared [noexcept]: an escaping exception calls
    [std::terminate]. *)
Definition noexcept {S A} (m : M S A) : M S A := λ σ,
  match m σ with
  | Throw _ _ => Fault Terminated
  | r => r
  end.

(** [body i; body (i+1); ...], [n] times. *)
Fixpoint repeat_from {S} (n : nat) (i : Z) (body : Z → M S unit) : M S unit :=
  match n with
  | O => mret tt
  | S n' => body i ;; repeat_from n' (i + 1) body
  end.

(** As [repeat_from], downwards: [body (i-1); body (i-2); ...]. *)
Fixpoint repeat_down {S} (n : nat) (i : Z) (body : Z → M S unit) : M S unit :=
  match n with
  | O => mret tt
  | S n' => body (i - 1) ;; repeat_down n' (i - 1) body
  end.

(** Pointer arithmetic [p + k].  Null plus zero is null; the result is
    checked against its block when it is used. *)
Definition ptr_add (p : ptr) (k : Z) : option ptr :=
  match p with
  | NullPtr => if k =? 0 then Some NullPtr else None
  | Ptr b off => Some (Ptr b (off + k))
  end.

(** Pointer difference [p - q], defined inside one block. *)
Definition ptr_diff (p q : ptr) : option Z :=
  match p, q with
  | NullPtr, NullPtr => Some 0
  | Ptr b i, Ptr c j => if decide (b = c) then Some (i - j) else None
  | _, _ => None
  end.

Section Memory.
Context {T : Type} `{Element T}.

Abbreviation St := (state T).

Definition set_heap (f : gmap nat (list (option T)) → gmap nat (list (option T)))
    (σ : St) : St :=
  State (objs σ) (f (heap σ)) (avail σ) (dtor_log σ).

Definition set_objs (f : gmap nat Vector → gmap nat Vector) (σ : St) : St :=
  State (f (objs σ)) (heap σ) (avail σ) (dtor_log σ).

(** The slot a pointer designates, if it lies inside a block. *)
Definition slot (σ : St) (p : ptr) : option (option T) :=
  match p with
  | NullPtr => None
  | Ptr b off =>
      if 0 <=? off then blk ← heap σ !! b; blk !! Z.to_nat off else None
  end.

Definition set_slot (p : ptr) (s : option T) (σ : St) : St :=
  match p with
  | NullPtr => σ
  | Ptr b off => set_heap (alter (λ blk, <[Z.to_nat off := s]> blk) b) σ
  end.

(** [::operator new(bytes)]: a fresh block, all slots raw, or
    [std::bad_alloc]. *)
Definition operator_new (bytes : Z) : M St ptr := λ σ,
  if (bytes <=? PTRDIFF_MAX) && (bytes <=? avail σ) then
    let b := fresh (dom (heap σ)) in
    Ok (Ptr b 0)
       (State (objs σ)
              (<[b := replicate (Z.to_nat (bytes / sizeof_T)) None]> (heap σ))
              (avail σ - bytes) (dtor_log σ))
  else Throw bad_alloc σ.

(** [::operator delete(p)]: [p] is null or the start of a block.  No
    destructor runs. *)
Definition operator_delete (p : ptr) : M St unit := λ σ,
  match p with
  | NullPtr => Ok tt σ
  | Ptr b off =>
      match heap σ !! b with
      | Some blk =>
          if off =? 0 then
            Ok tt (State (objs σ) (delete b (heap σ))
                         (avail σ + Z.of_nat (length blk) * sizeof_T) (dtor_log σ))
          else Fault Undefined
      | None => Fault Undefined
      end
  end.

(** Reading through a [T&]: the slot holds an object. *)
Definition read_at (p : ptr) : M St T := λ σ,
  match slot σ p with
  | Some (Some x) => Ok x σ
  | _ => Fault Undefined
  end.

(** Storing the new value of an object that is alive. *)
Definition write_at (p : ptr) (x : T) : M St unit := λ σ,
  match slot σ p with
  | Some (Some _) => Ok tt (set_slot p (Some x) σ)
  | _ => Fault Undefined
  end.

(** [new (p) T(...)] once the constructor has produced [x]: the slot
    is storage of a block; what it held is not destructed. *)
Definition construct_at (p : ptr) (x : T) : M St unit := λ σ,
  match slot σ p with
  | Some _ => Ok tt (set_slot p (Some x) σ)
  | None => Fault Undefined
  end.

(** [p->~T()]: the slot holds an object, and is raw afterwards. *)
Definition destroy_at (p : ptr) : M St unit := λ σ,
  match slot σ p with
  | Some (Some x) =>
      let σ' := set_slot p None σ in
      Ok tt (State (objs σ') (heap σ') (avail σ') (x :: dtor_log σ'))
  | _ => Fault Undefined
  end.

(** The destructor of a temporary of type [T]. *)
Definition destroy_temporary (x : T) : M St unit := λ σ,
  Ok tt (State (objs σ) (heap σ) (avail σ) (x :: dtor_log σ)).

(** ** <memory> and <algorithm> *)

Definition at_offset (p : ptr) (i : Z) : M St ptr := defined (ptr_add p i).

(** [std::destroy_n(first, n)]. *)
Definition destroy_n (first : ptr) (n : Z) : M St unit :=
  repeat_from (Z.to_nat n) 0 (λ i, p ← at_offset first i; destroy_at p).

(** [std::uninitialized_value_construct_n(first, n)]: if a constructor
    throws, the objects already constructed are destroyed. *)
Definition uninitialized_value_construct_n (first : ptr) (n : Z) : M St unit :=
  repeat_from (Z.to_nat n) 0 (λ i,
    on_throw (x ← call value_init; p ← at_offset first i; construct_at p x)
             (destroy_n first i)).

(** [std::uninitialized_copy_n(first, n, d_first)]. *)
Definition uninitialized_copy_n (first : ptr) (n : Z) (d_first : ptr) : M St unit :=
  repeat_from (Z.to_nat n) 0 (λ i,
    on_throw (s ← at_offset first i; x ← read_at s;
              y ← call (copy_construct x);
              p ← at_offset d_first i; construct_at p y)
             (destroy_n d_first i)).

(** [std::uninitialized_move_n(first, n, d_first)]. *)
Definition uninitialized_move_n (first : ptr) (n : Z) (d_first : ptr) : M St unit :=
  repeat_from (Z.to_nat n) 0 (λ i,
    on_throw (s ← at_offset first i; x ← read_at s;
              yr ← call (move_construct x);
              write_at s yr.2;;
              p ← at_offset d_first i; construct_at p yr.1)
             (destroy_n d_first i)).

(** Move assignment through two pointers: [*d = std::move( *s )]. *)
Definition move_assign_at (d s : ptr) : M St unit :=
  x ← read_at s; old ← read_at d;
  yr ← call (move_assign old x);
  write_at s yr.2;; write_at d yr.1.

(** Copy assignment through two pointers: [*d = *s]. *)
Definition copy_assign_at (d s : ptr) : M St unit :=
  x ← read_at s; old ← read_at d;
  y ← call (copy_assign old x);
  write_at d y.

(** The length of the range [[first, last)]. *)
Definition range_length (first last : ptr) : M St Z :=
  n ← defined (ptr_diff last first);
  if n <? 0 then fail Undefined else mret n.

(** [std::move(first, last, d_first)]. *)
Definition std_move (first last d_first : ptr) : M St unit :=
  n ← range_length first last;
  repeat_from (Z.to_nat n) 0 (λ i,
    s ← at_offset first i; d ← at_offset d_first i; move_assign_at d s).

(** [std::move_backward(first, last, d_last)]. *)
Definition std_move_backward (first last d_last : ptr) : M St unit :=
  n ← range_length first last;
  repeat_down (Z.to_nat n) 0 (λ i,
    s ← at_offset last i; d ← at_offset d_last i; move_assign_at d s).

End Memory.

(** ** [class RawMemory] *)

Module RawMemory.
Section RawMemory.
Context {T : Type} `{Element T}.

Abbreviation St := (state T).

(** [Allocate]: [n != 0 ? operator new(n * sizeof(T)) : nullptr]. *)
Definition Allocate (n : Z) : M St ptr :=
  if negb (n =? 0) then operator_new (wrap (n * sizeof_T)) else mret NullPtr.

Definition Deallocate (buf : ptr) : M St unit := operator_delete buf.

(** [RawMemory() = default]. *)
Definition ctor_default : RawMemory := {| buffer_ := NullPtr; capacity_ := 0 |}.

(** [explicit RawMemory(size_t capacity)]. *)
Definition ctor (capacity : Z) : M St RawMemory :=
  buf ← Allocate capacity;
  mret {| buffer_ := buf; capacity_ := capacity |}.

(** [RawMemory(RawMemory&& other)]: the new object, and what is left
    of [other]. *)
Definition ctor_move (other : RawMemory) : RawMemory * RawMemory :=
  ({| buffer_ := buffer_ other; capacity_ := capacity_ other |},
   {| buffer_ := NullPtr; capacity_ := 0 |}).

(** [~RawMemory()]. *)
Definition dtor (m : RawMemory) : M St unit := Deallocate (buffer_ m).

(** [operator+(size_t offset)]. *)
Definition plus (m : RawMemory) (offset : Z) : M St ptr :=
  assert (offset <=? capacity_ m);;
  at_offset (buffer_ m) offset.

(** [operator[](size_t index)]; the reference is the slot's address. *)
Definition subscript (m : RawMemory) (index : Z) : M St ptr :=
  assert (index <=? capacity_ m);;
  at_offset (buffer_ m) index.

(** [Swap(RawMemory& other)]: the new [*this] and the new [other]. *)
Definition Swap (m other : RawMemory) : RawMemory * RawMemory :=
  ({| buffer_ := buffer_ other; capacity_ := capacity_ other |},
   {| buffer_ := buffer_ m; capacity_ := capacity_ m |}).

Definition GetAddress (m : RawMemory) : ptr := buffer_ m.

Definition Capacity (m : RawMemory) : Z := capacity_ m.

End RawMemory.
End RawMemory.

(** ** [class Vector] *)

Module Vector.
Section Vector.
Context {T : Type} `{Element T}.

Abbreviation St := (state T).

(** [*this], for a reference that designates a living object. *)
Definition load (this : nat) : M St Vector := λ σ,
  match objs σ !! this with
  | Some v => Ok v σ
  | None => Fault Undefined
  end.

Definition store (this : nat) (v : Vector) : M St unit := λ σ,
  Ok tt (set_objs <[this := v]> σ).

Definition put_size_ (this : nat) (n : Z) : M St unit :=
  v ← load this; store this {| data_ := data_ v; size_ := n |}.

Definition put_data_ (this : nat) (d : RawMemory) : M St unit :=
  v ← load this; store this {| data_ := d; size_ := size_ v |}.

(** The end of the lifetime of the object [*this]. *)
Definition retire (this : nat) : M St unit := λ σ,
  Ok tt (set_objs (delete this) σ).

(** The address of a local variable of type [Vector]. *)
Definition local : M St nat := λ σ, Ok (fresh (dom (objs σ))) σ.

Definition Size (this : nat) : M St Z := v ← load this; mret (size_ v).

Definition Capacity (this : nat) : M St Z :=
  v ← load this; mret (RawMemory.Capacity (data_ v)).

Definition Empty (this : nat) : M St bool := v ← load this; mret (size_ v =? 0).

Definition begin (this : nat) : M St ptr :=
  v ← load this; mret (RawMemory.GetAddress (data_ v)).

(** [end()]: [(size_ != 0) ? &data_[size_] : begin()]. *)
Definition end_ (this : nat) : M St ptr :=
  v ← load this;
  if negb (size_ v =? 0) then RawMemory.subscript (data_ v) (size_ v)
  else begin this.

(** [operator[](size_t index)]. *)
Definition subscript (this : nat) (index : Z) : M St ptr :=
  v ← load this;
  assert (index <? size_ v);;
  RawMemory.subscript (data_ v) index.

(** [Vector() = default]. *)
Definition ctor_default (this : nat) : M St unit :=
  store this {| data_ := RawMemory.ctor_default; size_ := 0 |}.

(** [explicit Vector(size_t size)]; if the body throws, the member
    [data_] is destructed. *)
Definition ctor_sized (this : nat) (size : Z) : M St unit :=
  data ← RawMemory.ctor size;
  on_throw (uninitialized_value_construct_n (RawMemory.GetAddress data) size)
           (RawMemory.dtor data);;
  store this {| data_ := data; size_ := size |}.

(** [Vector(const Vector& other)]. *)
Definition ctor_copy (this other : nat) : M St unit :=
  o ← load other;
  data ← RawMemory.ctor (size_ o);
  let size := size_ o in
  on_throw (uninitialized_copy_n (RawMemory.GetAddress (data_ o)) size
                                 (RawMemory.GetAddress data))
           (RawMemory.dtor data);;
  store this {| data_ := data; size_ := size |}.

(** [Vector(Vector&& other) noexcept]. *)
Definition ctor_move (this other : nat) : M St unit :=
  o ← load other;
  let '(data, rest) := RawMemory.ctor_move (data_ o) in
  store other {| data_ := rest; size_ := 0 |};;
  store this {| data_ := data; size_ := size_ o |}.

(** [~Vector()], then the destructor of the member [data_]; the
    object is gone afterwards. *)
Definition dtor (this : nat) : M St unit :=
  v ← load this;
  destroy_n (RawMemory.GetAddress (data_ v)) (size_ v);;
  RawMemory.dtor (data_ v);;
  retire this.

(** [Swap(Vector& other) noexcept]. *)
Definition Swap (this other : nat) : M St unit :=
  (* data_.Swap(other.data_) *)
  v ← load this; o ← load other;
  let '(d, d') := RawMemory.Swap (data_ v) (data_ o) in
  put_data_ this d;; put_data_ other d';;
  (* std::swap(size_, other.size_) *)
  v ← load this; o ← load other;
  put_size_ this (size_ o);; put_size_ other (size_ v).

(** [CopyDataRange(source, count, dest)]. *)
Definition CopyDataRange (source : ptr) (count : Z) (dest : ptr) : M St unit :=
  if is_nothrow_move_constructible || negb is_copy_constructible
  then uninitialized_move_n source count dest
  else uninitialized_copy_n source count dest.

(** [Reserve(size_t new_capacity)]. *)
Definition Reserve (this : nat) (new_capacity : Z) : M St unit :=
  v ← load this;
  if new_capacity <=? RawMemory.Capacity (data_ v) then mret tt
  else
    new_data ← RawMemory.ctor new_capacity;
    on_throw (CopyDataRange (RawMemory.GetAddress (data_ v)) (size_ v)
                            (RawMemory.GetAddress new_data))
             (RawMemory.dtor new_data);;
    let '(data, new_data) := RawMemory.Swap (data_ v) new_data in
    put_data_ this data;;
    destroy_n (RawMemory.GetAddress new_data) (RawMemory.Capacity new_data);;
    RawMemory.dtor new_data.

(** [Resize(size_t new_size)]. *)
Definition Resize (this : nat) (new_size : Z) : M St unit :=
  cap ← Capacity this;
  (if new_size >=? cap then
     Reserve this new_size;;
     v ← load this;
     p ← RawMemory.plus (data_ v) (size_ v);
     uninitialized_value_construct_n p (wrap (new_size - size_ v))
   else
     v ← load this;
     repeat_from (Z.to_nat (size_ v - new_size)) new_size (λ i,
       p ← RawMemory.subscript (data_ v) i; destroy_at p));;
  put_size_ this new_size.

(** [PopBack() noexcept]: [if (!Empty()) data_[--size_].~T();]. *)
Definition PopBack (this : nat) : M St unit :=
  noexcept (
    e ← Empty this;
    if negb e then
      v ← load this;
      put_size_ this (wrap (size_ v - 1));;
      v ← load this;
      p ← RawMemory.subscript (data_ v) (size_ v);
      destroy_at p
    else mret tt).

(** The capacity of the block a growing insertion moves to. *)
Definition grown (capacity : Z) : Z :=
  if capacity =? 0 then 1 else wrap (2 * capacity).

(** [EmplaceBack(Args&&... args)]; [args] is what
    [T(std::forward<Args>(args)...)] evaluates to, [None] if that
    constructor throws.  The result is the address of the new
    element. *)
Definition EmplaceBack (this : nat) (args : option T) : M St ptr :=
  v ← load this;
  (if size_ v =? RawMemory.Capacity (data_ v) then
     new_data ← RawMemory.ctor (grown (RawMemory.Capacity (data_ v)));
     on_throw (
       p ← at_offset (RawMemory.GetAddress new_data) (size_ v);
       x ← call args;
       construct_at p x;;
       if is_nothrow_move_constructible || negb is_copy_constructible
       then uninitialized_move_n (RawMemory.GetAddress (data_ v)) (size_ v)
                                 (RawMemory.GetAddress new_data)
       else uninitialized_copy_n (RawMemory.GetAddress (data_ v)) (size_ v)
                                 (RawMemory.GetAddress new_data))
       (RawMemory.dtor new_data);;
     let '(data, new_data) := RawMemory.Swap (data_ v) new_data in
     put_data_ this data;;
     destroy_n (RawMemory.GetAddress new_data) (RawMemory.Capacity new_data);;
     put_size_ this (wrap (size_ v + 1));;
     RawMemory.dtor new_data
   else
     p ← at_offset (RawMemory.GetAddress (data_ v)) (size_ v);
     x ← call args;
     construct_at p x;;
     put_size_ this (wrap (size_ v + 1)));;
  v ← load this;
  RawMemory.subscript (data_ v) (wrap (size_ v - 1)).

(** [PushBack(Value&& value)] for an lvalue of type [T], which the
    forwarded constructor copies. *)
Definition PushBack (this : nat) (value : T) : M St unit :=
  EmplaceBack this (copy_construct value);; mret tt.

(** [Emplace(const_iterator pos, Args&&... args)]. *)
Definition Emplace (this : nat) (pos : ptr) (args : option T) : M St ptr :=
  b ← begin this;
  d ← defined (ptr_diff pos b);
  let value_pos := wrap d in
  v ← load this;
  (if size_ v =? RawMemory.Capacity (data_ v) then
     new_data ← RawMemory.ctor (grown (RawMemory.Capacity (data_ v)));
     on_throw (
       p ← at_offset (RawMemory.GetAddress new_data) value_pos;
       x ← call args;
       construct_at p x;;
       CopyDataRange (RawMemory.GetAddress (data_ v)) value_pos
                     (RawMemory.GetAddress new_data);;
       src ← at_offset (RawMemory.GetAddress (data_ v)) value_pos;
       dst ← at_offset (RawMemory.GetAddress new_data) value_pos;
       dst ← at_offset dst 1;
       CopyDataRange src (wrap (size_ v - value_pos)) dst)
       (RawMemory.dtor new_data);;
     let '(data, new_data) := RawMemory.Swap (data_ v) new_data in
     put_data_ this data;;
     destroy_n (RawMemory.GetAddress new_data) (RawMemory.Capacity new_data);;
     RawMemory.dtor new_data
   else
     e ← end_ this;
     if decide (pos = e) then
       (* new(end()) T(std::forward<Args>(args)...) *)
       e ← end_ this;
       x ← call args;
       construct_at e x
     else
       (* new(end()) T(std::forward<T>( *(end() - 1))) *)
       e ← end_ this;
       e1 ← end_ this;
       last ← at_offset e1 (-1);
       x ← read_at last;
       yr ← call (move_construct x);
       write_at last yr.2;;
       construct_at e yr.1;;
       (* std::move_backward(&data_[value_pos], end() - 1, end()) *)
       first ← RawMemory.subscript (data_ v) value_pos;
       e1 ← end_ this;
       last ← at_offset e1 (-1);
       e ← end_ this;
       std_move_backward first last e;;
       (* data_[value_pos] = T(std::forward<Args>(args)...) *)
       tmp ← call args;
       p ← RawMemory.subscript (data_ v) value_pos;
       old ← read_at p;
       yr ← call (move_assign old tmp);
       write_at p yr.1;;
       destroy_temporary yr.2);;
  v ← load this;
  put_size_ this (wrap (size_ v + 1));;
  v ← load this;
  RawMemory.subscript (data_ v) value_pos.

(** [Insert(const_iterator pos, Value&& value)] for an lvalue. *)
Definition Insert (this : nat) (pos : ptr) (value : T) : M St ptr :=
  Emplace this pos (copy_construct value).

(** [Erase(const_iterator pos) noexcept]. *)
Definition Erase (this : nat) (pos : ptr) : M St ptr :=
  noexcept (
    e ← Empty this;
    assert (negb e);;
    b ← begin this;
    d ← defined (ptr_diff pos b);
    let value_pos := wrap d in
    v ← load this;
    first ← RawMemory.subscript (data_ v) (wrap (value_pos + 1));
    last ← end_ this;
    d_first ← RawMemory.subscript (data_ v) value_pos;
    std_move first last d_first;;
    PopBack this;;
    v ← load this;
    RawMemory.subscript (data_ v) value_pos).

(** [operator=(const Vector& rhs)]. *)
Definition assign (this rhs : nat) : M St unit :=
  if decide (this = rhs) then mret tt
  else
    r ← load rhs;
    v ← load this;
    if size_ r >? RawMemory.Capacity (data_ v) then
      rhs_copy ← local;
      ctor_copy rhs_copy rhs;;
      Swap this rhs_copy;;
      dtor rhs_copy
    else
      let n := Z.to_nat (Z.min (size_ v) (size_ r)) in
      repeat_from n 0 (λ i,
        s ← subscript rhs i;
        d ← RawMemory.subscript (data_ v) i;
        copy_assign_at d s);;
      let i := Z.of_nat n in
      (if size_ v <? size_ r then
         s ← RawMemory.plus (data_ r) i;
         d ← RawMemory.plus (data_ v) i;
         uninitialized_copy_n s (wrap (size_ r - i)) d
       else
         d ← RawMemory.plus (data_ v) (size_ r);
         destroy_n d (wrap (size_ v - size_ r)));;
      put_size_ this (size_ r).

(** [operator=(Vector&& rhs) noexcept]. *)
Definition assign_move (this rhs : nat) : M St unit :=
  noexcept (if decide (this = rhs) then mret tt else Swap this rhs).

End Vector.
End Vector.

(** ** A concrete element type

    A class of four bytes that holds an [int] and has a destructor; its
    operations never throw, copies and moves yield the value of the
    source, and a moved-from object keeps its value.  A value of the
    class is written as the integer it holds. *)

Global Instance int_element : Element Z := {|
  sizeof_T := 4;
  sizeof_T_pos := eq_refl;
  sizeof_T_max := ltac:(unfold PTRDIFF_MAX; lia);
  is_nothrow_move_constructible := true;
  is_copy_constructible := true;
  value_init := Some 0;
  copy_construct := λ x, Some x;
  move_construct := λ x, Some (x, x);
  copy_assign := λ _ x, Some x;
  move_assign := λ _ x, Some (x, x);
|}.

(** * Specifications *)

(** ** What a vector holds *)

Definition vec (buf : ptr) (cap n : Z) : Vector :=
  {| data_ := {| buffer_ := buf; capacity_ := cap |}; size_ := n |}.

(** The block of a vector of capacity [cap] whose live elements are
    [l]: the elements, then raw slots. *)
Definition block_image {T} (l : list T) (cap : Z) : list (option T) :=
  (Some <$> l) ++ replicate (Z.to_nat cap - length l) None.

(** [repr σ this buf cap l]: in [σ] the object [*this] is a vector
    with storage at [buf] for [cap] elements, of which the first
    [length l] are alive and hold [l], the others being raw. *)
Record repr {T} `{Element T} (σ : state T) (this : nat)
    (buf : ptr) (cap : Z) (l : list T) : Prop := {
  repr_obj : objs σ !! this = Some (vec buf cap (Z.of_nat (length l)));
  repr_size : Z.of_nat (length l) ≤ cap;
  repr_bytes : cap * sizeof_T ≤ PTRDIFF_MAX;
  repr_block :
    match buf with
    | NullPtr => cap = 0
    | Ptr b off => off = 0 ∧ 0 < cap ∧ heap σ !! b = Some (block_image l cap)
    end
}.

Definition is_live {T} (s : option T) : bool :=
  match s with Some _ => true | None => false end.

(** The same, decided on a concrete state: [size_ <= capacity], the
    slots below [size_] hold objects and those from [size_] on are
    raw. *)
Definition invariant {T} (σ : state T) (this : nat) : bool :=
  match objs σ !! this with
  | None => false
  | Some v =>
      let n := size_ v in
      let cap := capacity_ (data_ v) in
      (0 <=? n) && (n <=? cap) &&
      match buffer_ (data_ v) with
      | NullPtr => cap =? 0
      | Ptr b off =>
          (off =? 0) &&
          match heap σ !! b with
          | None => false
          | Some blk =>
              (Z.of_nat (length blk) =? cap) &&
              forallb is_live (take (Z.to_nat n) blk) &&
              forallb (λ s, negb (is_live s)) (drop (Z.to_nat n) blk)
          end
      end
  end.

(** The live elements of [*this], when the slots below [size_] all
    hold objects. *)
Definition contents {T} (σ : state T) (this : nat) : option (list T) :=
  v ← objs σ !! this;
  match buffer_ (data_ v) with
  | NullPtr => if size_ v =? 0 then Some [] else None
  | Ptr b off =>
      blk ← heap σ !! b;
      if (off =? 0) && (0 <=? size_ v) && (size_ v <=? Z.of_nat (length blk))
      then mapM id (take (Z.to_nat (size_ v)) blk) else None
  end.

(** The elements a shift to the left by move assignment leaves behind
    in the slot holding [d] and the slots holding [tl] after it: every
    element is assigned onto its left neighbour, leftmost first.  The
    last element of the result is what the moves left in the last
    slot. *)
Fixpoint shift_onto {T} `{Element T} (d : T) (tl : list T) : option (list T) :=
  match tl with
  | [] => Some [d]
  | s :: tl' =>
      yr ← move_assign d s;
      rest ← shift_onto yr.2 tl';
      Some (yr.1 :: rest)
  end.

Definition shift_left {T} `{Element T} (l : list T) : option (list T) :=
  match l with
  | [] => Some []
  | d :: tl => shift_onto d tl
  end.

(** ** Blocks *)

(** The block [blk] after the values [ys] have been constructed in the
    slots from [off] on. *)
Definition fill {T} (off : nat) (ys : list T) (blk : list (option T))
    : list (option T) :=
  take off blk ++ (Some <$> ys) ++ drop (off + length ys) blk.

(** The block [blk] after the [n] slots from [off] on have become raw. *)
Definition clear {T} (off n : nat) (blk : list (option T)) : list (option T) :=
  take off blk ++ replicate n None ++ drop (off + n) blk.

(** The slots of [blk] from [off] on hold the values [xs]. *)
Definition live_at {T} (blk : list (option T)) (off : nat) (xs : list T) : Prop :=
  ∀ k x, xs !! k = Some x → blk !! (off + k)%nat = Some (Some x).

(** The capacity after an insertion into a vector of capacity [cap]
    holding [len] elements. *)
Definition next_capacity (cap len : Z) : Z :=
  if len =? cap then Z.max 1 (2 * cap) else cap.

(** The smallest power of two that is at least [k], and 0 for 0: the
    doubling sequence 0, 1, 2, 4, 8, ... read off at [k] elements. *)
Definition capacity_after (k : nat) : Z :=
  match k with
  | O => 0
  | _ => 2 ^ Z.log2_up (Z.of_nat k)
  end.

(** [PushBack] of each value of a list in turn. *)
Fixpoint push_all {T} `{Element T} (this : nat) (xs : list T) : M (state T) unit :=
  match xs with
  | [] => mret tt
  | x :: xs' => Vector.PushBack this x ;; push_all this xs'
  end.

(** [PopBack], [n] times. *)
Fixpoint pop_all {T} `{Element T} (this : nat) (n : nat) : M (state T) unit :=
  match n with
  | O => mret tt
  | S n' => Vector.PopBack this ;; pop_all this n'
  end.

(** The iterator [begin() + i] of a vector whose storage is at [buf]. *)
Definition position (buf : ptr) (i : Z) : ptr :=
  match buf with
  | NullPtr => NullPtr
  | Ptr b off => Ptr b (off + i)
  end.

(** Two vectors do not share their storage. *)
Definition separate (buf buf' : ptr) : Prop :=
  match buf, buf' with
  | Ptr b _, Ptr c _ => b ≠ c
  | _, _ => True
  end.

(** The capacity of the vector [*this], if the object is alive. *)
Definition capacity_of {T} (σ : state T) (this : nat) : option Z :=
  v ← objs σ !! this; Some (capacity_ (data_ v)).

(** A computation that, whenever it finishes, by returning or by
    throwing, leaves the member [data_] of [*this] as it was. *)
Definition keeps_data {T A} (this : nat) (m : M (state T) A) : Prop :=
  ∀ σ, match m σ with
       | Ok _ σ' | Throw _ σ' => data_ <$> objs σ' !! this = data_ <$> objs σ !! this
       | Fault _ => True
       end.

(** The computation has finished in state [σ']. *)
Definition finished {S A} (r : outcome S A) (σ' : S) : Prop :=
  match r with
  | Ok _ σ | Throw _ σ => σ = σ'
  | Fault _ => False
  end.

Global Instance int_regular : Regular Z.
Proof.
  refine {| regular_default := 0 |}; intros; try reflexivity; by eexists.
Defined.

(** ** Concrete states, for vectors of that element type *)

(** A state with one vector, at address 0, holding [l] in a block of
    capacity [cap] at block address 0, and 1000 bytes left to allocate. *)
Definition one_vector (l : list Z) (cap : Z) : state Z :=
  State {[0%nat := vec (Ptr 0 0) cap (Z.of_nat (length l))]}
        {[0%nat := block_image l cap]} 1000 [].

(** The same with a second vector, at address 1, holding [lr] in a
    block of capacity [capr] at block address 1. *)
Definition two_vectors (l : list Z) (cap : Z) (lr : list Z) (capr : Z) : state Z :=
  State {[0%nat := vec (Ptr 0 0) cap (Z.of_nat (length l));
          1%nat := vec (Ptr 1 0) capr (Z.of_nat (length lr))]}
        {[0%nat := block_image l cap; 1%nat := block_image lr capr]} 1000 [].

(** No objects, no blocks, 1000 bytes to allocate. *)
Definition empty_state : state Z := State ∅ ∅ 1000 [].

(** The same element type, except that copying the value 13 throws
    and that its move constructor is not declared [noexcept]: vectors
    relocate its elements by copy. *)
Definition unlucky_element : Element Z := {|
  sizeof_T := 4;
  sizeof_T_pos := eq_refl;
  sizeof_T_max := ltac:(unfold PTRDIFF_MAX; lia);
  is_nothrow_move_constructible := false;
  is_copy_constructible := true;
  value_init := Some 0;
  copy_construct := λ x, if x =? 13 then None else Some x;
  move_construct := λ x, Some (x, x);
  copy_assign := λ _ x, if x =? 13 then None else Some x;
  move_assign := λ _ x, Some (x, x);
|}.

(** The concrete element type again, except that its default
    constructor throws. *)
Definition no_default_element : Element Z := {|
  sizeof_T := 4;
  sizeof_T_pos := eq_refl;
  sizeof_T_max := ltac:(unfold PTRDIFF_MAX; lia);
  is_nothrow_move_constructible := true;
  is_copy_constructible := true;
  value_init := None;
  copy_construct := λ x, Some x;
  move_construct := λ x, Some (x, x);
  copy_assign := λ _ x, Some x;
  move_assign := λ _ x, Some (x, x);
|}.

(** * Proofs *)

(** ** The monad *)

Section Monad.
Context {S : Type}.
Implicit Types σ : S.

Lemma bind_Ok {A B} (m : M S A) (k : A → M S B) σ a σ' :
  m σ = Ok a σ' → (m ≫= k) σ = k a σ'.
Proof. intros E. unfold mbind, M_bind. by rewrite E. Qed.

Lemma bind_Throw {A B} (m : M S A) (k : A → M S B) σ e σ' :
  m σ = Throw e σ' → (m ≫= k) σ = Throw e σ'.
Proof. intros E. unfold mbind, M_bind. by rewrite E. Qed.

Lemma bind_Fault {A B} (m : M S A) (k : A → M S B) σ f :
  m σ = Fault f → (m ≫= k) σ = Fault f.
Proof. intros E. unfold mbind, M_bind. by rewrite E. Qed.

Lemma ret_bind {A B} (a : A) (k : A → M S B) σ : (mret a ≫= k) σ = k a σ.
Proof. done. Qed.

Lemma bind_assoc {A B C} (m : M S A) (k1 : A → M S B) (k2 : B → M S C) σ :
  ((m ≫= k1) ≫= k2) σ = (m ≫= λ x, k1 x ≫= k2) σ.
Proof. unfold mbind, M_bind. by destruct (m σ). Qed.

Lemma on_throw_Ok {A} (m : M S A) h σ a σ' :
  m σ = Ok a σ' → on_throw m h σ = Ok a σ'.
Proof. intros E. unfold on_throw. by rewrite E. Qed.

Lemma on_throw_Throw {A} (m : M S A) h σ e σ' σ'' :
  m σ = Throw e σ' → h σ' = Ok tt σ'' → on_throw m h σ = Throw e σ''.
Proof. intros E E'. unfold on_throw. by rewrite E, E'. Qed.

Lemma noexcept_Ok {A} (m : M S A) σ a σ' :
  m σ = Ok a σ' → noexcept m σ = Ok a σ'.
Proof. intros E. unfold noexcept. by rewrite E. Qed.

Lemma repeat_from_S n i (body : Z → M S unit) σ :
  repeat_from (Datatypes.S n) i body σ = (body i ;; repeat_from n (i + 1) body) σ.
Proof. done. Qed.

(** A loop of [n + m] rounds is a loop of [n] rounds, then one of [m]. *)
Lemma repeat_from_app n m i (body : Z → M S unit) σ :
  repeat_from (n + m) i body σ
  = (repeat_from n i body ;; repeat_from m (i + Z.of_nat n) body) σ.
Proof.
  revert i σ. induction n as [|n IH]; intros i σ.
  - simpl. unfold mbind, M_bind, mret, M_ret. by rewrite Z.add_0_r.
  - simpl. unfold mbind, M_bind.
    destruct (body i σ) as [[] σ1|e σ1|f]; [|done..].
    specialize (IH (i + 1) σ1). unfold mbind, M_bind in IH. rewrite IH.
    replace (i + 1 + Z.of_nat n) with (i + Z.of_nat (Datatypes.S n)) by lia. done.
Qed.

End Monad.

(** Reduce the projections of an explicit state, and nothing else. *)
Ltac simpl_state := cbn [objs heap avail dtor_log] in *.

(** ** Memory *)

Section MemoryFacts.
Context {T : Type} `{Element T}.
Implicit Types (h : gmap nat (list (option T))) (blk : list (option T)).

Lemma alter_block h b blk (f : list (option T) → list (option T)) :
  h !! b = Some blk → alter f b h = <[b := f blk]> h.
Proof.
  intros E. apply map_eq. intros j.
  rewrite lookup_alter, lookup_insert.
  destruct (decide (b = j)) as [->|]; [by rewrite E|done].
Qed.

Lemma slot_lookup o h a d b i blk :
  h !! b = Some blk → 0 ≤ i →
  slot (State o h a d) (Ptr b i) = blk !! Z.to_nat i.
Proof.
  intros E Hi. unfold slot. simpl.
  destruct (Z.leb_spec 0 i); [|lia]. by rewrite E.
Qed.

Lemma read_at_ok o h a d b i blk x :
  h !! b = Some blk → 0 ≤ i → blk !! Z.to_nat i = Some (Some x) →
  read_at (Ptr b i) (State o h a d) = Ok x (State o h a d).
Proof.
  intros E Hi Hx. unfold read_at. by rewrite (slot_lookup _ _ _ _ _ _ _ E Hi), Hx.
Qed.

Lemma write_at_ok o h a d b i blk x y :
  h !! b = Some blk → 0 ≤ i → blk !! Z.to_nat i = Some (Some y) →
  write_at (Ptr b i) x (State o h a d)
  = Ok tt (State o (<[b := <[Z.to_nat i := Some x]> blk]> h) a d).
Proof.
  intros E Hi Hx. unfold write_at.
  rewrite (slot_lookup _ _ _ _ _ _ _ E Hi), Hx.
  unfold set_slot, set_heap. simpl. by rewrite (alter_block _ _ _ _ E).
Qed.

Lemma construct_at_ok o h a d b i blk x :
  h !! b = Some blk → 0 ≤ i → (Z.to_nat i < length blk)%nat →
  construct_at (Ptr b i) x (State o h a d)
  = Ok tt (State o (<[b := <[Z.to_nat i := Some x]> blk]> h) a d).
Proof.
  intros E Hi Hlt. unfold construct_at.
  rewrite (slot_lookup _ _ _ _ _ _ _ E Hi).
  destruct (lookup_lt_is_Some_2 blk _ Hlt) as [s ->].
  unfold set_slot, set_heap. simpl. by rewrite (alter_block _ _ _ _ E).
Qed.

Lemma destroy_at_ok o h a d b i blk x :
  h !! b = Some blk → 0 ≤ i → blk !! Z.to_nat i = Some (Some x) →
  destroy_at (Ptr b i) (State o h a d)
  = Ok tt (State o (<[b := <[Z.to_nat i := None]> blk]> h) a (x :: d)).
Proof.
  intros E Hi Hx. unfold destroy_at.
  rewrite (slot_lookup _ _ _ _ _ _ _ E Hi), Hx.
  unfold set_slot, set_heap. simpl. by rewrite (alter_block _ _ _ _ E).
Qed.

(** Destroying a slot that holds no object is undefined. *)
Lemma destroy_at_raw o h a d b i blk :
  h !! b = Some blk → 0 ≤ i → blk !! Z.to_nat i = Some None →
  destroy_at (Ptr b i) (State o h a d) = Fault Undefined.
Proof.
  intros E Hi Hx. unfold destroy_at.
  by rewrite (slot_lookup _ _ _ _ _ _ _ E Hi), Hx.
Qed.

Lemma range_length_ok (σ : state T) b i j :
  i ≤ j → range_length (Ptr b i) (Ptr b j) σ = Ok (j - i) σ.
Proof.
  intros Hij. unfold range_length. simpl.
  destruct (decide (b = b)); [|done]. simpl. rewrite ret_bind.
  destruct (Z.ltb_spec (j - i) 0); [lia|done].
Qed.

Lemma at_offset_null (σ : state T) : at_offset NullPtr 0 σ = Ok NullPtr σ.
Proof. done. Qed.

Lemma at_offset_Ptr (σ : state T) b i k :
  at_offset (Ptr b i) k σ = Ok (Ptr b (i + k)) σ.
Proof. done. Qed.

End MemoryFacts.

(** ** Blocks as lists of slots *)

Section Blocks.
Context {T : Type}.
Implicit Types (blk : list (option T)) (xs ys : list T).

Lemma fill_nil off blk : fill off [] blk = blk.
Proof. unfold fill. simpl. rewrite Nat.add_0_r. apply take_drop. Qed.

Lemma clear_0 off blk : clear off 0 blk = blk.
Proof. unfold clear. simpl. rewrite Nat.add_0_r. apply take_drop. Qed.

Lemma length_fill off ys blk :
  (off + length ys ≤ length blk)%nat → length (fill off ys blk) = length blk.
Proof.
  intros Hle. unfold fill.
  rewrite !length_app, length_fmap, length_take, length_drop. lia.
Qed.

Lemma length_clear off n blk :
  (off + n ≤ length blk)%nat → length (clear off n blk) = length blk.
Proof.
  intros Hle. unfold clear.
  rewrite !length_app, length_replicate, length_take, length_drop. lia.
Qed.

Lemma lookup_fill_lt off ys blk k :
  (k < off)%nat → (off ≤ length blk)%nat → fill off ys blk !! k = blk !! k.
Proof.
  intros Hk Hoff. unfold fill.
  rewrite lookup_app_l by (rewrite length_take; lia).
  by rewrite lookup_take_lt.
Qed.

Lemma lookup_fill_mid off ys blk k :
  (off ≤ length blk)%nat → (k < length ys)%nat →
  fill off ys blk !! (off + k)%nat = Some <$> ys !! k.
Proof.
  intros Hoff Hk. unfold fill.
  rewrite lookup_app_r by (rewrite length_take; lia).
  rewrite length_take, Nat.min_l by lia.
  replace (off + k - off)%nat with k by lia.
  rewrite lookup_app_l by (rewrite length_fmap; lia).
  by rewrite list_lookup_fmap.
Qed.

Lemma lookup_fill_ge off ys blk k :
  (off + length ys ≤ k)%nat → (off ≤ length blk)%nat →
  fill off ys blk !! k = blk !! k.
Proof.
  intros Hk Hoff. unfold fill.
  rewrite lookup_app_r by (rewrite length_take; lia).
  rewrite length_take, Nat.min_l by lia.
  rewrite lookup_app_r by (rewrite length_fmap; lia).
  rewrite length_fmap, lookup_drop. f_equal. lia.
Qed.

Lemma lookup_clear_lt off n blk k :
  (k < off)%nat → (off ≤ length blk)%nat → clear off n blk !! k = blk !! k.
Proof.
  intros Hk Hoff. unfold clear.
  rewrite lookup_app_l by (rewrite length_take; lia).
  by rewrite lookup_take_lt.
Qed.

Lemma lookup_clear_mid off n blk k :
  (off ≤ length blk)%nat → (k < n)%nat →
  clear off n blk !! (off + k)%nat = Some None.
Proof.
  intros Hoff Hk. unfold clear.
  rewrite lookup_app_r by (rewrite length_take; lia).
  rewrite length_take, Nat.min_l by lia.
  replace (off + k - off)%nat with k by lia.
  rewrite lookup_app_l by (rewrite length_replicate; lia).
  by apply lookup_replicate_2.
Qed.

Lemma lookup_clear_ge off n blk k :
  (off + n ≤ k)%nat → (off ≤ length blk)%nat →
  clear off n blk !! k = blk !! k.
Proof.
  intros Hk Hoff. unfold clear.
  rewrite lookup_app_r by (rewrite length_take; lia).
  rewrite length_take, Nat.min_l by lia.
  rewrite lookup_app_r by (rewrite length_replicate; lia).
  rewrite length_replicate, lookup_drop. f_equal. lia.
Qed.

(** Constructing one more value extends the filled range. *)
Lemma fill_snoc off ys y blk :
  (off + length ys < length blk)%nat →
  <[(off + length ys)%nat := Some y]> (fill off ys blk) = fill off (ys ++ [y]) blk.
Proof.
  intros Hlt. unfold fill.
  rewrite insert_app_r_alt by (rewrite length_take; lia).
  rewrite length_take, Nat.min_l by lia.
  assert (off + length ys - off = length ys + 0)%nat as -> by (clear; lia).
  rewrite <- (length_fmap Some ys) at 1.
  rewrite insert_app_r.
  rewrite fmap_app, <- app_assoc. simpl.
  rewrite length_app. simpl.
  rewrite (drop_S _ (default None (blk !! (off + length ys)%nat))).
  2:{ destruct (lookup_lt_is_Some_2 blk (off + length ys)%nat Hlt) as [s ->]. done. }
  simpl. by replace (off + (length ys + 1))%nat with (S (off + length ys)) by lia.
Qed.

(** Destroying one more object extends the cleared range. *)
Lemma clear_S off n blk :
  (off + n < length blk)%nat →
  <[(off + n)%nat := None]> (clear off n blk) = clear off (S n) blk.
Proof.
  intros Hlt. unfold clear. rewrite replicate_S_end, <- app_assoc.
  rewrite insert_app_r_alt by (rewrite length_take; lia).
  rewrite length_take, Nat.min_l by lia.
  replace (off + n - off)%nat with (length (replicate n (@None T)) + 0)%nat
    by (rewrite length_replicate; lia).
  rewrite insert_app_r.
  rewrite (drop_S _ (default None (blk !! (off + n)%nat))).
  2:{ destruct (lookup_lt_is_Some_2 blk (off + n)%nat Hlt) as [s ->]. done. }
  simpl. by replace (off + S n)%nat with (S (off + n)) by lia.
Qed.

Lemma clear_fill off ys blk :
  (off + length ys ≤ length blk)%nat →
  clear off (length ys) (fill off ys blk) = clear off (length ys) blk.
Proof.
  intros Hle. apply list_eq. intros k.
  destruct (decide (k < off)%nat).
  { rewrite !lookup_clear_lt, lookup_fill_lt by (rewrite ?length_fill; lia). done. }
  destruct (decide (k < off + length ys)%nat).
  { replace k with (off + (k - off))%nat by lia.
    rewrite !lookup_clear_mid by (rewrite ?length_fill; lia). done. }
  rewrite !lookup_clear_ge, lookup_fill_ge by (rewrite ?length_fill; lia). done.
Qed.

Lemma clear_raw off n blk :
  (off + n ≤ length blk)%nat →
  (∀ k, (k < n)%nat → blk !! (off + k)%nat = Some None) →
  clear off n blk = blk.
Proof.
  intros Hle Hraw. apply list_eq. intros k.
  destruct (decide (k < off)%nat).
  { by rewrite lookup_clear_lt by lia. }
  destruct (decide (k < off + n)%nat).
  { replace k with (off + (k - off))%nat by lia.
    rewrite lookup_clear_mid, Hraw by lia. done. }
  by rewrite lookup_clear_ge by lia.
Qed.

Lemma live_at_fill off ys blk :
  (off ≤ length blk)%nat → live_at (fill off ys blk) off ys.
Proof.
  intros Hoff k x Hk.
  rewrite lookup_fill_mid, Hk; [done|done|]. by eapply lookup_lt_Some.
Qed.

Lemma live_at_lookup blk off xs k x :
  live_at blk off xs → xs !! k = Some x → blk !! (off + k)%nat = Some (Some x).
Proof. intros L. apply L. Qed.

Lemma live_at_length blk off xs :
  live_at blk off xs → (off + length xs ≤ length blk)%nat ∨ xs = [].
Proof.
  intros L. destruct xs as [|x xs _] using rev_ind; [by right|left].
  rewrite length_app. simpl.
  assert ((xs ++ [x]) !! length xs = Some x) as E by apply list_lookup_middle, eq_refl.
  apply L, lookup_lt_Some in E. lia.
Qed.

Lemma fill_live off xs blk :
  live_at blk off xs → (off + length xs ≤ length blk)%nat → fill off xs blk = blk.
Proof.
  intros L Hle. apply list_eq. intros k.
  destruct (decide (k < off)%nat).
  { by rewrite lookup_fill_lt by lia. }
  destruct (decide (k < off + length xs)%nat).
  { replace k with (off + (k - off))%nat by lia.
    rewrite lookup_fill_mid by lia.
    destruct (lookup_lt_is_Some_2 xs (k - off)%nat) as [x Hx]; [lia|].
    by rewrite Hx, (L _ _ Hx). }
  by rewrite lookup_fill_ge by lia.
Qed.

Lemma fill_cons off y ys blk :
  (off < length blk)%nat →
  fill off (y :: ys) blk = fill (Datatypes.S off) ys (<[off := Some y]> blk).
Proof.
  intros Hlt. unfold fill.
  assert (is_Some (blk !! off)) as [s Hs] by by apply lookup_lt_is_Some_2.
  erewrite (take_S_r (<[off := Some y]> blk));
    [|by apply list_lookup_insert_eq].
  rewrite take_insert_ge by lia. rewrite drop_insert_lt by lia.
  rewrite <- app_assoc. simpl.
  by replace (off + Datatypes.S (length ys))%nat
    with (Datatypes.S (off + length ys)) by lia.
Qed.

(** What lies in a range that is filled afterwards does not matter. *)
Lemma fill_insert_inside off ys blk j s :
  (off ≤ j < off + length ys)%nat →
  fill off ys (<[j := s]> blk) = fill off ys blk.
Proof.
  intros Hj. unfold fill.
  rewrite take_insert_ge by lia. by rewrite drop_insert_lt by lia.
Qed.

(** A slot outside the filled range is independent of it. *)
Lemma fill_insert_outside off ys blk j s :
  (j < off ∨ off + length ys ≤ j)%nat → (off + length ys ≤ length blk)%nat →
  fill off ys (<[j := s]> blk) = <[j := s]> (fill off ys blk).
Proof.
  intros Hj Hle. apply list_eq. intros k.
  destruct (decide (k = j)) as [->|Hne].
  - destruct (decide (j < length blk)%nat).
    + rewrite list_lookup_insert_eq by (rewrite length_fill; lia).
      destruct Hj.
      * rewrite lookup_fill_lt by (rewrite ?length_insert; lia).
        by rewrite list_lookup_insert_eq.
      * rewrite lookup_fill_ge by (rewrite ?length_insert; lia).
        by rewrite list_lookup_insert_eq.
    + rewrite !list_insert_ge by (rewrite ?length_fill; lia). done.
  - rewrite list_lookup_insert_ne by done.
    destruct (decide (k < off)%nat).
    { rewrite !lookup_fill_lt by (rewrite ?length_insert; lia).
      by rewrite list_lookup_insert_ne. }
    destruct (decide (k < off + length ys)%nat).
    { replace k with (off + (k - off))%nat by lia.
      by rewrite !lookup_fill_mid by (rewrite ?length_insert; lia). }
    rewrite !lookup_fill_ge by (rewrite ?length_insert; lia).
    by rewrite list_lookup_insert_ne.
Qed.

Lemma fill_app off ys zs blk :
  (off + length ys ≤ length blk)%nat →
  fill off (ys ++ zs) blk = fill (off + length ys) zs (fill off ys blk).
Proof.
  intros Hle. unfold fill.
  assert (length (take off blk ++ (Some <$> ys)) = off + length ys)%nat as Hlen.
  { rewrite length_app, length_take, length_fmap. lia. }
  rewrite (app_assoc (take off blk) (Some <$> ys)).
  rewrite take_app_length' by done.
  rewrite drop_app_ge by lia.
  rewrite Hlen, drop_drop, fmap_app, length_app, <- !app_assoc.
  do 4 f_equal. lia.
Qed.

Lemma block_image_length (l : list T) cap :
  Z.of_nat (length l) ≤ cap → Z.of_nat (length (block_image l cap)) = cap.
Proof.
  intros Hle. unfold block_image.
  rewrite length_app, length_fmap, length_replicate. lia.
Qed.

Lemma block_image_fill (l : list T) cap :
  Z.of_nat (length l) ≤ cap →
  block_image l cap = fill 0 l (replicate (Z.to_nat cap) None).
Proof.
  intros Hle. unfold block_image, fill. simpl.
  rewrite drop_replicate. done.
Qed.

(** The block a growing insertion builds: the new value at its slot,
    then the elements before it, then the elements after it. *)
Lemma block_image_insert (l1 l2 : list T) x cap :
  Z.of_nat (length l1 + length l2) < cap →
  fill (length l1 + 1) l2
    (fill 0 l1 (<[length l1 := Some x]> (replicate (Z.to_nat cap) None)))
  = block_image (l1 ++ x :: l2) cap.
Proof.
  intros Hlt.
  rewrite fill_insert_outside by (rewrite ?length_replicate; lia).
  replace (length l1) with (0 + length l1)%nat at 2 by lia.
  rewrite fill_snoc by (rewrite length_replicate; lia).
  replace (length l1 + 1)%nat with (0 + length (l1 ++ [x]))%nat
    by (rewrite length_app; simpl; lia).
  rewrite <- fill_app by (rewrite length_app, length_replicate; simpl; lia).
  rewrite <- app_assoc. simpl. symmetry. apply block_image_fill.
  rewrite length_app. simpl. lia.
Qed.

Lemma live_at_block_image_aux (l : list T) cap k x :
  l !! k = Some x → block_image l cap !! k = Some (Some x).
Proof.
  intros Hk. unfold block_image.
  rewrite lookup_app_l by (rewrite length_fmap; by eapply lookup_lt_Some).
  by rewrite list_lookup_fmap, Hk.
Qed.

(** Filling a range again, with at least as many values. *)
Lemma fill_fill_over off xs ys blk :
  (length xs ≤ length ys)%nat → (off + length ys ≤ length blk)%nat →
  fill off ys (fill off xs blk) = fill off ys blk.
Proof.
  intros Hxy Hle. apply list_eq. intros k.
  destruct (decide (k < off)%nat).
  { by rewrite !lookup_fill_lt by (rewrite ?length_fill; lia). }
  destruct (decide (k < off + length ys)%nat).
  { replace k with (off + (k - off))%nat by lia.
    by rewrite !lookup_fill_mid by (rewrite ?length_fill; lia). }
  by rewrite !lookup_fill_ge by (rewrite ?length_fill; lia).
Qed.

Lemma insert_fill_head off x r ys blk :
  (off + Datatypes.S (length ys) ≤ length blk)%nat →
  <[off := Some x]> (fill off (r :: ys) blk) = fill off (x :: ys) blk.
Proof.
  intros Hle.
  rewrite !fill_cons by lia.
  rewrite <- fill_insert_outside by (rewrite ?length_insert; lia).
  by rewrite list_insert_insert_eq.
Qed.

Lemma block_image_fill_extend (l1 xs ys : list T) cap :
  (length xs ≤ length ys)%nat → Z.of_nat (length l1 + length ys) ≤ cap →
  fill (length l1) ys (block_image (l1 ++ xs) cap) = block_image (l1 ++ ys) cap.
Proof.
  intros Hxy Hle.
  rewrite !block_image_fill by (rewrite length_app; lia).
  rewrite !(fill_app 0 l1) by (rewrite length_replicate; lia).
  simpl. apply fill_fill_over; [done|].
  rewrite length_fill; rewrite length_replicate; lia.
Qed.

(** The block after an insertion in place: the last element moved
    into the raw slot behind it, the range from [pos] shifted right
    by assignment, the new value assigned at [pos]. *)
Lemma block_image_shift_insert (l1 mid : list T) z x r r0 cap :
  let n := (length l1 + length mid + 1)%nat in
  Z.of_nat n < cap →
  <[length l1 := Some x]>
    (fill (length l1) (r :: mid)
       (<[n := Some z]> (<[(n - 1)%nat := Some r0]>
          (block_image (l1 ++ mid ++ [z]) cap))))
  = block_image (l1 ++ x :: mid ++ [z]) cap.
Proof.
  intros n Hlt.
  assert (length (block_image (l1 ++ mid ++ [z]) cap) = Z.to_nat cap) as Hbl.
  { pose proof (block_image_length (l1 ++ mid ++ [z]) cap) as E.
    rewrite !length_app in E. simpl in E. lia. }
  rewrite insert_fill_head by (rewrite !length_insert; lia).
  rewrite fill_insert_outside by (rewrite ?length_insert; simpl; lia).
  rewrite fill_insert_inside by (simpl; lia).
  replace n with (length l1 + length (x :: mid))%nat by (simpl; lia).
  rewrite fill_snoc by (simpl; lia).
  apply (block_image_fill_extend l1 (mid ++ [z]) ((x :: mid) ++ [z]));
    rewrite !length_app; simpl; lia.
Qed.

Lemma block_image_lookup_ge (l : list T) cap k :
  (length l ≤ k)%nat →
  block_image l cap !! k = if decide (Z.of_nat k < cap) then Some None else None.
Proof.
  intros Hk. unfold block_image.
  rewrite lookup_app_r by (rewrite length_fmap; lia).
  rewrite length_fmap. case_decide.
  - apply lookup_replicate_2. lia.
  - apply lookup_replicate_None. lia.
Qed.

(** The block after the surplus elements have been destroyed. *)
Lemma block_image_truncate (l ys : list T) cap :
  (length ys ≤ length l)%nat → Z.of_nat (length l) ≤ cap →
  clear (length ys) (length l - length ys) (fill 0 ys (block_image l cap))
  = block_image ys cap.
Proof.
  intros Hle Hcap.
  assert (length (block_image l cap) = Z.to_nat cap) as Hbl
    by (pose proof (block_image_length l cap); lia).
  apply list_eq. intros k.
  destruct (decide (k < length ys)%nat).
  { rewrite lookup_clear_lt by (rewrite ?length_fill; lia).
    replace k with (0 + k)%nat at 1 by lia.
    rewrite lookup_fill_mid by lia.
    destruct (lookup_lt_is_Some_2 ys k) as [y Hy]; [lia|].
    by rewrite Hy, (live_at_block_image_aux ys cap k y Hy). }
  destruct (decide (k < length l)%nat).
  { replace k with (length ys + (k - length ys))%nat at 1 by lia.
    rewrite lookup_clear_mid by (rewrite ?length_fill; lia).
    rewrite block_image_lookup_ge by lia. by rewrite decide_True by lia. }
  rewrite lookup_clear_ge by (rewrite ?length_fill; lia).
  rewrite lookup_fill_ge by (simpl; lia).
  by rewrite !block_image_lookup_ge by lia.
Qed.

Lemma live_at_block_image (l : list T) cap : live_at (block_image l cap) 0 l.
Proof.
  intros k x Hk. unfold block_image. simpl.
  rewrite lookup_app_l by (rewrite length_fmap; by eapply lookup_lt_Some).
  by rewrite list_lookup_fmap, Hk.
Qed.

Lemma live_at_drop blk off xs n :
  live_at blk off xs → live_at blk (off + n) (drop n xs).
Proof.
  intros L k x Hk. rewrite lookup_drop in Hk.
  replace (off + n + k)%nat with (off + (n + k))%nat by lia. by apply L.
Qed.

Lemma live_at_take blk off xs n :
  live_at blk off xs → live_at blk off (take n xs).
Proof.
  intros L k x Hk. apply L.
  apply lookup_take_Some in Hk. tauto.
Qed.

End Blocks.

(** ** Loops *)

Section Loops.
Context {S : Type}.

(** A loop all of whose rounds return normally, by an invariant
    indexed by the number of rounds done. *)
Lemma repeat_from_invariant (I : nat → S → Prop) (body : Z → M S unit) n i σ :
  I 0%nat σ →
  (∀ k σ, (k < n)%nat → I k σ →
          ∃ σ', body (i + Z.of_nat k) σ = Ok tt σ' ∧ I (Datatypes.S k) σ') →
  ∃ σ', repeat_from n i body σ = Ok tt σ' ∧ I n σ'.
Proof.
  revert I i σ. induction n as [|n IH]; intros I i σ H0 Hstep.
  - exists σ. by split.
  - destruct (Hstep 0%nat σ) as (σ1 & E1 & H1); [lia|done|].
    rewrite Z.add_0_r in E1.
    destruct (IH (λ k, I (Datatypes.S k)) (i + 1) σ1) as (σ2 & E2 & H2); [done| |].
    { intros k σ' Hk Hσ'. destruct (Hstep (Datatypes.S k) σ') as (σ'' & E & H''); [lia|done|].
      exists σ''. split; [|done]. rewrite <- E. f_equal. lia. }
    exists σ2. split; [|done].
    rewrite repeat_from_S. by rewrite (bind_Ok _ _ _ _ _ E1).
Qed.

(** A loop whose round [k] throws after [k] rounds that returned. *)
Lemma repeat_from_throw (body : Z → M S unit) n k i σ σ1 e σ2 :
  (k < n)%nat →
  repeat_from k i body σ = Ok tt σ1 →
  body (i + Z.of_nat k) σ1 = Throw e σ2 →
  repeat_from n i body σ = Throw e σ2.
Proof.
  intros Hk E1 E2.
  replace n with (k + Datatypes.S (n - k - 1))%nat by lia.
  rewrite repeat_from_app, (bind_Ok _ _ _ _ _ E1), repeat_from_S.
  by rewrite (bind_Throw _ _ _ _ _ E2).
Qed.

(** A loop whose round [k] faults after [k] rounds that returned. *)
Lemma repeat_from_fault (body : Z → M S unit) n k i σ σ1 f :
  (k < n)%nat →
  repeat_from k i body σ = Ok tt σ1 →
  body (i + Z.of_nat k) σ1 = Fault f →
  repeat_from n i body σ = Fault f.
Proof.
  intros Hk E1 E2.
  replace n with (k + Datatypes.S (n - k - 1))%nat by lia.
  rewrite repeat_from_app, (bind_Ok _ _ _ _ _ E1), repeat_from_S.
  by rewrite (bind_Fault _ _ _ _ E2).
Qed.

End Loops.

Section MemoryLoops.
Context {T : Type} `{Element T}.
Implicit Types (h : gmap nat (list (option T))) (blk : list (option T)).
Implicit Types (xs ys : list T) (o : gmap nat Vector) (d : list T).

Lemma rev_take_S xs k x :
  xs !! k = Some x → rev (take (Datatypes.S k) xs) = x :: rev (take k xs).
Proof. intros E. rewrite (take_S_r _ _ _ E), rev_app_distr. done. Qed.

(** [std::destroy_n] on a range of objects. *)
Lemma destroy_n_ok o h a d b off blk xs :
  h !! b = Some blk → live_at blk off xs →
  destroy_n (Ptr b (Z.of_nat off)) (Z.of_nat (length xs)) (State o h a d)
  = Ok tt (State o (<[b := clear off (length xs) blk]> h) a (rev xs ++ d)).
Proof.
  intros Hb Hlive. unfold destroy_n. rewrite Nat2Z.id.
  edestruct (repeat_from_invariant
    (λ k σ, σ = State o (<[b := clear off k blk]> h) a (rev (take k xs) ++ d)))
    as (σ' & -> & ->).
  { simpl. by rewrite clear_0, insert_id. }
  { intros k σ Hk ->.
    destruct (lookup_lt_is_Some_2 xs k Hk) as [x Hx].
    eexists. split; [|reflexivity].
    rewrite (bind_Ok _ _ _ _ _ (at_offset_Ptr _ _ _ _)).
    pose proof (Hlive _ _ Hx) as Hs. pose proof (lookup_lt_Some _ _ _ Hs).
    erewrite destroy_at_ok; [|apply lookup_insert_eq|lia|].
    2:{ replace (Z.to_nat (Z.of_nat off + (0 + Z.of_nat k))) with (off + k)%nat by lia.
        rewrite lookup_clear_ge by lia. done. }
    rewrite insert_insert_eq.
    replace (Z.to_nat (Z.of_nat off + (0 + Z.of_nat k))) with (off + k)%nat by lia.
    rewrite clear_S by lia. by rewrite (rev_take_S _ _ _ Hx). }
  by rewrite firstn_all.
Qed.

Lemma destroy_n_0 (p : ptr) (σ : state T) : destroy_n p 0 σ = Ok tt σ.
Proof. done. Qed.

(** The first slot of the range holds no object. *)
Lemma destroy_n_raw o h a d b off blk n :
  h !! b = Some blk → 0 ≤ off → 0 < n → blk !! Z.to_nat off = Some None →
  destroy_n (Ptr b off) n (State o h a d) = Fault Undefined.
Proof.
  intros Hb Hoff Hn Hraw. unfold destroy_n.
  destruct (Z.to_nat n) as [|k] eqn:E; [lia|].
  rewrite repeat_from_S. apply bind_Fault.
  rewrite (bind_Ok _ _ _ _ _ (at_offset_Ptr _ _ _ _)).
  eapply destroy_at_raw; [done|lia|]. by rewrite Z.add_0_r.
Qed.

(** The range holds objects up to a slot that holds none. *)
Lemma destroy_n_reaches_raw o h a d b blk xs n :
  h !! b = Some blk → live_at blk 0 xs →
  blk !! length xs = Some None → Z.of_nat (length xs) < n →
  destroy_n (Ptr b 0) n (State o h a d) = Fault Undefined.
Proof.
  intros Hb Hlive Hraw Hn.
  pose proof (destroy_n_ok o h a d b 0 blk xs Hb Hlive) as E.
  unfold destroy_n in *. rewrite Nat2Z.id in E. simpl (Z.of_nat 0) in E.
  eapply repeat_from_fault; [|exact E|].
  { lia. }
  rewrite (bind_Ok _ _ _ _ _ (at_offset_Ptr _ _ _ _)).
  eapply destroy_at_raw; [apply lookup_insert_eq|lia|].
  replace (Z.to_nat (0 + (0 + Z.of_nat (length xs)))) with (0 + length xs)%nat by lia.
  pose proof (lookup_lt_Some _ _ _ Hraw).
  rewrite lookup_clear_ge by lia. done.
Qed.

(** One round of [std::uninitialized_copy_n]. *)
Lemma copy_round_ok o h a d bs soff sblk bd doff dblk k x y (m : M (state T) unit) :
  h !! bs = Some sblk → sblk !! (soff + k)%nat = Some (Some x) →
  h !! bd = Some dblk → (doff + k < length dblk)%nat →
  copy_construct x = Some y →
  on_throw (s ← at_offset (Ptr bs (Z.of_nat soff)) (0 + Z.of_nat k);
            x ← read_at s; y ← call (copy_construct x);
            p ← at_offset (Ptr bd (Z.of_nat doff)) (0 + Z.of_nat k);
            construct_at p y) m (State o h a d)
  = Ok tt (State o (<[bd := <[(doff + k)%nat := Some y]> dblk]> h) a d).
Proof.
  intros Hs Hx Hd Hk Hy. apply on_throw_Ok.
  rewrite (bind_Ok _ _ _ _ _ (at_offset_Ptr _ _ _ _)).
  erewrite bind_Ok; [|eapply read_at_ok; [done|lia|]].
  2:{ by replace (Z.to_nat (Z.of_nat soff + (0 + Z.of_nat k))) with (soff + k)%nat by lia. }
  rewrite Hy. simpl. rewrite ret_bind.
  rewrite (bind_Ok _ _ _ _ _ (at_offset_Ptr _ _ _ _)).
  erewrite construct_at_ok; [|done|lia|lia].
  by replace (Z.to_nat (Z.of_nat doff + (0 + Z.of_nat k))) with (doff + k)%nat by lia.
Qed.

Lemma copy_rounds_ok o h a d bs soff sblk bd doff dblk xs ys :
  bs ≠ bd →
  h !! bs = Some sblk → live_at sblk soff xs →
  h !! bd = Some dblk → (doff + length xs ≤ length dblk)%nat →
  Forall2 (λ x y, copy_construct x = Some y) xs ys →
  repeat_from (length xs) 0 (λ i,
    on_throw (s ← at_offset (Ptr bs (Z.of_nat soff)) i; x ← read_at s;
              y ← call (copy_construct x);
              p ← at_offset (Ptr bd (Z.of_nat doff)) i; construct_at p y)
             (destroy_n (Ptr bd (Z.of_nat doff)) i))
    (State o h a d)
  = Ok tt (State o (<[bd := fill doff ys dblk]> h) a d).
Proof.
  intros Hne Hs Hlive Hd Hlen Hcopy.
  pose proof (Forall2_length _ _ _ Hcopy) as Hlen'.
  edestruct (repeat_from_invariant
    (λ k σ, σ = State o (<[bd := fill doff (take k ys) dblk]> h) a d))
    as (σ' & -> & ->).
  { by rewrite take_0, fill_nil, insert_id. }
  { intros k σ Hk ->.
    destruct (lookup_lt_is_Some_2 xs k Hk) as [x Hx].
    destruct (Forall2_lookup_l _ _ _ _ _ Hcopy Hx) as (y & Hy & Hxy).
    eexists. split; [|reflexivity].
    erewrite copy_round_ok; [| |by apply Hlive|apply lookup_insert_eq| |done].
    2:{ by rewrite lookup_insert_ne. }
    2:{ rewrite length_fill; rewrite ?length_take; lia. }
    rewrite insert_insert_eq. do 3 f_equal.
    rewrite (take_S_r _ _ _ Hy).
    rewrite <- fill_snoc by (rewrite length_take; lia).
    by rewrite length_take, Nat.min_l by lia. }
  by rewrite Hlen', firstn_all.
Qed.

(** [std::uninitialized_copy_n] when every copy succeeds. *)
Lemma uninitialized_copy_n_ok o h a d bs soff sblk bd doff dblk xs ys :
  bs ≠ bd →
  h !! bs = Some sblk → live_at sblk soff xs →
  h !! bd = Some dblk → (doff + length xs ≤ length dblk)%nat →
  Forall2 (λ x y, copy_construct x = Some y) xs ys →
  uninitialized_copy_n (Ptr bs (Z.of_nat soff)) (Z.of_nat (length xs))
                       (Ptr bd (Z.of_nat doff)) (State o h a d)
  = Ok tt (State o (<[bd := fill doff ys dblk]> h) a d).
Proof.
  intros. unfold uninitialized_copy_n. rewrite Nat2Z.id.
  by apply copy_rounds_ok with sblk.
Qed.

(** [std::uninitialized_copy_n] when the copy of element [k] throws:
    the copies made so far are destroyed, and the destination, raw
    before, is raw again. *)
Lemma uninitialized_copy_n_throw o h a d bs soff sblk bd doff dblk xs ys k x :
  bs ≠ bd →
  h !! bs = Some sblk → live_at sblk soff xs →
  h !! bd = Some dblk → (doff + length xs ≤ length dblk)%nat →
  (∀ j, (j < length xs)%nat → dblk !! (doff + j)%nat = Some None) →
  Forall2 (λ x y, copy_construct x = Some y) (take k xs) ys →
  xs !! k = Some x → copy_construct x = None →
  uninitialized_copy_n (Ptr bs (Z.of_nat soff)) (Z.of_nat (length xs))
                       (Ptr bd (Z.of_nat doff)) (State o h a d)
  = Throw element_exception (State o h a (rev ys ++ d)).
Proof.
  intros Hne Hs Hlive Hd Hlen Hraw Hcopy Hx Hfail.
  pose proof (lookup_lt_Some _ _ _ Hx) as Hk.
  pose proof (Forall2_length _ _ _ Hcopy) as Hlen'.
  rewrite length_take, Nat.min_l in Hlen' by lia.
  unfold uninitialized_copy_n. rewrite Nat2Z.id.
  eapply repeat_from_throw; [exact Hk| |].
  { pose proof (copy_rounds_ok o h a d bs soff sblk bd doff dblk (take k xs) ys) as E.
    rewrite length_take, Nat.min_l in E by lia.
    apply E; try done; [by apply live_at_take|lia]. }
  eapply on_throw_Throw.
  { rewrite (bind_Ok _ _ _ _ _ (at_offset_Ptr _ _ _ _)).
    erewrite bind_Ok; [|eapply read_at_ok; [by rewrite lookup_insert_ne|lia|]].
    2:{ replace (Z.to_nat (Z.of_nat soff + (0 + Z.of_nat k))) with (soff + k)%nat by lia.
        by apply Hlive. }
    rewrite Hfail. reflexivity. }
  replace (0 + Z.of_nat k) with (Z.of_nat (length ys)) by lia.
  erewrite destroy_n_ok; [|apply lookup_insert_eq|apply live_at_fill; lia].
  rewrite insert_insert_eq, clear_fill by lia.
  rewrite clear_raw; [by rewrite insert_id|lia|].
  intros j Hj. apply Hraw. lia.
Qed.

End MemoryLoops.

(** Equality of heaps built by insertions and deletions. *)
Ltac heap_eq :=
  apply map_eq; intros ?; rewrite ?lookup_insert, ?lookup_delete;
  repeat case_decide; simplify_eq; try done.

Section MoveLoops.
Context {T : Type} `{Element T}.
Implicit Types (h : gmap nat (list (option T))) (blk : list (option T)).
Implicit Types (xs ys : list T) (o : gmap nat Vector) (d : list T).

(** [std::uninitialized_move_n] when every move succeeds: the
    destination receives the moved values, the source keeps what the
    moves left behind. *)
Lemma uninitialized_move_n_ok o h a d bs soff sblk bd doff dblk xs
      (yrs : list (T * T)) :
  bs ≠ bd →
  h !! bs = Some sblk → live_at sblk soff xs →
  h !! bd = Some dblk → (doff + length xs ≤ length dblk)%nat →
  Forall2 (λ x yr, move_construct x = Some yr) xs yrs →
  uninitialized_move_n (Ptr bs (Z.of_nat soff)) (Z.of_nat (length xs))
                       (Ptr bd (Z.of_nat doff)) (State o h a d)
  = Ok tt (State o (<[bd := fill doff (yrs.*1) dblk]>
                      (<[bs := fill soff (yrs.*2) sblk]> h)) a d).
Proof.
  intros Hne Hs Hlive Hd Hlen Hmove.
  pose proof (Forall2_length _ _ _ Hmove) as Hlen'.
  destruct (live_at_length _ _ _ Hlive) as [Hslen| ->].
  2:{ apply Forall2_nil_inv_l in Hmove as ->. simpl.
      unfold uninitialized_move_n. simpl. rewrite !fill_nil.
      by rewrite (insert_id _ _ _ Hs), (insert_id _ _ _ Hd). }
  unfold uninitialized_move_n. rewrite Nat2Z.id.
  edestruct (repeat_from_invariant
    (λ k σ, σ = State o (<[bd := fill doff ((take k yrs).*1) dblk]>
                           (<[bs := fill soff ((take k yrs).*2) sblk]> h)) a d))
    as (σ' & -> & ->).
  { rewrite take_0. simpl. rewrite !fill_nil.
    by rewrite (insert_id _ _ _ Hs), (insert_id _ _ _ Hd). }
  { intros k σ Hk ->.
    destruct (lookup_lt_is_Some_2 xs k Hk) as [x Hx].
    destruct (Forall2_lookup_l _ _ _ _ _ Hmove Hx) as ([y r] & Hyr & Hxy).
    assert (length (take k yrs) = k) as Htk by (rewrite length_take; lia).
    eexists. split; [|reflexivity].
    apply on_throw_Ok.
    rewrite (bind_Ok _ _ _ _ _ (at_offset_Ptr _ _ _ _)).
    replace (Z.of_nat soff + (0 + Z.of_nat k)) with (Z.of_nat (soff + k)) by lia.
    replace (Z.of_nat doff + (0 + Z.of_nat k)) with (Z.of_nat (doff + k)) by lia.
    assert (fill soff (take k yrs).*2 sblk !! (soff + k)%nat = Some (Some x)) as Hsx.
    { rewrite lookup_fill_ge by (rewrite ?length_fmap; lia). by apply Hlive. }
    erewrite bind_Ok; [|eapply read_at_ok; [|lia|rewrite Nat2Z.id; exact Hsx]].
    2:{ rewrite lookup_insert_ne by done. apply lookup_insert_eq. }
    rewrite Hxy. simpl. rewrite ret_bind.
    erewrite bind_Ok; [|eapply write_at_ok; [|lia|rewrite Nat2Z.id; exact Hsx]].
    2:{ rewrite lookup_insert_ne by done. apply lookup_insert_eq. }
    rewrite (bind_Ok _ _ _ _ _ (at_offset_Ptr _ _ _ _)).
    replace (Z.of_nat doff + (0 + Z.of_nat k)) with (Z.of_nat (doff + k)) by lia.
    erewrite construct_at_ok; [| |lia|].
    2:{ rewrite lookup_insert_ne by done. apply lookup_insert_eq. }
    2:{ rewrite Nat2Z.id, length_fill; rewrite ?length_fmap; lia. }
    rewrite !Nat2Z.id. do 2 f_equal.
    rewrite (take_S_r _ _ _ Hyr), !fmap_app. simpl.
    rewrite <- !fill_snoc by (rewrite length_fmap; lia).
    rewrite !length_fmap, Htk. heap_eq. }
  by rewrite Hlen', firstn_all.
Qed.

(** One move assignment inside a block. *)
Lemma move_assign_at_ok o h a d b blk i j x old y r :
  h !! b = Some blk → i ≠ j →
  blk !! i = Some (Some x) → blk !! j = Some (Some old) →
  move_assign old x = Some (y, r) →
  move_assign_at (Ptr b (Z.of_nat j)) (Ptr b (Z.of_nat i)) (State o h a d)
  = Ok tt (State o (<[b := <[j := Some y]> (<[i := Some r]> blk)]> h) a d).
Proof.
  intros Hb Hne Hi Hj Hmove. unfold move_assign_at.
  erewrite bind_Ok; [|eapply read_at_ok; [done|lia|by rewrite Nat2Z.id]].
  erewrite bind_Ok; [|eapply read_at_ok; [done|lia|by rewrite Nat2Z.id]].
  rewrite Hmove. simpl. rewrite ret_bind.
  erewrite bind_Ok; [|eapply write_at_ok; [done|lia|by rewrite Nat2Z.id]].
  erewrite write_at_ok; [|apply lookup_insert_eq|lia|].
  2:{ rewrite !Nat2Z.id, list_lookup_insert_ne by done. done. }
  by rewrite !Nat2Z.id, insert_insert_eq.
Qed.

Lemma shift_onto_length dv tl res :
  shift_onto dv tl = Some res → length res = Datatypes.S (length tl).
Proof.
  revert dv res. induction tl as [|s tl IH]; intros dv res E; simpl in E.
  - by simplify_eq.
  - destruct (move_assign dv s) as [[y r]|]; [|done]. simpl in E.
    destruct (shift_onto r tl) as [rest|] eqn:E'; [|done]. simpl in E.
    simplify_eq. simpl. by rewrite (IH _ _ E').
Qed.

(** The rounds of [std::move] towards the left neighbour. *)
Lemma std_move_rounds o a d b first tl : ∀ dv pos i blk h res,
  Z.of_nat pos + 1 = first + i →
  h !! b = Some blk → live_at blk pos (dv :: tl) →
  shift_onto dv tl = Some res →
  repeat_from (length tl) i (λ i,
    s ← at_offset (Ptr b first) i;
    dst ← at_offset (Ptr b (first - 1)) i;
    move_assign_at dst s) (State o h a d)
  = Ok tt (State o (<[b := fill pos res blk]> h) a d).
Proof.
  induction tl as [|s tl IH]; intros dv pos i blk h res Hi Hb Hlive Hres.
  - simpl in *. simplify_eq.
    rewrite fill_live; [by rewrite insert_id| |].
    + intros k x Hk. by apply Hlive.
    + pose proof (Hlive 0%nat dv eq_refl) as E. apply lookup_lt_Some in E.
      simpl. lia.
  - simpl in Hres.
    destruct (move_assign dv s) as [[y r]|] eqn:Hmove; [|done]. simpl in Hres.
    destruct (shift_onto r tl) as [rest|] eqn:Hrest; [|done]. simpl in Hres.
    simplify_eq.
    pose proof (Hlive 0%nat dv eq_refl) as Hdv.
    pose proof (Hlive 1%nat s eq_refl) as Hs.
    pose proof (lookup_lt_Some _ _ _ Hs) as Hlt.
    simpl length. rewrite repeat_from_S.
    erewrite bind_Ok.
    2:{ cbv beta.
        rewrite (bind_Ok _ _ _ _ _ (at_offset_Ptr _ _ _ _)).
        rewrite (bind_Ok _ _ _ _ _ (at_offset_Ptr _ _ _ _)).
        replace (first + i) with (Z.of_nat (pos + 1)) by lia.
        replace (first - 1 + i) with (Z.of_nat (pos + 0)) by lia.
        by eapply move_assign_at_ok; [done|lia|..]. }
    erewrite (IH r (Datatypes.S pos) (i + 1)); [|lia|apply lookup_insert_eq| |done].
    2:{ intros k x Hk. destruct k as [|k]; simpl in Hk.
        - simplify_eq. rewrite list_lookup_insert_ne by lia.
          replace (Datatypes.S pos + 0)%nat with (pos + 1)%nat by lia.
          apply list_lookup_insert_eq. lia.
        - rewrite !list_lookup_insert_ne by lia.
          replace (Datatypes.S pos + Datatypes.S k)%nat
            with (pos + Datatypes.S (Datatypes.S k))%nat by lia.
          by apply Hlive. }
    rewrite insert_insert_eq. do 3 f_equal.
    rewrite Nat.add_0_r, list_insert_insert_ne by lia.
    rewrite fill_insert_inside.
    2:{ rewrite (shift_onto_length _ _ _ Hrest). lia. }
    rewrite fill_cons by lia. done.
Qed.

End MoveLoops.

(** ** Objects *)

Section Objects.
Context {T : Type} `{Element T}.
Implicit Types (h : gmap nat (list (option T))) (o : gmap nat Vector).

Lemma wrap_small z : 0 ≤ z < 2 ^ 64 → wrap z = z.
Proof. intros. unfold wrap. by apply Z.mod_small. Qed.

Lemma load_ok o h a (d : list T) this v :
  o !! this = Some v → Vector.load this (State o h a d) = Ok v (State o h a d).
Proof. intros E. unfold Vector.load. simpl. by rewrite E. Qed.

Lemma put_size_ok o h a (d : list T) this v n :
  o !! this = Some v →
  Vector.put_size_ this n (State o h a d)
  = Ok tt (State (<[this := {| data_ := data_ v; size_ := n |}]> o) h a d).
Proof.
  intros E. unfold Vector.put_size_. by rewrite (bind_Ok _ _ _ _ _ (load_ok _ _ _ _ _ _ E)).
Qed.

Lemma put_data_ok o h a (d : list T) this v m :
  o !! this = Some v →
  Vector.put_data_ this m (State o h a d)
  = Ok tt (State (<[this := {| data_ := m; size_ := size_ v |}]> o) h a d).
Proof.
  intros E. unfold Vector.put_data_. by rewrite (bind_Ok _ _ _ _ _ (load_ok _ _ _ _ _ _ E)).
Qed.

Lemma Empty_ok o h a (d : list T) this v :
  o !! this = Some v →
  Vector.Empty this (State o h a d) = Ok (size_ v =? 0) (State o h a d).
Proof.
  intros E. unfold Vector.Empty. by rewrite (bind_Ok _ _ _ _ _ (load_ok _ _ _ _ _ _ E)).
Qed.

Lemma Size_ok o h a (d : list T) this v :
  o !! this = Some v →
  Vector.Size this (State o h a d) = Ok (size_ v) (State o h a d).
Proof.
  intros E. unfold Vector.Size. by rewrite (bind_Ok _ _ _ _ _ (load_ok _ _ _ _ _ _ E)).
Qed.

Lemma Capacity_ok o h a (d : list T) this v :
  o !! this = Some v →
  Vector.Capacity this (State o h a d) = Ok (capacity_ (data_ v)) (State o h a d).
Proof.
  intros E. unfold Vector.Capacity.
  by rewrite (bind_Ok _ _ _ _ _ (load_ok _ _ _ _ _ _ E)).
Qed.

Lemma begin_ok o h a (d : list T) this v :
  o !! this = Some v →
  Vector.begin this (State o h a d) = Ok (buffer_ (data_ v)) (State o h a d).
Proof.
  intros E. unfold Vector.begin.
  by rewrite (bind_Ok _ _ _ _ _ (load_ok _ _ _ _ _ _ E)).
Qed.

Lemma subscript_ok (σ : state T) b cap i :
  i ≤ cap →
  RawMemory.subscript {| buffer_ := Ptr b 0; capacity_ := cap |} i σ = Ok (Ptr b i) σ.
Proof.
  intros Hi. unfold RawMemory.subscript. simpl.
  destruct (Z.leb_spec i cap); [|lia]. done.
Qed.

Lemma plus_ok (σ : state T) b cap i :
  i ≤ cap →
  RawMemory.plus {| buffer_ := Ptr b 0; capacity_ := cap |} i σ = Ok (Ptr b i) σ.
Proof.
  intros Hi. unfold RawMemory.plus. simpl.
  destruct (Z.leb_spec i cap); [|lia]. done.
Qed.

(** What [repr] says about sizes. *)
Lemma repr_bounds (σ : state T) this buf cap l :
  repr σ this buf cap l →
  0 ≤ Z.of_nat (length l) ≤ cap ∧ cap ≤ PTRDIFF_MAX ∧ cap * sizeof_T < 2 ^ 63.
Proof.
  intros [_ Hsz Hby _]. pose proof sizeof_T_pos. unfold PTRDIFF_MAX in *.
  split; [lia|]. split; nia.
Qed.

Lemma repr_nonempty (σ : state T) this buf cap l :
  repr σ this buf cap l → 0 < cap →
  ∃ b, buf = Ptr b 0 ∧ heap σ !! b = Some (block_image l cap).
Proof.
  intros [_ _ _ Hblk] Hcap. destruct buf as [|b off]; [lia|].
  destruct Hblk as (-> & _ & Hb). by exists b.
Qed.

Lemma block_image_pop (l : list T) x cap :
  Z.of_nat (length l) < cap →
  <[length l := None]> (block_image (l ++ [x]) cap) = block_image l cap.
Proof.
  intros Hlt. unfold block_image.
  rewrite fmap_app, length_app, <- app_assoc. simpl.
  rewrite <- (length_fmap Some l) at 1.
  rewrite insert_app_r_alt, Nat.sub_diag by lia. simpl.
  replace (Z.to_nat cap - length l)%nat
    with (Datatypes.S (Z.to_nat cap - (length l + 1))) by lia.
  done.
Qed.

Lemma block_image_lookup (l : list T) cap k x :
  l !! k = Some x → block_image l cap !! k = Some (Some x).
Proof. intros E. by apply (live_at_block_image l cap k x). Qed.

Lemma block_image_raw (l : list T) cap k :
  (length l ≤ k)%nat → Z.of_nat k < cap → block_image l cap !! k = Some None.
Proof.
  intros Hk Hcap. unfold block_image.
  rewrite lookup_app_r by (rewrite length_fmap; lia).
  rewrite length_fmap. apply lookup_replicate_2. lia.
Qed.

End Objects.

(** ** [PopBack] *)

Section PopBack.
Context {T : Type} `{Element T}.

Lemma PopBack_empty (σ : state T) this buf cap :
  repr σ this buf cap [] → Vector.PopBack this σ = Ok tt σ.
Proof.
  intros [Hobj _ _ _]. destruct σ as [o h a d]. simpl_state.
  unfold Vector.PopBack. apply noexcept_Ok.
  by rewrite (bind_Ok _ _ _ _ _ (Empty_ok _ _ _ _ _ _ Hobj)).
Qed.

Lemma PopBack_nonempty (σ : state T) this buf cap l x :
  repr σ this buf cap (l ++ [x]) →
  ∃ σ', Vector.PopBack this σ = Ok tt σ'
        ∧ repr σ' this buf cap l
        ∧ dtor_log σ' = x :: dtor_log σ
        ∧ avail σ' = avail σ
        ∧ (∀ other, other ≠ this → objs σ' !! other = objs σ !! other)
        ∧ (∀ b, buf ≠ Ptr b 0 → heap σ' !! b = heap σ !! b).
Proof.
  intros R. pose proof (repr_bounds _ _ _ _ _ R) as (Hlen & Hcap & _).
  rewrite length_app in Hlen. simpl in Hlen.
  destruct (repr_nonempty _ _ _ _ _ R) as (b & -> & Hb); [lia|].
  destruct R as [Hobj Hsz Hby _].
  rewrite length_app in Hobj. simpl in Hobj.
  destruct σ as [o h a d]. simpl_state. unfold PTRDIFF_MAX in *.
  eexists. split; [|split; [|split; [|split; [|split]]]].
  - unfold Vector.PopBack. apply noexcept_Ok.
    rewrite (bind_Ok _ _ _ _ _ (Empty_ok _ _ _ _ _ _ Hobj)).
    simpl. destruct (Z.eqb_spec (Z.of_nat (length l + 1)) 0) as [|_]; [lia|]. simpl.
    rewrite (bind_Ok _ _ _ _ _ (load_ok _ _ _ _ _ _ Hobj)).
    erewrite bind_Ok; [|by apply put_size_ok].
    erewrite bind_Ok; [|by apply load_ok, lookup_insert_eq].
    simpl. rewrite wrap_small by lia.
    erewrite bind_Ok; [|apply subscript_ok; lia].
    eapply destroy_at_ok; [done|lia|].
    apply block_image_lookup.
    replace (Z.to_nat (Z.of_nat (length l + 1) - 1)) with (length l) by lia.
    apply list_lookup_middle. done.
  - split; simpl.
    + rewrite lookup_insert_eq. unfold vec. do 2 f_equal. lia.
    + lia.
    + done.
    + split; [done|]. split; [lia|].
      rewrite lookup_insert_eq. f_equal.
      replace (Z.to_nat (Z.of_nat (length l + 1) - 1)) with (length l) by lia.
      apply block_image_pop. lia.
  - done.
  - done.
  - intros other Hne. simpl. by rewrite lookup_insert_ne.
  - intros b' Hne. simpl. rewrite lookup_insert_ne; [done|congruence].
Qed.

End PopBack.

(** ** [Erase] *)

Section Erase.
Context {T : Type} `{Element T}.
Implicit Types (h : gmap nat (list (option T))) (o : gmap nat Vector).

Lemma end_ok o h a (d : list T) this b cap n :
  o !! this = Some (vec (Ptr b 0) cap n) → 0 ≤ n ≤ cap →
  Vector.end_ this (State o h a d) = Ok (Ptr b n) (State o h a d).
Proof.
  intros E Hn. unfold Vector.end_.
  rewrite (bind_Ok _ _ _ _ _ (load_ok _ _ _ _ _ _ E)). simpl.
  destruct (Z.eqb_spec n 0) as [->|]; simpl.
  - by rewrite (begin_ok _ _ _ _ _ _ E).
  - apply subscript_ok. lia.
Qed.

(** [std::move] of the range after slot [pos] onto the range that
    starts at slot [pos]. *)
Lemma std_move_ok o h a d b blk pos (dv : T) tl res :
  h !! b = Some blk → live_at blk pos (dv :: tl) →
  shift_onto dv tl = Some res →
  std_move (Ptr b (Z.of_nat pos + 1)) (Ptr b (Z.of_nat (pos + 1 + length tl)))
           (Ptr b (Z.of_nat pos)) (State o h a d)
  = Ok tt (State o (<[b := fill pos res blk]> h) a d).
Proof.
  intros Hb Hlive Hres. unfold std_move.
  erewrite bind_Ok; [|apply range_length_ok; lia].
  replace (Z.to_nat (Z.of_nat (pos + 1 + length tl) - (Z.of_nat pos + 1)))
    with (length tl) by lia.
  replace (Ptr b (Z.of_nat pos)) with (Ptr b (Z.of_nat pos + 1 - 1)) by (f_equal; lia).
  eapply std_move_rounds; [|done..]. lia.
Qed.

Lemma block_image_fill_middle (l1 xs ys l3 : list T) cap :
  length ys = length xs →
  fill (length l1) ys (block_image (l1 ++ xs ++ l3) cap)
  = block_image (l1 ++ ys ++ l3) cap.
Proof.
  intros Hlen. unfold fill, block_image.
  rewrite !fmap_app, !length_app, <- !app_assoc, Hlen.
  rewrite <- (length_fmap Some l1) at 1. rewrite take_app_length.
  rewrite <- (length_fmap Some l1) at 1.
  rewrite drop_app_add.
  rewrite <- (length_fmap Some xs) at 1. rewrite drop_app_length.
  done.
Qed.

Lemma block_image_fill_tail (l1 xs ys : list T) cap :
  length ys = length xs →
  fill (length l1) ys (block_image (l1 ++ xs) cap) = block_image (l1 ++ ys) cap.
Proof.
  intros Hlen. pose proof (block_image_fill_middle l1 xs ys [] cap Hlen) as E.
  by rewrite !app_nil_r in E.
Qed.

(** The specification of [Erase]: the element at [pos] is assigned
    from its right neighbour, and so on to the last element, whose
    slot is destructed. *)
Lemma Erase_spec (σ : state T) this b cap l1 x l2 l2' r :
  repr σ this (Ptr b 0) cap (l1 ++ x :: l2) →
  shift_onto x l2 = Some (l2' ++ [r]) →
  ∃ σ', Vector.Erase this (Ptr b (Z.of_nat (length l1))) σ
          = Ok (Ptr b (Z.of_nat (length l1))) σ'
        ∧ repr σ' this (Ptr b 0) cap (l1 ++ l2')
        ∧ dtor_log σ' = r :: dtor_log σ
        ∧ avail σ' = avail σ
        ∧ (∀ other, other ≠ this → objs σ' !! other = objs σ !! other)
        ∧ (∀ b', b' ≠ b → heap σ' !! b' = heap σ !! b').
Proof.
  intros R Hres.
  pose proof (repr_bounds _ _ _ _ _ R) as (Hlen & Hcap & _).
  pose proof (shift_onto_length _ _ _ Hres) as Hreslen.
  rewrite length_app in Hlen, Hreslen. simpl in Hlen, Hreslen.
  destruct (repr_nonempty _ _ _ _ _ R) as (b0 & [= <-] & Hb); [lia|].
  pose proof R as [Hobj Hsz Hby _].
  destruct σ as [o h a d]. simpl_state. unfold PTRDIFF_MAX in *.
  (* the state after the moves represents the shifted list *)
  set (σ1 := State o (<[b := block_image ((l1 ++ l2') ++ [r]) cap]> h) a d).
  assert (repr σ1 this (Ptr b 0) cap ((l1 ++ l2') ++ [r])) as R1.
  { split; simpl.
    - rewrite Hobj. unfold vec. do 2 f_equal.
      rewrite !length_app. simpl. lia.
    - rewrite !length_app in *. simpl in *. lia.
    - done.
    - split; [done|]. split; [lia|]. apply lookup_insert_eq. }
  destruct (PopBack_nonempty _ _ _ _ _ _ R1) as (σ2 & Hpop & R2 & Hlog & Hav & Hfo & Hfh).
  exists σ2. split; [|split; [done|split; [done|split; [done|split]]]].
  - unfold Vector.Erase. apply noexcept_Ok.
    rewrite (bind_Ok _ _ _ _ _ (Empty_ok _ _ _ _ _ _ Hobj)). simpl.
    destruct (Z.eqb_spec (Z.of_nat (length (l1 ++ x :: l2))) 0) as [E|_].
    { rewrite length_app in E. simpl in E. lia. }
    simpl. rewrite ret_bind.
    rewrite (bind_Ok _ _ _ _ _ (begin_ok _ _ _ _ _ _ Hobj)). simpl.
    destruct (decide (b = b)); [|done]. simpl. rewrite ret_bind.
    rewrite (bind_Ok _ _ _ _ _ (load_ok _ _ _ _ _ _ Hobj)). simpl.
    rewrite Z.sub_0_r, (wrap_small (Z.of_nat (length l1))) by lia.
    rewrite wrap_small by lia.
    erewrite bind_Ok; [|apply subscript_ok; lia].
    erewrite bind_Ok; [|eapply end_ok; [done|lia]].
    erewrite bind_Ok; [|apply subscript_ok; lia].
    erewrite bind_Ok.
    2:{ rewrite length_app. simpl.
        replace (length l1 + Datatypes.S (length l2))%nat
          with (length l1 + 1 + length l2)%nat by lia.
        eapply std_move_ok; [done| |done].
        intros k y Hk. apply block_image_lookup.
        by rewrite lookup_app_r, Nat.add_comm, Nat.add_sub by lia. }
    replace (fill (length l1) (l2' ++ [r]) (block_image (l1 ++ x :: l2) cap))
      with (block_image ((l1 ++ l2') ++ [r]) cap).
    2:{ rewrite <- app_assoc. symmetry. apply block_image_fill_tail.
        rewrite length_app. simpl. lia. }
    fold σ1. rewrite (bind_Ok _ _ _ _ _ Hpop).
    destruct R2 as [Hobj2 _ _ _]. destruct σ2 as [o2 h2 a2 d2]. simpl_state.
    rewrite (bind_Ok _ _ _ _ _ (load_ok _ _ _ _ _ _ Hobj2)). simpl.
    apply subscript_ok. lia.
  - intros other Hne. by rewrite Hfo.
  - intros b' Hne. rewrite Hfh by congruence. simpl. by rewrite lookup_insert_ne.
Qed.

End Erase.

(** ** Allocation *)

Section Allocation.
Context {T : Type} `{Element T}.
Implicit Types (h : gmap nat (list (option T))) (o : gmap nat Vector).

Lemma fresh_block h : h !! fresh (dom h) = None.
Proof. apply not_elem_of_dom, is_fresh. Qed.

Lemma ctor_ok o h a (d : list T) n :
  0 < n → n * sizeof_T ≤ PTRDIFF_MAX → n * sizeof_T ≤ a →
  RawMemory.ctor n (State o h a d)
  = Ok {| buffer_ := Ptr (fresh (dom h)) 0; capacity_ := n |}
       (State o (<[fresh (dom h) := replicate (Z.to_nat n) None]> h)
              (a - n * sizeof_T) d).
Proof.
  intros Hn Hmax Ha. pose proof sizeof_T_pos. unfold PTRDIFF_MAX in *.
  unfold RawMemory.ctor, RawMemory.Allocate.
  destruct (Z.eqb_spec n 0); [lia|]. simpl.
  rewrite wrap_small by nia.
  erewrite bind_Ok; [reflexivity|].
  unfold operator_new, PTRDIFF_MAX. simpl.
  destruct (Z.leb_spec (n * sizeof_T) (2 ^ 63 - 1)); [|lia].
  destruct (Z.leb_spec (n * sizeof_T) a); [|lia]. simpl.
  by rewrite Z.div_mul by lia.
Qed.

Lemma ctor_bad_alloc o h a (d : list T) n :
  0 < n → n * sizeof_T < 2 ^ 64 →
  ¬ (n * sizeof_T ≤ PTRDIFF_MAX ∧ n * sizeof_T ≤ a) →
  RawMemory.ctor n (State o h a d) = Throw bad_alloc (State o h a d).
Proof.
  intros Hn Hmax Ha. pose proof sizeof_T_pos. unfold PTRDIFF_MAX in *.
  unfold RawMemory.ctor, RawMemory.Allocate.
  destruct (Z.eqb_spec n 0); [lia|]. simpl.
  rewrite wrap_small by nia.
  apply bind_Throw.
  unfold operator_new, PTRDIFF_MAX. simpl.
  destruct (Z.leb_spec (n * sizeof_T) (2 ^ 63 - 1));
    destruct (Z.leb_spec (n * sizeof_T) a); simpl; try done. lia.
Qed.

Lemma dtor_ok o h a (d : list T) b cap blk :
  h !! b = Some blk →
  RawMemory.dtor {| buffer_ := Ptr b 0; capacity_ := cap |} (State o h a d)
  = Ok tt (State o (delete b h) (a + Z.of_nat (length blk) * sizeof_T) d).
Proof.
  intros Hb. unfold RawMemory.dtor, RawMemory.Deallocate, operator_delete.
  simpl. by rewrite Hb.
Qed.

Lemma dtor_null (σ : state T) cap :
  RawMemory.dtor {| buffer_ := NullPtr; capacity_ := cap |} σ = Ok tt σ.
Proof. done. Qed.

(** The doubled capacity fits in [size_t] and is never zero. *)
Lemma grown_spec cap :
  0 ≤ cap ≤ PTRDIFF_MAX →
  Vector.grown cap = Z.max 1 (2 * cap).
Proof.
  intros Hcap. unfold Vector.grown, PTRDIFF_MAX in *.
  destruct (Z.eqb_spec cap 0) as [->|]; [done|].
  rewrite wrap_small by lia. lia.
Qed.

End Allocation.

(** ** Regular element types *)

Section RegularFacts.
Context {T : Type} `{Regular T}.

Lemma regular_copies (xs : list T) :
  Forall2 (λ x y, copy_construct x = Some y) xs xs.
Proof. induction xs; constructor; [apply regular_copy_construct|done]. Qed.

Lemma regular_moves (xs : list T) :
  ∃ yrs : list (T * T),
    Forall2 (λ x yr, move_construct x = Some yr) xs yrs
    ∧ yrs.*1 = xs ∧ length (yrs.*2) = length xs.
Proof.
  induction xs as [|x xs (yrs & IH & E1 & E2)].
  - exists []. by repeat split.
  - destruct (regular_move_construct x) as [r Hr].
    exists ((x, r) :: yrs). repeat split; simpl; [by constructor|by f_equal..].
Qed.

Lemma regular_shift_onto (x : T) (xs : list T) :
  ∃ r, shift_onto x xs = Some (xs ++ [r]).
Proof.
  revert x. induction xs as [|s xs IH]; intros x.
  - by exists x.
  - destruct (regular_move_assign x s) as [r Hr].
    destruct (IH r) as [r' Hr'].
    exists r'. simpl. rewrite Hr. simpl. by rewrite Hr'.
Qed.

Implicit Types (h : gmap nat (list (option T))) (o : gmap nat Vector).

(** Relocation of a range into another block: the destination holds
    the values, the source still holds objects. *)
Lemma CopyDataRange_ok o h a (d : list T) bs soff sblk bd doff dblk xs :
  bs ≠ bd →
  h !! bs = Some sblk → live_at sblk soff xs →
  h !! bd = Some dblk → (doff + length xs ≤ length dblk)%nat →
  ∃ rs, length rs = length xs ∧
    Vector.CopyDataRange (Ptr bs (Z.of_nat soff)) (Z.of_nat (length xs))
                         (Ptr bd (Z.of_nat doff)) (State o h a d)
    = Ok tt (State o (<[bd := fill doff xs dblk]>
                        (<[bs := fill soff rs sblk]> h)) a d).
Proof.
  intros Hne Hs Hlive Hd Hlen. unfold Vector.CopyDataRange.
  destruct (is_nothrow_move_constructible || negb is_copy_constructible).
  - destruct (regular_moves xs) as (yrs & Hmv & E1 & E2).
    exists (yrs.*2). split; [done|].
    erewrite uninitialized_move_n_ok by done. by rewrite E1.
  - exists xs. split; [done|].
    erewrite uninitialized_copy_n_ok; [|done..|apply regular_copies].
    destruct (live_at_length _ _ _ Hlive) as [?| ->].
    + rewrite (fill_live soff xs sblk) by done. by rewrite (insert_id h bs).
    + rewrite !fill_nil. by rewrite (insert_id h bs).
Qed.

Lemma CopyDataRange_0 (p q : ptr) (σ : state T) :
  Vector.CopyDataRange p 0 q σ = Ok tt σ.
Proof.
  unfold Vector.CopyDataRange.
  by destruct (is_nothrow_move_constructible || negb is_copy_constructible).
Qed.

End RegularFacts.

(** Reduce the accessors of explicit [RawMemory] and [Vector] values. *)
Ltac simpl_vec :=
  cbn [RawMemory.GetAddress RawMemory.Capacity RawMemory.Swap
       buffer_ capacity_ data_ size_ vec fst snd].

(** ** [EmplaceBack] *)

Section EmplaceBack.
Context {T : Type} `{Regular T}.
Implicit Types (h : gmap nat (list (option T))) (o : gmap nat Vector).

Lemma block_image_push (l : list T) x cap :
  Z.of_nat (length l) < cap →
  <[length l := Some x]> (block_image l cap) = block_image (l ++ [x]) cap.
Proof.
  intros Hlt. rewrite <- block_image_pop with (x := x) at 1 by done.
  rewrite list_insert_insert_eq. apply list_insert_id.
  apply block_image_lookup, list_lookup_middle. done.
Qed.

Lemma EmplaceBack_in_place (σ : state T) this b cap l x :
  repr σ this (Ptr b 0) cap l → Z.of_nat (length l) < cap →
  ∃ σ', Vector.EmplaceBack this (Some x) σ = Ok (Ptr b (Z.of_nat (length l))) σ'
        ∧ repr σ' this (Ptr b 0) cap (l ++ [x])
        ∧ avail σ' = avail σ ∧ dtor_log σ' = dtor_log σ.
Proof.
  intros R Hlt.
  pose proof (repr_bounds _ _ _ _ _ R) as (Hlen & Hcap & _).
  destruct (repr_nonempty _ _ _ _ _ R) as (b0 & [= <-] & Hb); [lia|].
  destruct R as [Hobj Hsz Hby _].
  destruct σ as [o h a d]. simpl_state. unfold PTRDIFF_MAX in *.
  eexists. split; [|split].
  - unfold Vector.EmplaceBack.
    rewrite (bind_Ok _ _ _ _ _ (load_ok _ _ _ _ _ _ Hobj)). simpl_vec.
    destruct (Z.eqb_spec (Z.of_nat (length l)) cap); [lia|].
    erewrite bind_Ok.
    2:{ rewrite (bind_Ok _ _ _ _ _ (at_offset_Ptr _ _ _ _)). simpl.
        rewrite ret_bind.
        erewrite bind_Ok; [|eapply construct_at_ok; [done|lia|]].
        2:{ pose proof (block_image_length l cap). lia. }
        by apply put_size_ok. }
    erewrite bind_Ok; [|by apply load_ok, lookup_insert_eq]. simpl_vec.
    rewrite (wrap_small (Z.of_nat (length l) + 1)) by lia.
    rewrite wrap_small by lia.
    replace (Z.of_nat (length l) + 1 - 1) with (Z.of_nat (length l)) by lia.
    apply subscript_ok. lia.
  - split; simpl.
    + rewrite lookup_insert_eq. unfold vec. do 2 f_equal.
      rewrite length_app. simpl. lia.
    + rewrite length_app. simpl. lia.
    + done.
    + split; [done|]. split; [lia|].
      rewrite lookup_insert_eq. f_equal.
      replace (Z.to_nat (0 + Z.of_nat (length l))) with (length l) by lia.
      by apply block_image_push.
  - done.
Qed.

(** The old block of a vector that is full holds objects only. *)
Lemma live_at_full (l rs : list T) cap :
  Z.of_nat (length l) = cap → length rs = length l →
  live_at (fill 0 rs (block_image l cap)) 0 rs.
Proof. intros. apply live_at_fill. lia. Qed.

Lemma EmplaceBack_grow_block (σ : state T) this b cap l x :
  repr σ this (Ptr b 0) cap l → Z.of_nat (length l) = cap →
  2 * cap * sizeof_T ≤ PTRDIFF_MAX → 2 * cap * sizeof_T ≤ avail σ →
  ∃ σ' rs, Vector.EmplaceBack this (Some x) σ
           = Ok (Ptr (fresh (dom (heap σ))) (Z.of_nat (length l))) σ'
        ∧ repr σ' this (Ptr (fresh (dom (heap σ))) 0) (2 * cap) (l ++ [x])
        ∧ avail σ' = avail σ - cap * sizeof_T
        ∧ length rs = length l ∧ dtor_log σ' = rev rs ++ dtor_log σ.
Proof.
  intros R Hfull Hmax Hav.
  pose proof (repr_bounds _ _ _ _ _ R) as (Hlen & Hcap & _).
  pose proof R as [Hobj Hsz Hby (_ & Hpos & Hb)].
  destruct σ as [o h a d]. simpl_state. unfold PTRDIFF_MAX in *.
  set (b' := fresh (dom h)).
  assert (b ≠ b') as Hne.
  { intros ->. pose proof (fresh_block h) as E. fold b' in E. congruence. }
  set (h2 := <[b' := <[length l := Some x]> (replicate (Z.to_nat (2 * cap)) None)]>
               (<[b' := replicate (Z.to_nat (2 * cap)) None]> h)).
  destruct (CopyDataRange_ok o h2 (a - 2 * cap * sizeof_T) d b 0 (block_image l cap)
              b' 0 (<[length l := Some x]> (replicate (Z.to_nat (2 * cap)) None)) l)
    as (rs & Hrs & Hreloc); [done| |apply live_at_block_image| |..].
  { unfold h2. by rewrite !lookup_insert_ne. }
  { unfold h2. by rewrite lookup_insert_eq. }
  { rewrite length_insert, length_replicate. lia. }
  unfold Vector.CopyDataRange in Hreloc. change (Z.of_nat 0) with 0 in Hreloc.
  eexists _, rs. split; [|split; [|split; [|split]]].
  - unfold Vector.EmplaceBack.
    rewrite (bind_Ok _ _ _ _ _ (load_ok _ _ _ _ _ _ Hobj)). simpl_vec.
    destruct (Z.eqb_spec (Z.of_nat (length l)) cap); [|lia].
    rewrite grown_spec by (unfold PTRDIFF_MAX; lia).
    rewrite Z.max_r by lia.
    erewrite bind_Ok.
    2:{ erewrite bind_Ok; [|apply ctor_ok; unfold PTRDIFF_MAX; lia].
        fold b'. simpl_vec.
        erewrite bind_Ok.
        2:{ apply on_throw_Ok.
            rewrite (bind_Ok _ _ _ _ _ (at_offset_Ptr _ _ _ _)). simpl.
            rewrite ret_bind.
            erewrite bind_Ok; [|eapply construct_at_ok; [apply lookup_insert_eq|lia|]].
            2:{ rewrite length_replicate. lia. }
            replace (Z.to_nat (0 + Z.of_nat (length l))) with (length l) by lia.
            fold h2. exact Hreloc. }
        erewrite bind_Ok; [|by apply put_data_ok].
        simpl_vec.
        erewrite bind_Ok.
        2:{ replace cap with (Z.of_nat (length rs)) at 1 by lia.
            apply (destroy_n_ok _ _ _ _ _ 0%nat); [|apply live_at_full; done].
            rewrite lookup_insert_ne by done. apply lookup_insert_eq. }
        erewrite bind_Ok; [|by apply put_size_ok, lookup_insert_eq].
        eapply dtor_ok. apply lookup_insert_eq. }
    erewrite bind_Ok; [|by apply load_ok, lookup_insert_eq]. simpl_vec.
    rewrite (wrap_small (Z.of_nat (length l) + 1)) by lia.
    rewrite wrap_small by lia.
    replace (Z.of_nat (length l) + 1 - 1) with (Z.of_nat (length l)) by lia.
    apply subscript_ok. lia.
  - fold b'. split; simpl.
    + rewrite insert_insert_eq, lookup_insert_eq. unfold vec. do 2 f_equal.
      rewrite length_app. simpl. lia.
    + rewrite length_app. simpl. lia.
    + unfold PTRDIFF_MAX. lia.
    + split; [done|]. split; [lia|].
      rewrite lookup_delete_ne, lookup_insert_ne, lookup_insert_eq by done.
      f_equal.
      pose proof (block_image_insert l [] x (2 * cap)) as E.
      rewrite fill_nil in E. rewrite <- E; [done|]. simpl. lia.
  - simpl.
    assert (length (block_image l cap) = Z.to_nat cap) as Hbl
      by (pose proof (block_image_length l cap); lia).
    rewrite length_clear by (rewrite length_fill; lia).
    rewrite length_fill by lia. lia.
  - done.
  - done.
Qed.

Lemma EmplaceBack_grow_null (σ : state T) this x :
  repr σ this NullPtr 0 [] →
  sizeof_T ≤ PTRDIFF_MAX → sizeof_T ≤ avail σ →
  ∃ σ', Vector.EmplaceBack this (Some x) σ = Ok (Ptr (fresh (dom (heap σ))) 0) σ'
        ∧ repr σ' this (Ptr (fresh (dom (heap σ))) 0) 1 [x]
        ∧ avail σ' = avail σ - sizeof_T
        ∧ dtor_log σ' = dtor_log σ.
Proof.
  intros [Hobj _ _ _] Hmax Hav.
  destruct σ as [o h a d]. simpl_state.
  eexists. split; [|split; [|split]].
  - unfold Vector.EmplaceBack.
    rewrite (bind_Ok _ _ _ _ _ (load_ok _ _ _ _ _ _ Hobj)). simpl_vec. simpl.
    erewrite bind_Ok.
    2:{ change (Vector.grown 0) with 1. erewrite bind_Ok; [|apply ctor_ok; lia]. simpl_vec.
        erewrite bind_Ok.
        2:{ apply on_throw_Ok.
            rewrite (bind_Ok _ _ _ _ _ (at_offset_Ptr _ _ _ _)). simpl.
            rewrite ret_bind.
            erewrite bind_Ok; [|eapply construct_at_ok; [apply lookup_insert_eq|lia|]].
            2:{ simpl. lia. }
            apply (CopyDataRange_0 NullPtr). }
        erewrite bind_Ok; [|by apply put_data_ok].
        simpl_vec. rewrite (bind_Ok _ _ _ _ _ (destroy_n_0 _ _)).
        erewrite bind_Ok; [|by apply put_size_ok, lookup_insert_eq].
        apply dtor_null. }
    erewrite bind_Ok; [|by apply load_ok, lookup_insert_eq]. simpl_vec.
    reflexivity.
  - split; simpl.
    + by rewrite insert_insert_eq, lookup_insert_eq.
    + lia.
    + lia.
    + split; [done|]. split; [lia|].
      by rewrite insert_insert_eq, lookup_insert_eq.
  - simpl. lia.
  - done.
Qed.

Lemma EmplaceBack_bad_alloc (σ : state T) this buf cap l args :
  repr σ this buf cap l → Z.of_nat (length l) = cap →
  ¬ (Z.max 1 (2 * cap) * sizeof_T ≤ PTRDIFF_MAX
     ∧ Z.max 1 (2 * cap) * sizeof_T ≤ avail σ) →
  Vector.EmplaceBack this args σ = Throw bad_alloc σ.
Proof.
  intros R Hfull Hno.
  pose proof (repr_bounds _ _ _ _ _ R) as (Hlen & Hcap & Hby).
  destruct R as [Hobj _ _ _].
  destruct σ as [o h a d]. simpl_state.
  unfold Vector.EmplaceBack.
  rewrite (bind_Ok _ _ _ _ _ (load_ok _ _ _ _ _ _ Hobj)). simpl_vec.
  destruct (Z.eqb_spec (Z.of_nat (length l)) cap); [|lia].
  rewrite grown_spec by lia.
  apply bind_Throw, bind_Throw, ctor_bad_alloc; [lia| |done].
  pose proof sizeof_T_pos. pose proof sizeof_T_max. unfold PTRDIFF_MAX in *.
  destruct (Z.max_spec 1 (2 * cap)) as [[? ->]|[? ->]]; nia.
Qed.

(** [EmplaceBack] in full: the new element is constructed behind the
    others, in place or in a block of doubled capacity, and its
    address is returned; if the larger block cannot be had,
    [std::bad_alloc] leaves the state as it was. *)
Lemma EmplaceBack_spec (σ : state T) this buf cap l x :
  repr σ this buf cap l →
  let cap' := next_capacity cap (Z.of_nat (length l)) in
  if decide (Z.of_nat (length l) < cap
             ∨ (cap' * sizeof_T ≤ PTRDIFF_MAX ∧ cap' * sizeof_T ≤ avail σ))
  then ∃ b' σ', Vector.EmplaceBack this (Some x) σ
                  = Ok (Ptr b' (Z.of_nat (length l))) σ'
                ∧ repr σ' this (Ptr b' 0) cap' (l ++ [x])
                ∧ avail σ' = avail σ - (cap' - cap) * sizeof_T
  else Vector.EmplaceBack this (Some x) σ = Throw bad_alloc σ.
Proof.
  intros R cap'. pose proof (repr_bounds _ _ _ _ _ R) as (Hlen & Hcap & Hby).
  unfold cap', next_capacity.
  destruct (Z.eqb_spec (Z.of_nat (length l)) cap) as [Hfull|Hnot];
    case_decide as Hd.
  - destruct Hd as [?|[Hmax Hav]]; [lia|].
    destruct buf as [|b off].
    + pose proof R as [_ _ _ ->]. destruct l; [|simpl in *; lia].
      rewrite Z.max_l in Hmax, Hav by lia.
      destruct (EmplaceBack_grow_null σ this x R) as (σ' & E & R' & Ha & _); [lia..|].
      exists (fresh (dom (heap σ))), σ'. rewrite Z.max_l by lia.
      split; [done|]. split; [done|]. lia.
    + pose proof R as [_ _ _ (-> & Hpos & _)].
      rewrite Z.max_r in Hmax, Hav |- * by lia.
      destruct (EmplaceBack_grow_block σ this b cap l x R) as (σ' & rs & E & R' & Ha & _);
        [lia..|].
      exists (fresh (dom (heap σ))), σ'.
      split; [done|]. split; [done|]. lia.
  - apply EmplaceBack_bad_alloc with buf cap l; [done..|]. tauto.
  - destruct (repr_nonempty _ _ _ _ _ R) as (b & -> & Hb); [lia|].
    destruct (EmplaceBack_in_place σ this b cap l x R) as (σ' & E & R' & Ha & _); [lia|].
    exists b, σ'. split; [done|]. split; [done|]. lia.
  - lia.
Qed.

End EmplaceBack.

(** ** The doubling sequence *)

Section Doubling.

Lemma capacity_after_S k :
  capacity_after (S k) = next_capacity (capacity_after k) (Z.of_nat k).
Proof.
  unfold next_capacity. destruct k as [|k]; [done|].
  unfold capacity_after. set (n := Z.of_nat (S k)).
  replace (Z.of_nat (S (S k))) with (n + 1) by lia.
  assert (1 ≤ n) as Hn by lia.
  set (e := Z.log2_up n).
  assert (0 ≤ e) as He by apply Z.log2_up_nonneg.
  destruct (Z.eqb_spec n (2 ^ e)) as [E|E].
  - rewrite Z.max_r by lia.
    rewrite <- Z.pow_succ_r by done. f_equal.
    apply Z.log2_up_unique; [lia|].
    rewrite Z.pred_succ, Z.pow_succ_r by done.
    assert (0 < 2 ^ e) by (apply Z.pow_pos_nonneg; lia). lia.
  - assert (1 < n) as Hn1.
    { destruct (decide (n = 1)) as [E1|]; [|lia].
      exfalso. apply E. unfold e. by rewrite E1. }
    pose proof (Z.log2_up_spec n Hn1) as [Hlo Hhi]. fold e in Hlo, Hhi.
    f_equal. apply Z.log2_up_unique; [|lia].
    destruct (decide (e = 0)) as [E0|]; [|lia].
    rewrite E0 in Hhi. simpl in Hhi. lia.
Qed.

Lemma capacity_after_ge k : Z.of_nat k ≤ capacity_after k.
Proof.
  destruct k as [|k]; [done|]. unfold capacity_after.
  set (n := Z.of_nat (S k)).
  destruct (decide (n = 1)) as [->|]; [done|].
  apply Z.log2_up_spec. lia.
Qed.

Lemma capacity_after_mono j k : (j ≤ k)%nat → capacity_after j ≤ capacity_after k.
Proof.
  intros Hjk. destruct j as [|j].
  - pose proof (capacity_after_ge k). simpl. lia.
  - destruct k as [|k]; [lia|]. unfold capacity_after.
    apply Z.pow_le_mono_r; [lia|]. apply Z.log2_up_le_mono. lia.
Qed.

Lemma next_capacity_ge cap len : 0 ≤ cap → cap ≤ next_capacity cap len.
Proof. unfold next_capacity. destruct (len =? cap); lia. Qed.

End Doubling.

(** ** Successive [PushBack]s *)

Section Pushes.
Context {T : Type} `{Regular T}.

Lemma ctor_default_ok (σ : state T) this :
  ∃ σ', Vector.ctor_default this σ = Ok tt σ'
        ∧ repr σ' this NullPtr 0 [] ∧ avail σ' = avail σ.
Proof.
  destruct σ as [o h a d]. eexists. split; [reflexivity|].
  split; [|done].
  split; simpl; [apply lookup_insert_eq|lia|unfold PTRDIFF_MAX; lia|done].
Qed.

Lemma PushBack_spec (σ : state T) this buf cap l x :
  repr σ this buf cap l →
  let cap' := next_capacity cap (Z.of_nat (length l)) in
  if decide (Z.of_nat (length l) < cap
             ∨ (cap' * sizeof_T ≤ PTRDIFF_MAX ∧ cap' * sizeof_T ≤ avail σ))
  then ∃ b' σ', Vector.PushBack this x σ = Ok tt σ'
                ∧ repr σ' this (Ptr b' 0) cap' (l ++ [x])
                ∧ avail σ' = avail σ - (cap' - cap) * sizeof_T
  else Vector.PushBack this x σ = Throw bad_alloc σ.
Proof.
  intros R cap'. pose proof (EmplaceBack_spec σ this buf cap l x R) as E.
  cbv zeta in E. fold cap' in E.
  unfold Vector.PushBack. rewrite regular_copy_construct.
  destruct (decide (Z.of_nat (length l) < cap
                    ∨ (cap' * sizeof_T ≤ PTRDIFF_MAX ∧ cap' * sizeof_T ≤ avail σ))).
  - destruct E as (b' & σ' & E & R' & Ha). exists b', σ'.
    split; [|done]. by rewrite (bind_Ok _ _ _ _ _ E).
  - by apply bind_Throw.
Qed.

(** Whatever the memory left, a run of [PushBack]s either returns
    with the capacity on the doubling sequence, or throws
    [std::bad_alloc]. *)
Lemma push_all_outcome this xs : ∀ (σ : state T) buf l,
  repr σ this buf (capacity_after (length l)) l →
  match push_all this xs σ with
  | Ok _ σ' =>
      ∃ buf', repr σ' this buf' (capacity_after (length (l ++ xs))) (l ++ xs)
  | Throw e _ => e = bad_alloc
  | Fault _ => False
  end.
Proof.
  induction xs as [|x xs IH]; intros σ buf l R.
  - simpl. rewrite app_nil_r. by exists buf.
  - simpl. pose proof (PushBack_spec σ this buf _ l x R) as E. cbv zeta in E.
    destruct (decide _) in E.
    + destruct E as (b' & σ' & E & R' & _).
      rewrite (bind_Ok _ _ _ _ _ E).
      rewrite <- capacity_after_S in R'.
      replace (S (length l)) with (length (l ++ [x])) in R'
        by (rewrite length_app; simpl; lia).
      specialize (IH σ' _ _ R').
      by rewrite <- app_assoc in IH.
    + by rewrite (bind_Throw _ _ _ _ _ E).
Qed.

(** With enough memory, they all return. *)
Lemma push_all_ok this xs : ∀ (σ : state T) buf l,
  repr σ this buf (capacity_after (length l)) l →
  capacity_after (length l + length xs) * sizeof_T ≤ PTRDIFF_MAX →
  2 * capacity_after (length l + length xs) * sizeof_T
    ≤ avail σ + capacity_after (length l) * sizeof_T →
  ∃ σ', push_all this xs σ = Ok tt σ'.
Proof.
  induction xs as [|x xs IH]; intros σ buf l R Hmax Hav.
  - by exists σ.
  - simpl. pose proof (PushBack_spec σ this buf _ l x R) as E. cbv zeta in E.
    rewrite <- capacity_after_S in E.
    pose proof sizeof_T_pos.
    simpl in Hmax, Hav.
    assert (capacity_after (S (length l)) * sizeof_T
            ≤ capacity_after (length l + S (length xs)) * sizeof_T) as M1.
    { apply Z.mul_le_mono_nonneg_r; [lia|]. apply capacity_after_mono. lia. }
    assert (capacity_after (length l) * sizeof_T
            ≤ capacity_after (S (length l)) * sizeof_T) as M2.
    { apply Z.mul_le_mono_nonneg_r; [lia|]. apply capacity_after_mono. lia. }
    destruct (decide _) as [Hd|Hd] in E.
    + destruct E as (b' & σ' & E & R' & Ha).
      rewrite (bind_Ok _ _ _ _ _ E).
      replace (S (length l)) with (length (l ++ [x])) in R'
        by (rewrite length_app; simpl; lia).
      apply (IH σ' _ _ R'); rewrite length_app; simpl;
        replace (length l + 1 + length xs)%nat
          with (length l + S (length xs))%nat by lia; [done|].
      replace (length l + 1)%nat with (S (length l)) by lia. lia.
    + exfalso. apply Hd. right. split; lia.
Qed.

End Pushes.

(** ** [std::move_backward] *)

Section MoveBackward.
Context {T : Type} `{Regular T}.
Implicit Types (h : gmap nat (list (option T))) (blk : list (option T)).
Implicit Types (o : gmap nat Vector).

Lemma repeat_down_S {S} n i (body : Z → M S unit) σ :
  repeat_down (Datatypes.S n) i body σ
  = (body (i - 1) ;; repeat_down n (i - 1) body) σ.
Proof. done. Qed.

Lemma live_at_snoc blk off (xs : list T) z :
  live_at blk off (xs ++ [z]) →
  live_at blk off xs ∧ blk !! (off + length xs)%nat = Some (Some z).
Proof.
  intros L. split.
  - intros k x Hk. apply L. by apply lookup_app_l_Some.
  - apply L. by apply list_lookup_middle.
Qed.

(** The rounds of [std::move_backward]: the values [xs] at [pos] move
    one slot to the right, onto the object behind them; the slot at
    [pos] keeps what the last move left. *)
Lemma move_backward_rounds o a (d : list T) b last pos (xs : list T) :
  ∀ z blk h i,
  h !! b = Some blk → live_at blk pos (xs ++ [z]) →
  last + i = Z.of_nat (pos + length xs) →
  ∃ r, repeat_down (length xs) i (λ i,
         s ← at_offset (Ptr b last) i;
         dst ← at_offset (Ptr b (last + 1)) i;
         move_assign_at dst s) (State o h a d)
       = Ok tt (State o (<[b := fill pos (r :: xs) blk]> h) a d).
Proof.
  induction xs as [|x xs IH] using rev_ind; intros z blk h i Hb Hlive Hi.
  - exists z. simpl. rewrite fill_live; [by rewrite insert_id|done|].
    pose proof (Hlive 0%nat z eq_refl) as E. apply lookup_lt_Some in E.
    simpl. lia.
  - apply live_at_snoc in Hlive as [Hlive Hz].
    pose proof (live_at_snoc _ _ _ _ Hlive) as [Hlive' Hx].
    rewrite length_app in Hz, Hi |- *. simpl in Hz, Hi |- *.
    rewrite Nat.add_1_r, repeat_down_S.
    destruct (regular_move_assign z x) as [r Hr].
    pose proof (lookup_lt_Some _ _ _ Hz) as Hlt.
    set (j := (pos + length xs)%nat) in *.
    set (blk1 := <[Datatypes.S j := Some x]> (<[j := Some r]> blk)).
    destruct (IH r blk1 (<[b := blk1]> h) (i - 1)) as [r' E];
      [apply lookup_insert_eq| |lia|].
    { intros k y Hk. unfold blk1.
      assert (k ≤ length xs)%nat.
      { apply lookup_lt_Some in Hk. rewrite length_app in Hk. simpl in Hk. lia. }
      rewrite list_lookup_insert_ne by lia.
      destruct (decide (k = length xs)) as [->|].
      - rewrite list_lookup_insert_eq by lia.
        rewrite list_lookup_middle in Hk by done. by simplify_eq.
      - rewrite list_lookup_insert_ne by lia. apply Hlive'.
        rewrite lookup_app_l in Hk by lia. done. }
    exists r'.
    erewrite bind_Ok.
    2:{ cbv beta.
        rewrite (bind_Ok _ _ _ _ _ (at_offset_Ptr _ _ _ _)).
        rewrite (bind_Ok _ _ _ _ _ (at_offset_Ptr _ _ _ _)).
        replace (last + (i - 1)) with (Z.of_nat j) by lia.
        replace (last + 1 + (i - 1)) with (Z.of_nat (Datatypes.S j)) by lia.
        eapply move_assign_at_ok; [done|lia|done| |done].
        by replace (Datatypes.S j) with (pos + (length xs + 1))%nat by lia. }
    fold blk1. rewrite E, insert_insert_eq. do 3 f_equal.
    unfold blk1.
    rewrite fill_insert_outside.
    2:{ right. simpl. lia. }
    2:{ rewrite length_insert. simpl. lia. }
    rewrite fill_insert_inside by (simpl; lia).
    replace (Datatypes.S j) with (pos + length (r' :: xs))%nat by (simpl; lia).
    rewrite fill_snoc by (simpl; lia). done.
Qed.

Lemma std_move_backward_ok o h a (d : list T) b blk pos (xs : list T) z :
  h !! b = Some blk → live_at blk pos (xs ++ [z]) →
  ∃ r, std_move_backward (Ptr b (Z.of_nat pos)) (Ptr b (Z.of_nat (pos + length xs)))
                         (Ptr b (Z.of_nat (pos + length xs) + 1)) (State o h a d)
       = Ok tt (State o (<[b := fill pos (r :: xs) blk]> h) a d).
Proof.
  intros Hb Hlive.
  destruct (move_backward_rounds o a d b (Z.of_nat (pos + length xs)) pos xs
              z blk h 0 Hb Hlive) as [r E]; [lia|].
  exists r. unfold std_move_backward.
  erewrite bind_Ok; [|apply range_length_ok; lia].
  replace (Z.to_nat (Z.of_nat (pos + length xs) - Z.of_nat pos))
    with (length xs) by lia.
  exact E.
Qed.

End MoveBackward.

(** ** [Emplace] *)

Section Emplace.
Context {T : Type} `{Regular T}.
Implicit Types (h : gmap nat (list (option T))) (o : gmap nat Vector).

(** Insertion before an element, the capacity sufficing. *)
Lemma Emplace_interior (σ : state T) this b cap l1 mid z x :
  repr σ this (Ptr b 0) cap (l1 ++ mid ++ [z]) →
  Z.of_nat (length (l1 ++ mid ++ [z])) < cap →
  ∃ σ', Vector.Emplace this (Ptr b (Z.of_nat (length l1))) (Some x) σ
          = Ok (Ptr b (Z.of_nat (length l1))) σ'
        ∧ repr σ' this (Ptr b 0) cap (l1 ++ x :: mid ++ [z])
        ∧ avail σ' = avail σ.
Proof.
  intros R Hlt.
  pose proof (repr_bounds _ _ _ _ _ R) as (Hlen & Hcap & _).
  pose proof R as [Hobj Hsz Hby (_ & Hpos & Hb)].
  destruct σ as [o h a d]. simpl_state. unfold PTRDIFF_MAX in *.
  set (l := l1 ++ mid ++ [z]) in *.
  set (n := length l) in *.
  assert (n = length l1 + length mid + 1)%nat as Hn.
  { unfold n, l. rewrite !length_app. simpl. lia. }
  assert (length (block_image l cap) = Z.to_nat cap) as Hbl.
  { pose proof (block_image_length l cap). lia. }
  assert (block_image l cap !! (n - 1)%nat = Some (Some z)) as Hz.
  { apply block_image_lookup. unfold l. rewrite app_assoc.
    apply list_lookup_middle. rewrite length_app. lia. }
  destruct (regular_move_construct z) as [r0 Hr0].
  set (B1 := <[n := Some z]> (<[(n - 1)%nat := Some r0]> (block_image l cap))).
  assert (live_at B1 (length l1) (mid ++ [r0])) as Hlive.
  { intros k y Hk. unfold B1.
    assert (k ≤ length mid)%nat.
    { apply lookup_lt_Some in Hk. rewrite length_app in Hk. simpl in Hk. lia. }
    rewrite list_lookup_insert_ne by lia.
    destruct (decide (k = length mid)) as [->|].
    - rewrite list_lookup_middle in Hk by done.
      assert (y = r0) as -> by congruence.
      replace (length l1 + length mid)%nat with (n - 1)%nat by lia.
      apply list_lookup_insert_eq. lia.
    - rewrite list_lookup_insert_ne by lia. apply block_image_lookup.
      unfold l. rewrite lookup_app_r, Nat.add_comm, Nat.add_sub by lia.
      rewrite lookup_app_l in Hk |- * by lia. done. }
  destruct (std_move_backward_ok o (<[b := B1]> h) a d b B1 (length l1) mid r0)
    as [r E]; [apply lookup_insert_eq|done|].
  destruct (regular_move_assign r x) as [r' Hr'].
  eexists. split; [|split].
  - unfold Vector.Emplace.
    rewrite (bind_Ok _ _ _ _ _ (begin_ok _ _ _ _ _ _ Hobj)). simpl.
    destruct (decide (b = b)); [|done]. simpl. rewrite ret_bind.
    rewrite (bind_Ok _ _ _ _ _ (load_ok _ _ _ _ _ _ Hobj)). simpl_vec.
    rewrite Z.sub_0_r, (wrap_small (Z.of_nat (length l1))) by lia.
    destruct (Z.eqb_spec (Z.of_nat n) cap); [lia|].
    erewrite bind_Ok.
    2:{ erewrite bind_Ok; [|eapply end_ok; [done|lia]].
        destruct (decide (Ptr b (Z.of_nat (length l1)) = Ptr b (Z.of_nat n)))
          as [[=]|_]; [lia|].
        erewrite bind_Ok; [|eapply end_ok; [done|lia]].
        erewrite bind_Ok; [|eapply end_ok; [done|lia]].
        rewrite (bind_Ok _ _ _ _ _ (at_offset_Ptr _ _ _ _)).
        erewrite bind_Ok; [|eapply read_at_ok; [done|lia|]].
        2:{ replace (Z.to_nat (Z.of_nat n + -1)) with (n - 1)%nat by lia. done. }
        rewrite Hr0. simpl. rewrite ret_bind.
        erewrite bind_Ok; [|eapply write_at_ok; [done|lia|]].
        2:{ replace (Z.to_nat (Z.of_nat n + -1)) with (n - 1)%nat by lia. done. }
        erewrite bind_Ok; [|eapply construct_at_ok; [apply lookup_insert_eq|lia|]].
        2:{ rewrite length_insert. lia. }
        rewrite insert_insert_eq.
        replace (Z.to_nat (Z.of_nat n + -1)) with (n - 1)%nat by lia.
        rewrite Nat2Z.id. fold B1.
        erewrite bind_Ok; [|apply subscript_ok; lia].
        erewrite bind_Ok; [|eapply end_ok; [done|lia]].
        rewrite (bind_Ok _ _ _ _ _ (at_offset_Ptr _ _ _ _)).
        erewrite bind_Ok; [|eapply end_ok; [done|lia]].
        erewrite bind_Ok.
        2:{ replace (Z.of_nat n + -1) with (Z.of_nat (length l1 + length mid)) by lia.
            replace (Z.of_nat n) with (Z.of_nat (length l1 + length mid) + 1) by lia.
            exact E. }
        rewrite insert_insert_eq. simpl. rewrite ret_bind.
        erewrite bind_Ok; [|apply subscript_ok; lia].
        erewrite bind_Ok; [|eapply read_at_ok; [apply lookup_insert_eq|lia|]].
        2:{ rewrite Nat2Z.id.
            replace (length l1) with (length l1 + 0)%nat at 1 by lia.
            rewrite lookup_fill_mid; [done| |simpl; lia].
            unfold B1. rewrite !length_insert. lia. }
        rewrite Hr'. simpl. rewrite ret_bind.
        erewrite bind_Ok; [|eapply write_at_ok; [apply lookup_insert_eq|lia|]].
        2:{ rewrite Nat2Z.id.
            replace (length l1) with (length l1 + 0)%nat at 1 by lia.
            rewrite lookup_fill_mid; [done| |simpl; lia].
            unfold B1. rewrite !length_insert. lia. }
        reflexivity. }
    erewrite bind_Ok; [|by apply load_ok]. simpl_vec.
    erewrite bind_Ok; [|by apply put_size_ok].
    erewrite bind_Ok; [|by apply load_ok, lookup_insert_eq]. simpl_vec.
    apply subscript_ok. lia.
  - split; simpl.
    + rewrite lookup_insert_eq. unfold vec. do 2 f_equal.
      rewrite wrap_small by lia.
      rewrite !length_app. simpl. rewrite length_app. simpl. lia.
    + rewrite !length_app. simpl. rewrite length_app. simpl. lia.
    + done.
    + split; [done|]. split; [lia|].
      rewrite insert_insert_eq, lookup_insert_eq. f_equal.
      rewrite Nat2Z.id. unfold B1. rewrite Hn.
      apply block_image_shift_insert. lia.
  - done.
Qed.

(** Insertion at the end, the capacity sufficing. *)
Lemma Emplace_at_end (σ : state T) this b cap l x :
  repr σ this (Ptr b 0) cap l → Z.of_nat (length l) < cap →
  ∃ σ', Vector.Emplace this (Ptr b (Z.of_nat (length l))) (Some x) σ
          = Ok (Ptr b (Z.of_nat (length l))) σ'
        ∧ repr σ' this (Ptr b 0) cap (l ++ [x])
        ∧ avail σ' = avail σ.
Proof.
  intros R Hlt.
  pose proof (repr_bounds _ _ _ _ _ R) as (Hlen & Hcap & _).
  pose proof R as [Hobj Hsz Hby (_ & Hpos & Hb)].
  destruct σ as [o h a d]. simpl_state. unfold PTRDIFF_MAX in *.
  eexists. split; [|split].
  - unfold Vector.Emplace.
    rewrite (bind_Ok _ _ _ _ _ (begin_ok _ _ _ _ _ _ Hobj)). simpl.
    destruct (decide (b = b)); [|done]. simpl. rewrite ret_bind.
    rewrite (bind_Ok _ _ _ _ _ (load_ok _ _ _ _ _ _ Hobj)). simpl_vec.
    rewrite Z.sub_0_r, (wrap_small (Z.of_nat (length l))) by lia.
    destruct (Z.eqb_spec (Z.of_nat (length l)) cap); [lia|].
    erewrite bind_Ok.
    2:{ erewrite bind_Ok; [|eapply end_ok; [done|lia]].
        destruct (decide (Ptr b (Z.of_nat (length l)) = Ptr b (Z.of_nat (length l))));
          [|done].
        erewrite bind_Ok; [|eapply end_ok; [done|lia]].
        simpl. rewrite ret_bind.
        eapply construct_at_ok; [done|lia|].
        pose proof (block_image_length l cap). lia. }
    erewrite bind_Ok; [|by apply load_ok]. simpl_vec.
    erewrite bind_Ok; [|by apply put_size_ok].
    erewrite bind_Ok; [|by apply load_ok, lookup_insert_eq]. simpl_vec.
    apply subscript_ok. lia.
  - split; simpl.
    + rewrite lookup_insert_eq. unfold vec. do 2 f_equal.
      rewrite wrap_small by lia. rewrite length_app. simpl. lia.
    + rewrite length_app. simpl. lia.
    + done.
    + split; [done|]. split; [lia|].
      rewrite lookup_insert_eq, Nat2Z.id. f_equal.
      by apply block_image_push.
  - done.
Qed.

(** Insertion into a full vector that has a block. *)
Lemma Emplace_grow_block (σ : state T) this b cap l1 l2 x :
  repr σ this (Ptr b 0) cap (l1 ++ l2) → Z.of_nat (length (l1 ++ l2)) = cap →
  2 * cap * sizeof_T ≤ PTRDIFF_MAX → 2 * cap * sizeof_T ≤ avail σ →
  ∃ σ', Vector.Emplace this (Ptr b (Z.of_nat (length l1))) (Some x) σ
          = Ok (Ptr (fresh (dom (heap σ))) (Z.of_nat (length l1))) σ'
        ∧ repr σ' this (Ptr (fresh (dom (heap σ))) 0) (2 * cap) (l1 ++ x :: l2)
        ∧ avail σ' = avail σ - cap * sizeof_T.
Proof.
  intros R Hfull Hmax Hav.
  pose proof (repr_bounds _ _ _ _ _ R) as (Hlen & Hcap & _).
  pose proof R as [Hobj Hsz Hby (_ & Hpos & Hb)].
  destruct σ as [o h a d]. simpl_state. unfold PTRDIFF_MAX in *.
  rewrite length_app in Hfull, Hlen, Hobj.
  set (l := l1 ++ l2) in *.
  set (b' := fresh (dom h)).
  assert (b ≠ b') as Hne.
  { intros ->. pose proof (fresh_block h) as E. fold b' in E. congruence. }
  assert (length (block_image l cap) = Z.to_nat cap) as Hbl.
  { pose proof (block_image_length l cap) as E. unfold l in *.
    rewrite length_app in E. lia. }
  set (D0 := <[length l1 := Some x]> (replicate (Z.to_nat (2 * cap)) (@None T))).
  set (h2 := <[b' := D0]> (<[b' := replicate (Z.to_nat (2 * cap)) None]> h)).
  (* the elements before the position *)
  destruct (CopyDataRange_ok o h2 (a - 2 * cap * sizeof_T) d b 0 (block_image l cap)
              b' 0 D0 l1) as (rs1 & Hrs1 & E1); [done| | | |..].
  { unfold h2. by rewrite !lookup_insert_ne. }
  { intros k y Hk. apply block_image_lookup. by apply lookup_app_l_Some. }
  { unfold h2. by rewrite lookup_insert_eq. }
  { unfold D0. rewrite length_insert, length_replicate. lia. }
  change (Z.of_nat 0) with 0 in E1.
  set (S1 := fill 0 rs1 (block_image l cap)) in *.
  set (D1 := fill 0 l1 D0) in *.
  set (h3 := <[b' := D1]> (<[b := S1]> h2)) in *.
  (* the elements from the position on *)
  destruct (CopyDataRange_ok o h3 (a - 2 * cap * sizeof_T) d b (length l1) S1
              b' (length l1 + 1) D1 l2) as (rs2 & Hrs2 & E2); [done| | | |..].
  { unfold h3. rewrite lookup_insert_ne by done. apply lookup_insert_eq. }
  { intros k y Hk. unfold S1.
    rewrite lookup_fill_ge by lia. apply block_image_lookup.
    unfold l. by rewrite lookup_app_r, Nat.add_comm, Nat.add_sub by lia. }
  { unfold h3. apply lookup_insert_eq. }
  { unfold D1, D0. rewrite length_fill; rewrite length_insert, length_replicate; lia. }
  set (S2 := fill (length l1) rs2 S1) in *.
  assert (live_at S2 0 (rs1 ++ rs2)) as Hold.
  { unfold S2, S1. rewrite <- Hrs1.
    rewrite <- (fill_app 0 rs1 rs2) by lia. apply live_at_fill. lia. }
  eexists. split; [|split].
  - unfold Vector.Emplace.
    rewrite (bind_Ok _ _ _ _ _ (begin_ok _ _ _ _ _ _ Hobj)). simpl.
    destruct (decide (b = b)); [|done]. simpl. rewrite ret_bind.
    rewrite (bind_Ok _ _ _ _ _ (load_ok _ _ _ _ _ _ Hobj)). simpl_vec.
    rewrite Z.sub_0_r, (wrap_small (Z.of_nat (length l1))) by lia.
    destruct (Z.eqb_spec (Z.of_nat (length l1 + length l2)) cap); [|lia].
    rewrite grown_spec by (unfold PTRDIFF_MAX; lia).
    rewrite Z.max_r by lia.
    erewrite bind_Ok.
    2:{ erewrite bind_Ok; [|apply ctor_ok; unfold PTRDIFF_MAX; lia].
        fold b'. simpl_vec.
        erewrite bind_Ok.
        2:{ apply on_throw_Ok.
            rewrite (bind_Ok _ _ _ _ _ (at_offset_Ptr _ _ _ _)). simpl.
            rewrite ret_bind.
            erewrite bind_Ok; [|eapply construct_at_ok; [apply lookup_insert_eq|lia|]].
            2:{ rewrite length_replicate. lia. }
            replace (Z.to_nat (0 + Z.of_nat (length l1))) with (length l1) by lia.
            fold D0 h2.
            rewrite (bind_Ok _ _ _ _ _ E1).
            rewrite (bind_Ok _ _ _ _ _ (at_offset_Ptr _ _ _ _)).
            rewrite (bind_Ok _ _ _ _ _ (at_offset_Ptr _ _ _ _)).
            rewrite (bind_Ok _ _ _ _ _ (at_offset_Ptr _ _ _ _)).
            rewrite wrap_small by lia.
            replace (0 + Z.of_nat (length l1)) with (Z.of_nat (length l1)) by lia.
            replace (Z.of_nat (length l1) + 1) with (Z.of_nat (length l1 + 1)) by lia.
            replace (Z.of_nat (length l1 + length l2) - Z.of_nat (length l1))
              with (Z.of_nat (length l2)) by lia.
            exact E2. }
        erewrite bind_Ok; [|by apply put_data_ok].
        simpl_vec.
        erewrite bind_Ok.
        2:{ replace cap with (Z.of_nat (length (rs1 ++ rs2))) at 1
              by (rewrite length_app; lia).
            apply (destroy_n_ok _ _ _ _ _ 0%nat); [|done].
            rewrite lookup_insert_ne by done. apply lookup_insert_eq. }
        eapply dtor_ok. apply lookup_insert_eq. }
    erewrite bind_Ok; [|by apply load_ok, lookup_insert_eq]. simpl_vec.
    erewrite bind_Ok; [|by apply put_size_ok, lookup_insert_eq].
    erewrite bind_Ok; [|by apply load_ok, lookup_insert_eq]. simpl_vec.
    apply subscript_ok. lia.
  - fold b'. split; simpl.
    + rewrite insert_insert_eq, lookup_insert_eq. unfold vec. do 2 f_equal.
      rewrite wrap_small by lia. rewrite length_app. simpl. lia.
    + rewrite length_app. simpl. lia.
    + unfold PTRDIFF_MAX. lia.
    + split; [done|]. split; [lia|].
      rewrite lookup_delete_ne, lookup_insert_ne, lookup_insert_eq by done.
      f_equal. unfold D1, D0. apply block_image_insert. lia.
  - simpl.
    rewrite length_clear; unfold S2, S1;
      rewrite !length_fill; rewrite ?length_fill; rewrite ?length_app; lia.
Qed.

(** Insertion into a vector that has no block yet. *)
Lemma Emplace_grow_null (σ : state T) this x :
  repr σ this NullPtr 0 [] → sizeof_T ≤ avail σ →
  ∃ σ', Vector.Emplace this NullPtr (Some x) σ
          = Ok (Ptr (fresh (dom (heap σ))) 0) σ'
        ∧ repr σ' this (Ptr (fresh (dom (heap σ))) 0) 1 [x]
        ∧ avail σ' = avail σ - sizeof_T.
Proof.
  intros [Hobj _ _ _] Hav. pose proof sizeof_T_max.
  destruct σ as [o h a d]. simpl_state.
  eexists. split; [|split].
  - unfold Vector.Emplace.
    rewrite (bind_Ok _ _ _ _ _ (begin_ok _ _ _ _ _ _ Hobj)). simpl.
    rewrite ret_bind.
    rewrite (bind_Ok _ _ _ _ _ (load_ok _ _ _ _ _ _ Hobj)). simpl_vec. simpl.
    change (Vector.grown 0) with 1. change (wrap 0) with 0.
    erewrite bind_Ok.
    2:{ erewrite bind_Ok; [|apply ctor_ok; lia]. simpl_vec.
        erewrite bind_Ok.
        2:{ apply on_throw_Ok.
            rewrite (bind_Ok _ _ _ _ _ (at_offset_Ptr _ _ _ _)). simpl.
            rewrite ret_bind.
            erewrite bind_Ok; [|eapply construct_at_ok; [apply lookup_insert_eq|lia|]].
            2:{ simpl. lia. }
            rewrite (bind_Ok _ _ _ _ _ (CopyDataRange_0 _ _ _)).
            rewrite (bind_Ok _ _ _ _ _ (at_offset_null _)).
            rewrite (bind_Ok _ _ _ _ _ (at_offset_Ptr _ _ _ _)).
            rewrite (bind_Ok _ _ _ _ _ (at_offset_Ptr _ _ _ _)).
            change (wrap (Z.of_nat 0 - 0)) with 0.
            apply CopyDataRange_0. }
        erewrite bind_Ok; [|by apply put_data_ok].
        simpl_vec. rewrite (bind_Ok _ _ _ _ _ (destroy_n_0 _ _)).
        apply dtor_null. }
    erewrite bind_Ok; [|by apply load_ok, lookup_insert_eq]. simpl_vec.
    erewrite bind_Ok; [|by apply put_size_ok, lookup_insert_eq].
    erewrite bind_Ok; [|by apply load_ok, lookup_insert_eq]. simpl_vec.
    reflexivity.
  - split; simpl.
    + by rewrite !insert_insert_eq, lookup_insert_eq.
    + lia.
    + lia.
    + split; [done|]. split; [lia|].
      by rewrite insert_insert_eq, lookup_insert_eq.
  - simpl. lia.
Qed.

Lemma Emplace_bad_alloc (σ : state T) this buf cap l i args :
  repr σ this buf cap l → Z.of_nat (length l) = cap →
  ¬ (Z.max 1 (2 * cap) * sizeof_T ≤ PTRDIFF_MAX
     ∧ Z.max 1 (2 * cap) * sizeof_T ≤ avail σ) →
  Vector.Emplace this (position buf i) args σ = Throw bad_alloc σ.
Proof.
  intros R Hfull Hno.
  pose proof (repr_bounds _ _ _ _ _ R) as (Hlen & Hcap & Hby).
  pose proof R as [Hobj _ _ Hblk].
  destruct σ as [o h a d]. simpl_state.
  unfold Vector.Emplace.
  rewrite (bind_Ok _ _ _ _ _ (begin_ok _ _ _ _ _ _ Hobj)). simpl_vec.
  assert (∃ n, ptr_diff (position buf i) buf = Some n) as [n ->].
  { destruct buf as [|b off]; simpl; [by eexists|].
    destruct (decide (b = b)); [by eexists|done]. }
  simpl. rewrite ret_bind.
  rewrite (bind_Ok _ _ _ _ _ (load_ok _ _ _ _ _ _ Hobj)). simpl_vec.
  destruct (Z.eqb_spec (Z.of_nat (length l)) cap); [|lia].
  rewrite grown_spec by lia.
  apply bind_Throw, bind_Throw, ctor_bad_alloc; [lia| |done].
  pose proof sizeof_T_pos. pose proof sizeof_T_max. unfold PTRDIFF_MAX in *.
  destruct (Z.max_spec 1 (2 * cap)) as [[? ->]|[? ->]]; nia.
Qed.

(** [Emplace] in full: the new element is inserted before position
    [length l1], in place or in a block of doubled capacity; the
    result is its address.  If the larger block cannot be had,
    [std::bad_alloc] leaves the state as it was. *)
Lemma Emplace_spec (σ : state T) this buf cap l1 l2 x :
  repr σ this buf cap (l1 ++ l2) →
  let len := Z.of_nat (length (l1 ++ l2)) in
  let cap' := next_capacity cap len in
  if decide (len < cap ∨ (cap' * sizeof_T ≤ PTRDIFF_MAX ∧ cap' * sizeof_T ≤ avail σ))
  then ∃ b' σ', Vector.Emplace this (position buf (Z.of_nat (length l1))) (Some x) σ
                  = Ok (Ptr b' (Z.of_nat (length l1))) σ'
                ∧ repr σ' this (Ptr b' 0) cap' (l1 ++ x :: l2)
                ∧ avail σ' = avail σ - (cap' - cap) * sizeof_T
  else Vector.Emplace this (position buf (Z.of_nat (length l1))) (Some x) σ
       = Throw bad_alloc σ.
Proof.
  intros R len cap'. pose proof (repr_bounds _ _ _ _ _ R) as (Hlen & Hcap & Hby).
  subst len cap'. unfold next_capacity.
  destruct (Z.eqb_spec (Z.of_nat (length (l1 ++ l2))) cap) as [Hfull|Hnot];
    destruct (decide _) as [Hd|Hd].
  - destruct Hd as [?|[Hmax Hav]]; [lia|].
    destruct buf as [|b off].
    + pose proof R as [_ _ _ ->].
      destruct l1; [|simpl in *; lia]. destruct l2; [|simpl in *; lia].
      rewrite Z.max_l in Hmax, Hav by lia.
      destruct (Emplace_grow_null σ this x R) as (σ' & E & R' & Ha); [lia|].
      exists (fresh (dom (heap σ))), σ'. rewrite Z.max_l by lia.
      split; [done|]. split; [done|]. lia.
    + pose proof R as [_ _ _ (-> & Hpos & _)].
      rewrite Z.max_r in Hmax, Hav |- * by lia.
      destruct (Emplace_grow_block σ this b cap l1 l2 x R) as (σ' & E & R' & Ha);
        [done|lia..|].
      exists (fresh (dom (heap σ))), σ'. simpl.
      split; [done|]. split; [done|]. lia.
  - apply Emplace_bad_alloc with cap (l1 ++ l2); [done..|]. tauto.
  - destruct (repr_nonempty _ _ _ _ _ R) as (b & -> & Hb); [lia|].
    simpl. destruct l2 as [|y l2 _] using rev_ind.
    + rewrite app_nil_r in *.
      destruct (Emplace_at_end σ this b cap l1 x R) as (σ' & E & R' & Ha); [lia|].
      exists b, σ'. split; [done|]. split; [done|]. lia.
    + destruct (Emplace_interior σ this b cap l1 l2 y x R) as (σ' & E & R' & Ha);
        [lia|].
      exists b, σ'. split; [done|]. split; [done|]. lia.
  - lia.
Qed.

End Emplace.

(** ** Copy construction and [Swap] *)

Section Copying.
Context {T : Type} `{Element T}.
Implicit Types (h : gmap nat (list (option T))) (o : gmap nat Vector).
Implicit Types (l lr xs ys : list T).

(** Copying a list element by element either succeeds throughout or
    fails at a first element. *)
Lemma copy_cases xs :
  (∃ ys, Forall2 (λ x y, copy_construct x = Some y) xs ys)
  ∨ (∃ k x ys, xs !! k = Some x ∧ copy_construct x = None
               ∧ Forall2 (λ x y, copy_construct x = Some y) (take k xs) ys).
Proof.
  induction xs as [|x xs IH].
  - left. by exists [].
  - destruct (copy_construct x) as [y|] eqn:Ex.
    + destruct IH as [[ys Hys]|(k & x' & ys & Hk & Hx' & Hys)].
      * left. exists (y :: ys). by constructor.
      * right. exists (S k), x', (y :: ys). repeat split; [done..|].
        simpl. by constructor.
    + right. exists 0%nat, x, []. repeat split; [done..|]. constructor.
Qed.

Lemma fill_replicate ys n :
  length ys = n →
  fill 0 ys (replicate n None) = block_image ys (Z.of_nat n).
Proof.
  intros <-. rewrite block_image_fill by lia. by rewrite Nat2Z.id.
Qed.

Lemma ctor_copy_ok o h a (d : list T) c rhs br capr lr ys :
  o !! rhs = Some (vec (Ptr br 0) capr (Z.of_nat (length lr))) →
  h !! br = Some (block_image lr capr) →
  (0 < length lr)%nat →
  Z.of_nat (length lr) * sizeof_T ≤ PTRDIFF_MAX →
  Z.of_nat (length lr) * sizeof_T ≤ a →
  Forall2 (λ x y, copy_construct x = Some y) lr ys →
  Vector.ctor_copy c rhs (State o h a d)
  = Ok tt (State (<[c := vec (Ptr (fresh (dom h)) 0) (Z.of_nat (length lr))
                             (Z.of_nat (length lr))]> o)
                 (<[fresh (dom h) := block_image ys (Z.of_nat (length lr))]> h)
                 (a - Z.of_nat (length lr) * sizeof_T) d).
Proof.
  intros Hrhs Hbr Hpos Hmax Hav Hcopy.
  pose proof (Forall2_length _ _ _ Hcopy) as Hlen.
  set (b' := fresh (dom h)).
  assert (br ≠ b') as Hne.
  { intros ->. pose proof (fresh_block h) as E. fold b' in E. congruence. }
  unfold Vector.ctor_copy.
  rewrite (bind_Ok _ _ _ _ _ (load_ok _ _ _ _ _ _ Hrhs)). simpl_vec.
  erewrite bind_Ok; [|apply ctor_ok; lia]. fold b'. simpl_vec.
  erewrite bind_Ok.
  2:{ apply on_throw_Ok.
      eapply (uninitialized_copy_n_ok _ _ _ _ br 0%nat _ b' 0%nat); [done| | | | |done].
      - by rewrite lookup_insert_ne.
      - apply live_at_block_image.
      - apply lookup_insert_eq.
      - rewrite length_replicate. lia. }
  unfold Vector.store, set_objs. simpl.
  rewrite insert_insert_eq, Nat2Z.id, fill_replicate by lia. done.
Qed.

Lemma ctor_copy_throw o h a (d : list T) c rhs br capr lr ys k x :
  o !! rhs = Some (vec (Ptr br 0) capr (Z.of_nat (length lr))) →
  h !! br = Some (block_image lr capr) →
  Z.of_nat (length lr) * sizeof_T ≤ PTRDIFF_MAX →
  Z.of_nat (length lr) * sizeof_T ≤ a →
  lr !! k = Some x → copy_construct x = None →
  Forall2 (λ x y, copy_construct x = Some y) (take k lr) ys →
  Vector.ctor_copy c rhs (State o h a d)
  = Throw element_exception (State o h a (rev ys ++ d)).
Proof.
  intros Hrhs Hbr Hmax Hav Hk Hx Hcopy.
  pose proof (lookup_lt_Some _ _ _ Hk) as Hpos.
  set (b' := fresh (dom h)).
  assert (br ≠ b') as Hne.
  { intros ->. pose proof (fresh_block h) as E. fold b' in E. congruence. }
  unfold Vector.ctor_copy.
  rewrite (bind_Ok _ _ _ _ _ (load_ok _ _ _ _ _ _ Hrhs)). simpl_vec.
  erewrite bind_Ok; [|apply ctor_ok; lia]. fold b'. simpl_vec.
  apply bind_Throw. eapply on_throw_Throw.
  { eapply (uninitialized_copy_n_throw _ _ _ _ br 0%nat _ b' 0%nat _ lr ys k x);
      [done| | | | | |done..].
    - by rewrite lookup_insert_ne.
    - apply live_at_block_image.
    - apply lookup_insert_eq.
    - rewrite length_replicate. lia.
    - intros j Hj. apply lookup_replicate_2. lia. }
  erewrite dtor_ok; [|apply lookup_insert_eq].
  rewrite delete_insert_id by apply fresh_block.
  rewrite length_replicate. do 2 f_equal. lia.
Qed.

Lemma ctor_copy_bad_alloc o h a (d : list T) c rhs bufr capr n :
  o !! rhs = Some (vec bufr capr n) →
  0 < n → n * sizeof_T ≤ PTRDIFF_MAX → ¬ n * sizeof_T ≤ a →
  Vector.ctor_copy c rhs (State o h a d) = Throw bad_alloc (State o h a d).
Proof.
  intros Hrhs Hpos Hmax Hav. unfold Vector.ctor_copy, PTRDIFF_MAX in *.
  rewrite (bind_Ok _ _ _ _ _ (load_ok _ _ _ _ _ _ Hrhs)). simpl_vec.
  apply bind_Throw, ctor_bad_alloc; [done|lia|unfold PTRDIFF_MAX; lia].
Qed.

Lemma Swap_ok o h a (d : list T) this other v w :
  this ≠ other → o !! this = Some v → o !! other = Some w →
  Vector.Swap this other (State o h a d)
  = Ok tt (State (<[other := v]> (<[this := w]> o)) h a d).
Proof.
  intros Hne Hv Hw. destruct v as [[bv cv] nv], w as [[bw cw] nw].
  unfold Vector.Swap.
  rewrite (bind_Ok _ _ _ _ _ (load_ok _ _ _ _ _ _ Hv)).
  rewrite (bind_Ok _ _ _ _ _ (load_ok _ _ _ _ _ _ Hw)).
  simpl_vec.
  erewrite bind_Ok; [|by apply put_data_ok].
  erewrite bind_Ok; [|apply put_data_ok; by rewrite lookup_insert_ne].
  simpl_vec.
  erewrite bind_Ok.
  2:{ apply load_ok. rewrite lookup_insert_ne by done. apply lookup_insert_eq. }
  erewrite bind_Ok; [|apply load_ok, lookup_insert_eq].
  erewrite bind_Ok.
  2:{ apply put_size_ok. rewrite lookup_insert_ne by done. apply lookup_insert_eq. }
  erewrite put_size_ok.
  2:{ rewrite lookup_insert_ne by done. apply lookup_insert_eq. }
  simpl_vec. do 2 f_equal.
  apply map_eq. intros j. rewrite !lookup_insert.
  repeat case_decide; simplify_eq; done.
Qed.

(** The destructor of a vector that owns a block. *)
Lemma dtor_block o h a (d : list T) this b cap l :
  o !! this = Some (vec (Ptr b 0) cap (Z.of_nat (length l))) →
  h !! b = Some (block_image l cap) → Z.of_nat (length l) ≤ cap →
  Vector.dtor this (State o h a d)
  = Ok tt (State (delete this o) (delete b h) (a + cap * sizeof_T) (rev l ++ d)).
Proof.
  intros Hobj Hb Hle. unfold Vector.dtor.
  rewrite (bind_Ok _ _ _ _ _ (load_ok _ _ _ _ _ _ Hobj)). simpl_vec.
  erewrite bind_Ok.
  2:{ apply (destroy_n_ok _ _ _ _ _ 0%nat); [done|apply live_at_block_image]. }
  erewrite bind_Ok; [|apply dtor_ok, lookup_insert_eq].
  unfold Vector.retire, set_objs. simpl.
  rewrite delete_insert_eq.
  rewrite length_clear; pose proof (block_image_length l cap Hle); [|lia].
  do 3 f_equal. lia.
Qed.

(** The destructor of a vector that owns nothing. *)
Lemma dtor_null_vector o h a (d : list T) this :
  o !! this = Some (vec NullPtr 0 0) →
  Vector.dtor this (State o h a d) = Ok tt (State (delete this o) h a d).
Proof.
  intros Hobj. unfold Vector.dtor.
  by rewrite (bind_Ok _ _ _ _ _ (load_ok _ _ _ _ _ _ Hobj)).
Qed.

End Copying.

(** ** Copy assignment *)

Section Assign.
Context {T : Type} `{Element T}.
Implicit Types (h : gmap nat (list (option T))) (o : gmap nat Vector).
Implicit Types (l lr xs ys : list T).

Lemma local_ok o h a (d : list T) :
  Vector.local (State o h a d) = Ok (fresh (dom o)) (State o h a d).
Proof. done. Qed.

Lemma fresh_object o : o !! fresh (dom o) = None.
Proof. apply not_elem_of_dom, is_fresh. Qed.

Lemma repr_frame (σ σ' : state T) this buf cap l :
  repr σ this buf cap l →
  objs σ' !! this = objs σ !! this →
  (∀ b off, buf = Ptr b off → heap σ' !! b = heap σ !! b) →
  repr σ' this buf cap l.
Proof.
  intros [Hobj Hsz Hby Hblk] Ho Hh. split; [congruence|done|done|].
  destruct buf as [|b off]; [done|].
  destruct Hblk as (? & ? & ?). rewrite (Hh b off) by done. done.
Qed.

(** The path through a complete fresh copy. *)
Lemma assign_fresh_ok (σ : state T) this rhs buf cap l br capr lr ys :
  this ≠ rhs →
  repr σ this buf cap l → repr σ rhs (Ptr br 0) capr lr →
  separate buf (Ptr br 0) →
  cap < Z.of_nat (length lr) →
  Z.of_nat (length lr) * sizeof_T ≤ avail σ →
  Forall2 (λ x y, copy_construct x = Some y) lr ys →
  ∃ σ', Vector.assign this rhs σ = Ok tt σ'
        ∧ repr σ' this (Ptr (fresh (dom (heap σ))) 0) (Z.of_nat (length lr)) ys
        ∧ repr σ' rhs (Ptr br 0) capr lr
        ∧ dtor_log σ' = rev l ++ dtor_log σ.
Proof.
  intros Hne R Rr Hsep Hbig Hav Hcopy.
  pose proof (repr_bounds _ _ _ _ _ R) as (Hlen & Hcap & _).
  pose proof (repr_bounds _ _ _ _ _ Rr) as (Hlenr & Hcapr & Hbyr).
  pose proof (Forall2_length _ _ _ Hcopy) as Hys.
  pose proof R as [Hobj Hsz Hby Hblk].
  pose proof Rr as [Hobjr Hszr Hbyr' (_ & Hposr & Hbr)].
  pose proof sizeof_T_pos.
  destruct σ as [o h a d]. simpl_state.
  set (c := fresh (dom o)).
  assert (o !! c = None) as Hc by apply fresh_object.
  assert (c ≠ this) as Hct by congruence.
  assert (c ≠ rhs) as Hcr by congruence.
  set (b' := fresh (dom h)).
  assert (h !! b' = None) as Hb' by apply fresh_block.
  assert (br ≠ b') as Hbrb' by congruence.
  set (n := Z.of_nat (length lr)) in *.
  assert (n * sizeof_T ≤ PTRDIFF_MAX) as Hmax by (unfold PTRDIFF_MAX in *; nia).
  set (vnew := vec (Ptr b' 0) n n).
  set (vold := vec buf cap (Z.of_nat (length l))) in *.
  set (h1 := <[b' := block_image ys n]> h).
  set (o2 := <[c := vold]> (<[this := vnew]> (<[c := vnew]> o))).
  assert (Vector.assign this rhs (State o h a d)
          = Vector.dtor c (State o2 h1 (a - n * sizeof_T) d)) as Hrun.
  { unfold Vector.assign. destruct (decide (this = rhs)) as [Heq|_]; [destruct (Hne Heq)|].
    rewrite (bind_Ok _ _ _ _ _ (load_ok _ _ _ _ _ _ Hobjr)).
    rewrite (bind_Ok _ _ _ _ _ (load_ok _ _ _ _ _ _ Hobj)).
    unfold vold. simpl_vec.
    destruct (Z.gtb_spec n cap); [|lia].
    rewrite (bind_Ok _ _ _ _ _ (local_ok _ _ _ _)). fold c.
    erewrite bind_Ok; [|by eapply ctor_copy_ok; [done..|lia|done|done|done]].
    fold b' n vnew h1.
    erewrite bind_Ok; [reflexivity|].
    apply Swap_ok; [done| |apply lookup_insert_eq].
    by rewrite lookup_insert_ne. }
  assert (o2 !! c = Some vold) as Ho2c by apply lookup_insert_eq.
  assert (∀ j, j ≠ c → j ≠ this → delete c o2 !! j = o !! j) as Hother.
  { intros j ??. unfold o2.
    by rewrite lookup_delete_ne, !lookup_insert_ne by done. }
  assert (delete c o2 !! this = Some vnew) as Hthis.
  { unfold o2. rewrite lookup_delete_ne, lookup_insert_ne by done.
    apply lookup_insert_eq. }
  destruct buf as [|b off].
  - (* nothing to release *)
    subst cap. destruct l; [|simpl in *; lia].
    eexists. split; [|split; [|split]].
    + rewrite Hrun. by apply dtor_null_vector.
    + split; simpl; [|lia|done|].
      * rewrite Hthis. unfold vnew, n. by rewrite Hys.
      * split; [done|]. split; [lia|]. unfold h1. apply lookup_insert_eq.
    + eapply repr_frame; [done|..]; simpl.
      * by rewrite Hother.
      * intros ?? [= <- <-]. unfold h1. by rewrite lookup_insert_ne.
    + done.
  - destruct Hblk as (-> & Hpos & Hb). simpl in Hsep.
    assert (b ≠ b') as Hbb' by congruence.
    eexists. split; [|split; [|split]].
    + rewrite Hrun. apply dtor_block; [done| |done].
      unfold h1. by rewrite lookup_insert_ne.
    + split; simpl; [|lia|done|].
      * rewrite Hthis. unfold vnew, n. by rewrite Hys.
      * split; [done|]. split; [lia|].
        unfold h1. rewrite lookup_delete_ne by done. apply lookup_insert_eq.
    + eapply repr_frame; [done|..]; simpl.
      * by rewrite Hother.
      * intros ?? [= <- <-]. unfold h1.
        by rewrite lookup_delete_ne, lookup_insert_ne by done.
    + done.
Qed.

(** When the fresh copy fails, nothing has changed but the log of
    destructor calls. *)
Lemma assign_fresh_throw (σ : state T) this rhs buf cap l bufr capr lr e σ' :
  this ≠ rhs →
  repr σ this buf cap l → repr σ rhs bufr capr lr →
  separate buf bufr →
  cap < Z.of_nat (length lr) →
  Vector.assign this rhs σ = Throw e σ' →
  objs σ' = objs σ ∧ heap σ' = heap σ ∧ avail σ' = avail σ.
Proof.
  intros Hne R Rr Hsep Hbig Hthrow.
  pose proof (repr_bounds _ _ _ _ _ R) as (Hlen & Hcap & _).
  pose proof (repr_bounds _ _ _ _ _ Rr) as (Hlenr & Hcapr & Hbyr).
  destruct (repr_nonempty _ _ _ _ _ Rr) as (br & -> & Hbr); [lia|].
  pose proof sizeof_T_pos.
  assert (Z.of_nat (length lr) * sizeof_T ≤ PTRDIFF_MAX) as Hmax
    by (unfold PTRDIFF_MAX in *; nia).
  destruct (decide (Z.of_nat (length lr) * sizeof_T ≤ avail σ)) as [Hav|Hav].
  - destruct (copy_cases lr) as [[ys Hys]|(k & x & ys & Hk & Hx & Hys)].
    + destruct (assign_fresh_ok σ this rhs buf cap l br capr lr ys)
        as (σ1 & E & _); [done..|]. congruence.
    + pose proof R as [Hobj _ _ _]. pose proof Rr as [Hobjr _ _ _].
      destruct σ as [o h a d]. simpl_state.
      assert (Vector.assign this rhs (State o h a d)
              = Throw element_exception (State o h a (rev ys ++ d))) as E.
      { unfold Vector.assign. destruct (decide (this = rhs)) as [Heq|_]; [destruct (Hne Heq)|].
        rewrite (bind_Ok _ _ _ _ _ (load_ok _ _ _ _ _ _ Hobjr)).
        rewrite (bind_Ok _ _ _ _ _ (load_ok _ _ _ _ _ _ Hobj)).
        simpl_vec. destruct (Z.gtb_spec (Z.of_nat (length lr)) cap); [|lia].
        rewrite (bind_Ok _ _ _ _ _ (local_ok _ _ _ _)).
        apply bind_Throw. by eapply ctor_copy_throw. }
      rewrite E in Hthrow. by simplify_eq.
  - pose proof R as [Hobj _ _ _]. pose proof Rr as [Hobjr _ _ _].
    destruct σ as [o h a d]. simpl_state.
    assert (Vector.assign this rhs (State o h a d)
            = Throw bad_alloc (State o h a d)) as E.
    { unfold Vector.assign. destruct (decide (this = rhs)) as [Heq|_]; [destruct (Hne Heq)|].
      rewrite (bind_Ok _ _ _ _ _ (load_ok _ _ _ _ _ _ Hobjr)).
      rewrite (bind_Ok _ _ _ _ _ (load_ok _ _ _ _ _ _ Hobj)).
      simpl_vec. destruct (Z.gtb_spec (Z.of_nat (length lr)) cap); [|lia].
      rewrite (bind_Ok _ _ _ _ _ (local_ok _ _ _ _)).
      apply bind_Throw. eapply ctor_copy_bad_alloc; [done|lia|done|done]. }
    rewrite E in Hthrow. by simplify_eq.
Qed.

(** One copy assignment between two blocks. *)
Lemma copy_assign_at_ok o h a (d : list T) bs sblk i bd dblk j x old y :
  h !! bs = Some sblk → sblk !! i = Some (Some x) →
  h !! bd = Some dblk → dblk !! j = Some (Some old) →
  copy_assign old x = Some y →
  copy_assign_at (Ptr bd (Z.of_nat j)) (Ptr bs (Z.of_nat i)) (State o h a d)
  = Ok tt (State o (<[bd := <[j := Some y]> dblk]> h) a d).
Proof.
  intros Hs Hx Hd Hold Hy. unfold copy_assign_at.
  erewrite bind_Ok; [|eapply read_at_ok; [done|lia|by rewrite Nat2Z.id]].
  erewrite bind_Ok; [|eapply read_at_ok; [done|lia|by rewrite Nat2Z.id]].
  rewrite Hy. simpl. rewrite ret_bind.
  erewrite write_at_ok; [|done|lia|by rewrite Nat2Z.id].
  by rewrite Nat2Z.id.
Qed.

(** The loop that assigns over the common prefix. *)
Lemma assign_rounds o h a (d : list T) rhs b cap br capr l lr (zs : list T) :
  o !! rhs = Some (vec (Ptr br 0) capr (Z.of_nat (length lr))) →
  Z.of_nat (length lr) ≤ capr →
  h !! br = Some (block_image lr capr) →
  h !! b = Some (block_image l cap) → b ≠ br →
  Z.of_nat (length l) ≤ cap →
  Forall2 (λ dx y, copy_assign dx.1 dx.2 = Some y) (zip l lr) zs →
  repeat_from (length zs) 0 (λ i,
    s ← Vector.subscript rhs i;
    dst ← RawMemory.subscript {| buffer_ := Ptr b 0; capacity_ := cap |} i;
    copy_assign_at dst s) (State o h a d)
  = Ok tt (State o (<[b := fill 0 zs (block_image l cap)]> h) a d).
Proof.
  intros Hrhs Hcapr Hbr Hb Hne Hcap Hzs.
  pose proof (Forall2_length _ _ _ Hzs) as Hlen. rewrite length_zip in Hlen.
  assert (length (block_image l cap) = Z.to_nat cap) as Hbl
    by (pose proof (block_image_length l cap); lia).
  edestruct (repeat_from_invariant
    (λ k σ, σ = State o (<[b := fill 0 (take k zs) (block_image l cap)]> h) a d))
    as (σ' & -> & ->).
  { by rewrite take_0, fill_nil, insert_id. }
  { intros k σ Hk ->.
    destruct (lookup_lt_is_Some_2 l k) as [y Hy]; [lia|].
    destruct (lookup_lt_is_Some_2 lr k) as [x Hx]; [lia|].
    assert (zip l lr !! k = Some (y, x)) as Hzip.
    { by rewrite lookup_zip_with, Hy, Hx. }
    destruct (Forall2_lookup_l _ _ _ _ _ Hzs Hzip) as (z & Hz & Hyx).
    simpl in Hyx.
    eexists. split; [|reflexivity].
    erewrite bind_Ok.
    2:{ unfold Vector.subscript.
        rewrite (bind_Ok _ _ _ _ _ (load_ok _ _ _ _ _ _ Hrhs)). simpl_vec.
        destruct (Z.ltb_spec (0 + Z.of_nat k) (Z.of_nat (length lr))); [|lia].
        simpl. rewrite ret_bind. apply subscript_ok. lia. }
    erewrite bind_Ok; [|apply subscript_ok; lia].
    replace (0 + Z.of_nat k) with (Z.of_nat k) by lia.
    erewrite copy_assign_at_ok.
    2:{ by rewrite lookup_insert_ne. }
    2:{ by apply block_image_lookup. }
    2:{ apply lookup_insert_eq. }
    2:{ rewrite lookup_fill_ge by (rewrite ?length_take; lia).
        by apply block_image_lookup. }
    2:{ exact Hyx. }
    rewrite insert_insert_eq. do 3 f_equal.
    rewrite (take_S_r _ _ _ Hz).
    rewrite <- fill_snoc by (rewrite length_take; lia).
    by rewrite length_take, Nat.min_l by lia. }
  by rewrite firstn_all.
Qed.

Lemma assign_loop o h a (d : list T) rhs b cap bufr capr l lr (zs : list T) :
  repr (State o h a d) rhs bufr capr lr →
  separate (Ptr b 0) bufr →
  h !! b = Some (block_image l cap) →
  Z.of_nat (length l) ≤ cap →
  Forall2 (λ dx y, copy_assign dx.1 dx.2 = Some y) (zip l lr) zs →
  repeat_from (Z.to_nat (Z.of_nat (length l) `min` Z.of_nat (length lr))) 0 (λ i,
    s ← Vector.subscript rhs i;
    dst ← RawMemory.subscript {| buffer_ := Ptr b 0; capacity_ := cap |} i;
    copy_assign_at dst s) (State o h a d)
  = Ok tt (State o (<[b := fill 0 zs (block_image l cap)]> h) a d).
Proof.
  intros Rr Hsep Hb Hcap Hzs.
  pose proof (Forall2_length _ _ _ Hzs) as Hlen. rewrite length_zip in Hlen.
  replace (Z.to_nat (Z.of_nat (length l) `min` Z.of_nat (length lr)))
    with (length zs) by lia.
  destruct (decide (length zs = 0)%nat) as [E|E].
  - destruct zs; [|done]. simpl. by rewrite fill_nil, insert_id.
  - pose proof (repr_bounds _ _ _ _ _ Rr) as (Hlenr & _).
    destruct (repr_nonempty _ _ _ _ _ Rr) as (br & -> & Hbr); [lia|].
    destruct Rr as [Hobjr _ _ _]. simpl_state. simpl in Hsep.
    eapply assign_rounds; [done|lia|done|done|congruence|done|done].
Qed.

(** The path that reuses the block. *)
Lemma assign_reuse (σ : state T) this rhs buf cap l bufr capr lr zs cs :
  this ≠ rhs →
  repr σ this buf cap l → repr σ rhs bufr capr lr →
  separate buf bufr →
  Z.of_nat (length lr) ≤ cap →
  Forall2 (λ dx y, copy_assign dx.1 dx.2 = Some y) (zip l lr) zs →
  Forall2 (λ x y, copy_construct x = Some y) (drop (length l) lr) cs →
  ∃ σ', Vector.assign this rhs σ = Ok tt σ'
        ∧ repr σ' this buf cap (zs ++ cs)
        ∧ repr σ' rhs bufr capr lr
        ∧ dtor_log σ' = rev (drop (length lr) l) ++ dtor_log σ
        ∧ avail σ' = avail σ.
Proof.
  intros Hne R Rr Hsep Hfit Hzs Hcs.
  pose proof (repr_bounds _ _ _ _ _ R) as (Hlen & Hcap & _).
  pose proof (repr_bounds _ _ _ _ _ Rr) as (Hlenr & Hcapr & _).
  pose proof (Forall2_length _ _ _ Hzs) as Hzlen. rewrite length_zip in Hzlen.
  pose proof (Forall2_length _ _ _ Hcs) as Hclen. rewrite length_drop in Hclen.
  pose proof R as [Hobj Hsz Hby Hblk].
  pose proof Rr as [Hobjr Hszr Hbyr Hblkr].
  destruct σ as [o h a d]. simpl_state. unfold PTRDIFF_MAX in *.
  destruct buf as [|b off].
  - (* no block: both vectors are empty *)
    subst cap. destruct l; [|simpl in *; lia]. destruct lr; [|simpl in *; lia].
    apply Forall2_nil_inv_l in Hzs as ->. apply Forall2_nil_inv_l in Hcs as ->.
    exists (State (<[this := vec NullPtr 0 0]> o) h a d).
    split; [|split; [|split; [|split]]].
    + unfold Vector.assign. destruct (decide (this = rhs)) as [Heq|_]; [destruct (Hne Heq)|].
      rewrite (bind_Ok _ _ _ _ _ (load_ok _ _ _ _ _ _ Hobjr)).
      rewrite (bind_Ok _ _ _ _ _ (load_ok _ _ _ _ _ _ Hobj)). simpl.
      rewrite ret_bind.
      erewrite bind_Ok; [|reflexivity].
      by rewrite (put_size_ok _ _ _ _ _ _ _ Hobj).
    + split; simpl; [apply lookup_insert_eq|lia|unfold PTRDIFF_MAX; lia|done].
    + eapply repr_frame; [done|simpl; by rewrite lookup_insert_ne|done].
    + done.
    + done.
  - destruct Hblk as (-> & Hpos & Hb).
    assert (length (block_image l cap) = Z.to_nat cap) as Hbl
      by (pose proof (block_image_length l cap); lia).
    pose proof (assign_loop o h a d rhs b cap bufr capr l lr zs Rr Hsep Hb Hsz Hzs)
      as Hloop.
    set (B1 := fill 0 zs (block_image l cap)) in *.
    assert (length B1 = Z.to_nat cap) as HB1
      by (unfold B1; rewrite length_fill; lia).
    destruct (decide (length l < length lr)%nat) as [Hlt|Hge].
    + (* more to copy *)
      destruct (repr_nonempty _ _ _ _ _ Rr) as (br & -> & Hbr); [lia|].
      simpl_state. simpl in Hsep.
      assert (length zs = length l) as Hzl by lia.
      eexists. split; [|split; [|split; [|split]]].
      * unfold Vector.assign. destruct (decide (this = rhs)) as [Heq|_]; [destruct (Hne Heq)|].
        rewrite (bind_Ok _ _ _ _ _ (load_ok _ _ _ _ _ _ Hobjr)).
        rewrite (bind_Ok _ _ _ _ _ (load_ok _ _ _ _ _ _ Hobj)). simpl_vec.
        destruct (Z.gtb_spec (Z.of_nat (length lr)) cap); [lia|].
        rewrite (bind_Ok _ _ _ _ _ Hloop).
        destruct (Z.ltb_spec (Z.of_nat (length l)) (Z.of_nat (length lr))); [|lia].
        replace (Z.of_nat (Z.to_nat (Z.of_nat (length l) `min` Z.of_nat (length lr))))
          with (Z.of_nat (length l)) by lia.
        erewrite bind_Ok.
        2:{ erewrite bind_Ok; [|apply plus_ok; lia].
            erewrite bind_Ok; [|apply plus_ok; lia].
            rewrite wrap_small by lia.
            replace (Z.of_nat (length lr) - Z.of_nat (length l))
              with (Z.of_nat (length (drop (length l) lr)))
              by (rewrite length_drop; lia).
            eapply uninitialized_copy_n_ok; [done| | |apply lookup_insert_eq| |done].
            - by rewrite lookup_insert_ne.
            - replace (length l) with (0 + length l)%nat at 1 by lia.
              apply live_at_drop, live_at_block_image.
            - rewrite length_drop. lia. }
        by apply put_size_ok.
      * split; simpl.
        -- rewrite lookup_insert_eq. unfold vec. do 2 f_equal.
           rewrite length_app. lia.
        -- rewrite length_app. lia.
        -- done.
        -- split; [done|]. split; [lia|].
           rewrite insert_insert_eq, lookup_insert_eq. f_equal. unfold B1.
           rewrite <- Hzl. replace (length zs) with (0 + length zs)%nat at 1 by lia.
           rewrite <- fill_app by lia.
           apply (block_image_fill_extend [] l (zs ++ cs));
             rewrite ?length_app; simpl; lia.
      * eapply repr_frame; [done|simpl; by rewrite lookup_insert_ne|].
        simpl. intros ?? [= <- <-]. by rewrite !lookup_insert_ne.
      * simpl. rewrite drop_ge by lia. done.
      * done.
    + (* surplus to destroy *)
      assert (length zs = length lr) as Hzl by lia.
      destruct cs; [|simpl in *; lia]. rewrite app_nil_r.
      eexists. split; [|split; [|split; [|split]]].
      * unfold Vector.assign. destruct (decide (this = rhs)) as [Heq|_]; [destruct (Hne Heq)|].
        rewrite (bind_Ok _ _ _ _ _ (load_ok _ _ _ _ _ _ Hobjr)).
        rewrite (bind_Ok _ _ _ _ _ (load_ok _ _ _ _ _ _ Hobj)). simpl_vec.
        destruct (Z.gtb_spec (Z.of_nat (length lr)) cap); [lia|].
        rewrite (bind_Ok _ _ _ _ _ Hloop).
        destruct (Z.ltb_spec (Z.of_nat (length l)) (Z.of_nat (length lr))); [lia|].
        erewrite bind_Ok.
        2:{ erewrite bind_Ok; [|apply plus_ok; lia].
            rewrite wrap_small by lia.
            replace (Z.of_nat (length l) - Z.of_nat (length lr))
              with (Z.of_nat (length (drop (length lr) l)))
              by (rewrite length_drop; lia).
            eapply destroy_n_ok; [apply lookup_insert_eq|].
            intros k x Hk. fold B1. unfold B1.
            rewrite lookup_fill_ge by lia.
            rewrite lookup_drop in Hk. by apply block_image_lookup. }
        by apply put_size_ok.
      * split; simpl.
        -- rewrite lookup_insert_eq. unfold vec. do 2 f_equal. lia.
        -- lia.
        -- done.
        -- split; [done|]. split; [lia|].
           rewrite insert_insert_eq, lookup_insert_eq. f_equal. unfold B1.
           rewrite length_drop, <- Hzl. apply block_image_truncate; lia.
      * eapply repr_frame; [done|simpl; by rewrite lookup_insert_ne|].
        simpl. intros br off ->. destruct Hblkr as (_ & _ & Hbr).
        simpl in Hsep. by rewrite !lookup_insert_ne.
      * done.
      * done.
Qed.

End Assign.

(** ** What shrinking leaves alone *)

Section Frame.
Context {T : Type} `{Element T}.
Implicit Types (this : nat).

Lemma keeps_data_ret {A} this (a : A) : keeps_data (T := T) this (mret a).
Proof. by intros σ. Qed.

Lemma keeps_data_bind {A B} this (m : M (state T) A) (k : A → M (state T) B) :
  keeps_data this m → (∀ a, keeps_data this (k a)) → keeps_data this (m ≫= k).
Proof.
  intros Hm Hk σ. unfold mbind, M_bind. specialize (Hm σ).
  destruct (m σ) as [a σ1|e σ1|f]; [|done..].
  specialize (Hk a σ1). destruct (k a σ1); congruence.
Qed.

Lemma keeps_data_on_throw {A} this (m : M (state T) A) h :
  keeps_data this m → keeps_data this h → keeps_data this (on_throw m h).
Proof.
  intros Hm Hh σ. unfold on_throw. specialize (Hm σ).
  destruct (m σ) as [a σ1|e σ1|f]; [done| |done].
  specialize (Hh σ1). destruct (h σ1); congruence.
Qed.

Lemma keeps_data_noexcept {A} this (m : M (state T) A) :
  keeps_data this m → keeps_data this (noexcept m).
Proof. intros Hm σ. unfold noexcept. specialize (Hm σ). by destruct (m σ). Qed.

Lemma keeps_data_repeat_from this n i (body : Z → M (state T) unit) :
  (∀ i, keeps_data this (body i)) → keeps_data this (repeat_from n i body).
Proof.
  intros Hb. revert i. induction n as [|n IH]; intros i; simpl.
  - apply keeps_data_ret.
  - apply keeps_data_bind; [apply Hb|]. intros _. apply IH.
Qed.

(** A computation that does not touch the objects at all. *)
Lemma keeps_data_objs {A} this (m : M (state T) A) :
  (∀ σ, match m σ with
        | Ok _ σ' | Throw _ σ' => objs σ' = objs σ
        | Fault _ => True
        end) →
  keeps_data this m.
Proof. intros Hm σ. specialize (Hm σ). destruct (m σ); congruence. Qed.

Lemma keeps_data_assert this c : keeps_data (T := T) this (assert c).
Proof. apply keeps_data_objs. intros σ. by destruct c. Qed.

Lemma keeps_data_call {A} this (o : option A) : keeps_data (T := T) this (call o).
Proof. apply keeps_data_objs. intros σ. by destruct o. Qed.

Lemma keeps_data_defined {A} this (o : option A) :
  keeps_data (T := T) this (defined o).
Proof. apply keeps_data_objs. intros σ. by destruct o. Qed.

Lemma keeps_data_at_offset this p i : keeps_data (T := T) this (at_offset p i).
Proof. apply keeps_data_defined. Qed.

Lemma objs_set_slot p s (σ : state T) : objs (set_slot p s σ) = objs σ.
Proof. by destruct p. Qed.

Lemma keeps_data_read_at this p : keeps_data (T := T) this (read_at p).
Proof.
  apply keeps_data_objs. intros σ. unfold read_at.
  by destruct (slot σ p) as [[x|]|].
Qed.

Lemma keeps_data_write_at this p x : keeps_data (T := T) this (write_at p x).
Proof.
  apply keeps_data_objs. intros σ. unfold write_at.
  destruct (slot σ p) as [[y|]|]; [|done..]. apply objs_set_slot.
Qed.

Lemma keeps_data_construct_at this p x : keeps_data (T := T) this (construct_at p x).
Proof.
  apply keeps_data_objs. intros σ. unfold construct_at.
  destruct (slot σ p) as [s|]; [|done]. apply objs_set_slot.
Qed.

Lemma keeps_data_destroy_at this p : keeps_data (T := T) this (destroy_at p).
Proof.
  apply keeps_data_objs. intros σ. unfold destroy_at.
  destruct (slot σ p) as [[y|]|]; [|done..]. apply objs_set_slot.
Qed.

Lemma keeps_data_destroy_n this p n : keeps_data (T := T) this (destroy_n p n).
Proof.
  apply keeps_data_repeat_from. intros i.
  apply keeps_data_bind; [apply keeps_data_at_offset|].
  intros q. apply keeps_data_destroy_at.
Qed.

Lemma keeps_data_uninitialized_copy_n this p n q :
  keeps_data (T := T) this (uninitialized_copy_n p n q).
Proof.
  apply keeps_data_repeat_from. intros i.
  apply keeps_data_on_throw; [|apply keeps_data_destroy_n].
  apply keeps_data_bind; [apply keeps_data_at_offset|]. intros s.
  apply keeps_data_bind; [apply keeps_data_read_at|]. intros x.
  apply keeps_data_bind; [apply keeps_data_call|]. intros y.
  apply keeps_data_bind; [apply keeps_data_at_offset|]. intros r.
  apply keeps_data_construct_at.
Qed.

Lemma keeps_data_move_assign_at this p q : keeps_data (T := T) this (move_assign_at p q).
Proof.
  apply keeps_data_bind; [apply keeps_data_read_at|]. intros x.
  apply keeps_data_bind; [apply keeps_data_read_at|]. intros old.
  apply keeps_data_bind; [apply keeps_data_call|]. intros yr.
  apply keeps_data_bind; [apply keeps_data_write_at|]. intros _.
  apply keeps_data_write_at.
Qed.

Lemma keeps_data_copy_assign_at this p q : keeps_data (T := T) this (copy_assign_at p q).
Proof.
  apply keeps_data_bind; [apply keeps_data_read_at|]. intros x.
  apply keeps_data_bind; [apply keeps_data_read_at|]. intros old.
  apply keeps_data_bind; [apply keeps_data_call|]. intros y.
  apply keeps_data_write_at.
Qed.

Lemma keeps_data_std_move this p q r : keeps_data (T := T) this (std_move p q r).
Proof.
  apply keeps_data_bind.
  { apply keeps_data_bind; [apply keeps_data_defined|]. intros n.
    destruct (n <? 0); [by apply keeps_data_objs|apply keeps_data_ret]. }
  intros n. apply keeps_data_repeat_from. intros i.
  apply keeps_data_bind; [apply keeps_data_at_offset|]. intros s.
  apply keeps_data_bind; [apply keeps_data_at_offset|]. intros d.
  apply keeps_data_move_assign_at.
Qed.

Lemma keeps_data_load this other : keeps_data (T := T) this (Vector.load other).
Proof.
  apply keeps_data_objs. intros σ. unfold Vector.load.
  by destruct (objs σ !! other).
Qed.

(** Writing [size_] alone, of any vector. *)
Lemma keeps_data_put_size_ this other n :
  keeps_data (T := T) this (Vector.put_size_ other n).
Proof.
  intros σ. unfold Vector.put_size_, Vector.load, mbind, M_bind.
  destruct (objs σ !! other) as [v|] eqn:E; [|done]. simpl.
  destruct (decide (other = this)) as [->|].
  - by rewrite lookup_insert_eq, E.
  - by rewrite lookup_insert_ne.
Qed.

Lemma keeps_data_raw_subscript this m i :
  keeps_data (T := T) this (RawMemory.subscript m i).
Proof.
  apply keeps_data_bind; [apply keeps_data_assert|]. intros _.
  apply keeps_data_at_offset.
Qed.

Lemma keeps_data_raw_plus this m i : keeps_data (T := T) this (RawMemory.plus m i).
Proof.
  apply keeps_data_bind; [apply keeps_data_assert|]. intros _.
  apply keeps_data_at_offset.
Qed.

Lemma keeps_data_Empty this other : keeps_data (T := T) this (Vector.Empty other).
Proof.
  apply keeps_data_bind; [apply keeps_data_load|]. intros v. apply keeps_data_ret.
Qed.

Lemma keeps_data_begin this other : keeps_data (T := T) this (Vector.begin other).
Proof.
  apply keeps_data_bind; [apply keeps_data_load|]. intros v. apply keeps_data_ret.
Qed.

Lemma keeps_data_end_ this other : keeps_data (T := T) this (Vector.end_ other).
Proof.
  apply keeps_data_bind; [apply keeps_data_load|]. intros v.
  destruct (negb (size_ v =? 0));
    [apply keeps_data_raw_subscript|apply keeps_data_begin].
Qed.

Lemma keeps_data_subscript this other i :
  keeps_data (T := T) this (Vector.subscript other i).
Proof.
  apply keeps_data_bind; [apply keeps_data_load|]. intros v.
  apply keeps_data_bind; [apply keeps_data_assert|]. intros _.
  apply keeps_data_raw_subscript.
Qed.

Lemma keeps_data_PopBack this other : keeps_data (T := T) this (Vector.PopBack other).
Proof.
  apply keeps_data_noexcept.
  apply keeps_data_bind; [apply keeps_data_Empty|]. intros e.
  destruct (negb e); [|apply keeps_data_ret].
  apply keeps_data_bind; [apply keeps_data_load|]. intros v.
  apply keeps_data_bind; [apply keeps_data_put_size_|]. intros _.
  apply keeps_data_bind; [apply keeps_data_load|]. intros v'.
  apply keeps_data_bind; [apply keeps_data_raw_subscript|]. intros p.
  apply keeps_data_destroy_at.
Qed.

Lemma keeps_data_Erase this other pos : keeps_data (T := T) this (Vector.Erase other pos).
Proof.
  apply keeps_data_noexcept.
  apply keeps_data_bind; [apply keeps_data_Empty|]. intros e.
  apply keeps_data_bind; [apply keeps_data_assert|]. intros _.
  apply keeps_data_bind; [apply keeps_data_begin|]. intros b.
  apply keeps_data_bind; [apply keeps_data_defined|]. intros d.
  apply keeps_data_bind; [apply keeps_data_load|]. intros v.
  apply keeps_data_bind; [apply keeps_data_raw_subscript|]. intros first.
  apply keeps_data_bind; [apply keeps_data_end_|]. intros last.
  apply keeps_data_bind; [apply keeps_data_raw_subscript|]. intros d_first.
  apply keeps_data_bind; [apply keeps_data_std_move|]. intros _.
  apply keeps_data_bind; [apply keeps_data_PopBack|]. intros _.
  apply keeps_data_bind; [apply keeps_data_load|]. intros v'.
  apply keeps_data_raw_subscript.
Qed.

(** The branch of [Resize] below the capacity. *)
Lemma keeps_data_Resize_below this new_size :
  keeps_data (T := T) this (
    (v ← Vector.load this;
     repeat_from (Z.to_nat (size_ v - new_size)) new_size (λ i,
       p ← RawMemory.subscript (data_ v) i; destroy_at p));;
    Vector.put_size_ this new_size).
Proof.
  apply keeps_data_bind; [|intros _; apply keeps_data_put_size_].
  apply keeps_data_bind; [apply keeps_data_load|]. intros v.
  apply keeps_data_repeat_from. intros i.
  apply keeps_data_bind; [apply keeps_data_raw_subscript|]. intros p.
  apply keeps_data_destroy_at.
Qed.

(** The branch of the copy assignment that reuses the block. *)
Lemma keeps_data_assign_reuse this rhs (v r : Vector) :
  keeps_data (T := T) this (
    let n := Z.to_nat (Z.min (size_ v) (size_ r)) in
    repeat_from n 0 (λ i,
      s ← Vector.subscript rhs i;
      d ← RawMemory.subscript (data_ v) i;
      copy_assign_at d s);;
    let i := Z.of_nat n in
    (if size_ v <? size_ r then
       s ← RawMemory.plus (data_ r) i;
       d ← RawMemory.plus (data_ v) i;
       uninitialized_copy_n s (wrap (size_ r - i)) d
     else
       d ← RawMemory.plus (data_ v) (size_ r);
       destroy_n d (wrap (size_ v - size_ r)));;
    Vector.put_size_ this (size_ r)).
Proof.
  cbv zeta.
  apply keeps_data_bind.
  { apply keeps_data_repeat_from. intros i.
    apply keeps_data_bind; [apply keeps_data_subscript|]. intros s.
    apply keeps_data_bind; [apply keeps_data_raw_subscript|]. intros d.
    apply keeps_data_copy_assign_at. }
  intros _. apply keeps_data_bind; [|intros _; apply keeps_data_put_size_].
  destruct (size_ v <? size_ r).
  - apply keeps_data_bind; [apply keeps_data_raw_plus|]. intros s.
    apply keeps_data_bind; [apply keeps_data_raw_plus|]. intros d.
    apply keeps_data_uninitialized_copy_n.
  - apply keeps_data_bind; [apply keeps_data_raw_plus|]. intros d.
    apply keeps_data_destroy_n.
Qed.

Lemma keeps_data_capacity {A} this (m : M (state T) A) σ σ' :
  keeps_data this m → finished (m σ) σ' →
  capacity_of σ' this = capacity_of σ this.
Proof.
  intros Hm Hfin. specialize (Hm σ). unfold capacity_of.
  destruct (m σ) as [a σ1|e σ1|f]; simpl in Hfin; [subst..|done].
  - destruct (objs σ' !! this), (objs σ !! this); simpl in *; congruence.
  - destruct (objs σ' !! this), (objs σ !! this); simpl in *; congruence.
Qed.

End Frame.

(** ** Observations *)

Section Observations.
Context {T : Type} `{Element T}.

Lemma mapM_id_Some (l : list T) : mapM id (Some <$> l) = Some l.
Proof. apply mapM_Some_2. induction l; by constructor. Qed.

Lemma repr_contents (σ : state T) this buf cap l :
  repr σ this buf cap l → contents σ this = Some l.
Proof.
  intros R. pose proof (repr_bounds _ _ _ _ _ R) as (Hlen & _).
  destruct R as [Hobj Hsz _ Hblk]. unfold contents. rewrite Hobj. simpl.
  destruct buf as [|b off].
  - subst cap. by destruct l; [|simpl in *; lia].
  - destruct Hblk as (-> & Hpos & ->). simpl.
    pose proof (block_image_length l cap Hsz).
    destruct (Z.leb_spec 0 (Z.of_nat (length l))); [|lia].
    destruct (Z.leb_spec (Z.of_nat (length l)) (Z.of_nat (length (block_image l cap))));
      [|lia].
    simpl. rewrite Nat2Z.id. unfold block_image.
    rewrite <- (length_fmap Some l) at 1. rewrite take_app_length.
    apply mapM_id_Some.
Qed.

Lemma repr_Size (σ : state T) this buf cap l :
  repr σ this buf cap l → Vector.Size this σ = Ok (Z.of_nat (length l)) σ.
Proof.
  intros [Hobj _ _ _]. destruct σ as [o h a d]. simpl_state.
  by rewrite (Size_ok _ _ _ _ _ _ Hobj).
Qed.

Lemma repr_Capacity (σ : state T) this buf cap l :
  repr σ this buf cap l → Vector.Capacity this σ = Ok cap σ.
Proof.
  intros [Hobj _ _ _]. destruct σ as [o h a d]. simpl_state.
  by rewrite (Capacity_ok _ _ _ _ _ _ Hobj).
Qed.

Lemma repr_end (σ : state T) this b cap l :
  repr σ this (Ptr b 0) cap l →
  Vector.end_ this σ = Ok (Ptr b (Z.of_nat (length l))) σ.
Proof.
  intros R. pose proof (repr_bounds _ _ _ _ _ R) as (Hlen & _).
  destruct R as [Hobj _ _ _]. destruct σ as [o h a d]. simpl_state.
  by eapply end_ok.
Qed.

(** Move assignments that hand the value over shift a range without
    changing the values. *)
Lemma shift_onto_values (x : T) (xs : list T) :
  (∀ d s, ∃ r, move_assign d s = Some (s, r)) →
  ∃ r, shift_onto x xs = Some (xs ++ [r]).
Proof.
  intros Hmove. revert x. induction xs as [|s xs IH]; intros x.
  - by exists x.
  - destruct (Hmove x s) as [r Hr]. destruct (IH r) as [r' Hr'].
    exists r'. simpl. rewrite Hr. simpl. by rewrite Hr'.
Qed.

Lemma copies_of_values (xs : list T) :
  (∀ x, copy_construct x = Some x) →
  Forall2 (λ x y, copy_construct x = Some y) xs xs.
Proof. intros Hc. induction xs; by constructor. Qed.

Lemma assignments_of_values (l lr : list T) :
  (∀ d x, copy_assign d x = Some x) →
  Forall2 (λ dx y, copy_assign dx.1 dx.2 = Some y) (zip l lr) (take (length l) lr).
Proof.
  intros Ha. revert lr. induction l as [|d l IH]; intros [|x lr]; simpl;
    constructor; [apply Ha|apply IH].
Qed.

End Observations.

(** ** [Reserve] *)

Section Reserve.
Context {T : Type} `{Element T}.
Implicit Types (h : gmap nat (list (option T))) (o : gmap nat Vector).

(** A request within the capacity does nothing. *)
Lemma Reserve_within_capacity (σ : state T) this buf cap l new_capacity :
  repr σ this buf cap l → new_capacity ≤ cap →
  Vector.Reserve this new_capacity σ = Ok tt σ.
Proof.
  intros [Hobj _ _ _] Hle. destruct σ as [o h a d]. simpl_state.
  unfold Vector.Reserve.
  rewrite (bind_Ok _ _ _ _ _ (load_ok _ _ _ _ _ _ Hobj)). simpl_vec.
  by destruct (Z.leb_spec new_capacity cap); [|lia].
Qed.

(** The allocation fails: [std::bad_alloc], in the same state. *)
Lemma Reserve_bad_alloc (σ : state T) this buf cap l new_capacity :
  repr σ this buf cap l → cap < new_capacity →
  new_capacity * sizeof_T < 2 ^ 64 →
  ¬ (new_capacity * sizeof_T ≤ PTRDIFF_MAX ∧ new_capacity * sizeof_T ≤ avail σ) →
  Vector.Reserve this new_capacity σ = Throw bad_alloc σ.
Proof.
  intros R Hlt Hfit Hno.
  pose proof (repr_bounds _ _ _ _ _ R) as (Hlen & Hcap & _).
  destruct R as [Hobj _ _ _]. destruct σ as [o h a d]. simpl_state.
  unfold Vector.Reserve.
  rewrite (bind_Ok _ _ _ _ _ (load_ok _ _ _ _ _ _ Hobj)). simpl_vec.
  destruct (Z.leb_spec new_capacity cap); [lia|].
  apply bind_Throw, ctor_bad_alloc; [lia|done|done].
Qed.

(** The elements are relocated by copy and the copy of element [k]
    throws: the copies made so far are destroyed, the new block is
    released, and the vector, its block and the free store are as
    before. *)
Lemma Reserve_copy_throws (σ : state T) this b cap l new_capacity k x ys :
  is_nothrow_move_constructible || negb is_copy_constructible = false →
  repr σ this (Ptr b 0) cap l → cap < new_capacity →
  new_capacity * sizeof_T ≤ PTRDIFF_MAX → new_capacity * sizeof_T ≤ avail σ →
  l !! k = Some x → copy_construct x = None →
  Forall2 (λ x y, copy_construct x = Some y) (take k l) ys →
  Vector.Reserve this new_capacity σ
  = Throw element_exception
      (State (objs σ) (heap σ) (avail σ) (rev ys ++ dtor_log σ)).
Proof.
  intros Hcopying R Hlt Hmax Hav Hk Hx Hcopy.
  pose proof (repr_bounds _ _ _ _ _ R) as (Hlen & Hcap & _).
  pose proof R as [Hobj Hsz Hby (_ & Hpos & Hb)].
  destruct σ as [o h a d]. simpl_state.
  set (b' := fresh (dom h)).
  assert (b ≠ b') as Hne.
  { intros ->. pose proof (fresh_block h) as E. fold b' in E. congruence. }
  unfold Vector.Reserve.
  rewrite (bind_Ok _ _ _ _ _ (load_ok _ _ _ _ _ _ Hobj)). simpl_vec.
  destruct (Z.leb_spec new_capacity cap); [lia|].
  erewrite bind_Ok; [|apply ctor_ok; lia]. fold b'. simpl_vec.
  apply bind_Throw. eapply on_throw_Throw.
  { unfold Vector.CopyDataRange. rewrite Hcopying.
    eapply (uninitialized_copy_n_throw _ _ _ _ b 0%nat _ b' 0%nat _ l ys k x);
      [done| | | | | |done..].
    - by rewrite lookup_insert_ne.
    - apply live_at_block_image.
    - apply lookup_insert_eq.
    - rewrite length_replicate. lia.
    - intros j Hj. apply lookup_replicate_2. lia. }
  erewrite dtor_ok; [|apply lookup_insert_eq].
  rewrite delete_insert_id by apply fresh_block.
  rewrite length_replicate. do 2 f_equal. lia.
Qed.

End Reserve.

(** A vector of three elements that is full, of the element type whose
    copy of 13 throws: [Reserve(8)] copies 1, fails on 13, destroys the
    copy of 1 and releases the new block.  The vector and its block are
    as before. *)
Example Reserve_copy_throws_example :
  let σ := State {[0%nat := vec (Ptr 0 0) 3 3]}
                 {[0%nat := block_image [1; 13; 3] 3]} 1000 [] in
  @Vector.Reserve Z unlucky_element 0 8 σ
  = Throw element_exception (State (objs σ) (heap σ) (avail σ) [1]).
Proof. vm_compute. reflexivity. Qed.

Section ReserveRegular.
Context {T : Type} `{Regular T}.
Implicit Types (h : gmap nat (list (option T))) (o : gmap nat Vector).

(** [Reserve] beyond the capacity on a vector that is full: the
    elements are in a new block of [new_capacity] slots, each old
    element is destructed once, and the old block is released. *)
Lemma Reserve_full (σ : state T) this b cap l new_capacity :
  repr σ this (Ptr b 0) cap l → Z.of_nat (length l) = cap →
  cap < new_capacity →
  new_capacity * sizeof_T ≤ PTRDIFF_MAX → new_capacity * sizeof_T ≤ avail σ →
  ∃ σ' rs, Vector.Reserve this new_capacity σ = Ok tt σ'
           ∧ repr σ' this (Ptr (fresh (dom (heap σ))) 0) new_capacity l
           ∧ heap σ' !! b = None
           ∧ avail σ' = avail σ - (new_capacity - cap) * sizeof_T
           ∧ length rs = length l ∧ dtor_log σ' = rev rs ++ dtor_log σ.
Proof.
  intros R Hfull Hnew Hmax Hav.
  pose proof (repr_bounds _ _ _ _ _ R) as (Hlen & Hcap & _).
  pose proof R as [Hobj Hsz Hby (_ & Hpos & Hb)].
  destruct σ as [o h a d]. simpl_state.
  set (b' := fresh (dom h)).
  assert (b ≠ b') as Hne.
  { intros ->. pose proof (fresh_block h) as E. fold b' in E. congruence. }
  set (h1 := <[b' := replicate (Z.to_nat new_capacity) None]> h).
  destruct (CopyDataRange_ok o h1 (a - new_capacity * sizeof_T) d b 0
              (block_image l cap) b' 0 (replicate (Z.to_nat new_capacity) None) l)
    as (rs & Hrs & E); [done| |apply live_at_block_image| |..].
  { unfold h1. by rewrite lookup_insert_ne. }
  { unfold h1. apply lookup_insert_eq. }
  { rewrite length_replicate. lia. }
  change (Z.of_nat 0) with 0 in E.
  assert (length (block_image l cap) = Z.to_nat cap) as Hbl
    by (pose proof (block_image_length l cap); lia).
  eexists _, rs. split; [|split; [|split; [|split; [|split]]]].
  - unfold Vector.Reserve.
    rewrite (bind_Ok _ _ _ _ _ (load_ok _ _ _ _ _ _ Hobj)). simpl_vec.
    destruct (Z.leb_spec new_capacity cap); [lia|].
    erewrite bind_Ok; [|apply ctor_ok; lia]. fold b' h1. simpl_vec.
    erewrite bind_Ok; [|apply on_throw_Ok; exact E].
    erewrite bind_Ok; [|by apply put_data_ok].
    simpl_vec.
    erewrite bind_Ok.
    2:{ replace cap with (Z.of_nat (length rs)) at 1 by lia.
        apply (destroy_n_ok _ _ _ _ _ 0%nat); [|apply live_at_fill; lia].
        rewrite lookup_insert_ne by done. apply lookup_insert_eq. }
    eapply dtor_ok. apply lookup_insert_eq.
  - fold b'. split; simpl.
    + by rewrite lookup_insert_eq.
    + lia.
    + done.
    + split; [done|]. split; [lia|].
      rewrite lookup_delete_ne, lookup_insert_ne, lookup_insert_eq by done.
      f_equal. symmetry. apply block_image_fill. lia.
  - simpl. apply lookup_delete_eq.
  - simpl. rewrite length_clear by (rewrite length_fill; lia).
    rewrite length_fill by lia. lia.
  - done.
  - done.
Qed.

(** [Reserve] on a vector that has no storage yet. *)
Lemma Reserve_null (σ : state T) this new_capacity :
  repr σ this NullPtr 0 [] → 0 < new_capacity →
  new_capacity * sizeof_T ≤ PTRDIFF_MAX → new_capacity * sizeof_T ≤ avail σ →
  ∃ σ', Vector.Reserve this new_capacity σ = Ok tt σ'
        ∧ repr σ' this (Ptr (fresh (dom (heap σ))) 0) new_capacity []
        ∧ avail σ' = avail σ - new_capacity * sizeof_T
        ∧ dtor_log σ' = dtor_log σ.
Proof.
  intros [Hobj _ _ _] Hpos Hmax Hav.
  destruct σ as [o h a d]. simpl_state.
  eexists. split; [|split; [|split]].
  - unfold Vector.Reserve.
    rewrite (bind_Ok _ _ _ _ _ (load_ok _ _ _ _ _ _ Hobj)). simpl_vec.
    destruct (Z.leb_spec new_capacity 0); [lia|].
    erewrite bind_Ok; [|apply ctor_ok; lia]. simpl_vec.
    erewrite bind_Ok; [|apply on_throw_Ok, (CopyDataRange_0 NullPtr)].
    erewrite bind_Ok; [|by apply put_data_ok].
    simpl_vec. rewrite (bind_Ok _ _ _ _ _ (destroy_n_0 _ _)).
    apply dtor_null.
  - split; simpl.
    + by rewrite lookup_insert_eq.
    + lia.
    + done.
    + split; [done|]. split; [done|].
      rewrite lookup_insert_eq. f_equal. unfold block_image. simpl.
      by rewrite Nat.sub_0_r.
  - done.
  - done.
Qed.

End ReserveRegular.

(** ** [Resize] *)

Section ResizeShrink.
Context {T : Type} `{Element T}.
Implicit Types (h : gmap nat (list (option T))) (o : gmap nat Vector).

(** The loop of [Resize] that destructs the elements from [new_size]
    on, written with the [operator[]] of [RawMemory]. *)
Lemma destroy_from_ok o h a (d : list T) b cap off blk xs :
  h !! b = Some blk → live_at blk off xs →
  Z.of_nat (off + length xs) ≤ cap →
  repeat_from (length xs) (Z.of_nat off) (λ i,
    p ← RawMemory.subscript {| buffer_ := Ptr b 0; capacity_ := cap |} i;
    destroy_at p) (State o h a d)
  = Ok tt (State o (<[b := clear off (length xs) blk]> h) a (rev xs ++ d)).
Proof.
  intros Hb Hlive Hcap.
  edestruct (repeat_from_invariant
    (λ k σ, σ = State o (<[b := clear off k blk]> h) a (rev (take k xs) ++ d)))
    as (σ' & -> & ->).
  { simpl. by rewrite clear_0, insert_id. }
  { intros k σ Hk ->.
    destruct (lookup_lt_is_Some_2 xs k Hk) as [x Hx].
    eexists. split; [|reflexivity].
    erewrite bind_Ok; [|apply subscript_ok; lia].
    pose proof (Hlive _ _ Hx) as Hs. pose proof (lookup_lt_Some _ _ _ Hs).
    replace (Z.of_nat off + Z.of_nat k) with (Z.of_nat (off + k)) by lia.
    erewrite destroy_at_ok; [|apply lookup_insert_eq|lia|].
    2:{ rewrite Nat2Z.id. rewrite lookup_clear_ge by lia. done. }
    rewrite insert_insert_eq, Nat2Z.id.
    rewrite clear_S by lia. by rewrite (rev_take_S _ _ _ Hx). }
  by rewrite firstn_all.
Qed.

(** [Resize] to at most the size, below the capacity: the elements
    from [new_size] on are destructed, first to last, and the others
    stay where they are. *)
Lemma Resize_shrinks (σ : state T) this b cap l1 l2 :
  repr σ this (Ptr b 0) cap (l1 ++ l2) → Z.of_nat (length l1) < cap →
  ∃ σ', Vector.Resize this (Z.of_nat (length l1)) σ = Ok tt σ'
        ∧ repr σ' this (Ptr b 0) cap l1
        ∧ avail σ' = avail σ
        ∧ dtor_log σ' = rev l2 ++ dtor_log σ.
Proof.
  intros R Hlt.
  pose proof (repr_bounds _ _ _ _ _ R) as (Hlen & Hcap & _).
  rewrite length_app in Hlen.
  pose proof R as [Hobj Hsz Hby (_ & Hpos & Hb)].
  destruct σ as [o h a d]. simpl_state.
  assert (live_at (block_image (l1 ++ l2) cap) (length l1) l2) as Hlive.
  { intros k x Hx. apply block_image_lookup.
    rewrite lookup_app_r by lia. by replace (length l1 + k - length l1)%nat with k by lia. }
  eexists. split; [|split; [|split]].
  - unfold Vector.Resize.
    rewrite (bind_Ok _ _ _ _ _ (Capacity_ok _ _ _ _ _ _ Hobj)). simpl_vec.
    destruct (Z.geb_spec (Z.of_nat (length l1)) cap); [lia|].
    erewrite bind_Ok.
    2:{ rewrite (bind_Ok _ _ _ _ _ (load_ok _ _ _ _ _ _ Hobj)). simpl_vec.
        replace (Z.to_nat (Z.of_nat (length (l1 ++ l2)) - Z.of_nat (length l1)))
          with (length l2) by (rewrite length_app; lia).
        apply (destroy_from_ok _ _ _ _ _ _ _ _ _ Hb Hlive). lia. }
    by apply put_size_ok.
  - split; simpl.
    + by rewrite lookup_insert_eq.
    + lia.
    + done.
    + split; [done|]. split; [done|].
      rewrite lookup_insert_eq. f_equal.
      pose proof (block_image_truncate (l1 ++ l2) l1 cap) as E.
      rewrite length_app in E.
      replace (length l1 + length l2 - length l1)%nat with (length l2) in E by lia.
      rewrite <- E by lia. f_equal.
      symmetry. apply fill_live.
      * intros k x Hx. apply block_image_lookup. by apply lookup_app_l_Some.
      * pose proof (block_image_length (l1 ++ l2) cap).
        rewrite length_app in *. simpl. lia.
  - done.
  - done.
Qed.

End ResizeShrink.

Section ResizeGrow.
Context {T : Type} `{Regular T}.
Implicit Types (h : gmap nat (list (option T))) (o : gmap nat Vector).

(** [std::uninitialized_value_construct_n] on storage of a block. *)
Lemma uninitialized_value_construct_n_ok o h a (d : list T) b off blk n :
  h !! b = Some blk → (off + n ≤ length blk)%nat →
  uninitialized_value_construct_n (Ptr b (Z.of_nat off)) (Z.of_nat n) (State o h a d)
  = Ok tt (State o (<[b := fill off (replicate n regular_default) blk]> h) a d).
Proof.
  intros Hb Hlen. unfold uninitialized_value_construct_n. rewrite Nat2Z.id.
  edestruct (repeat_from_invariant
    (λ k σ, σ = State o (<[b := fill off (replicate k regular_default) blk]> h) a d))
    as (σ' & -> & ->); [| |done].
  { simpl. by rewrite fill_nil, insert_id. }
  intros k σ Hk ->. eexists. split; [|reflexivity].
  apply on_throw_Ok.
  rewrite regular_value_init. simpl. rewrite ret_bind.
  rewrite (bind_Ok _ _ _ _ _ (at_offset_Ptr _ _ _ _)).
  erewrite construct_at_ok; [|apply lookup_insert_eq|lia|].
  2:{ rewrite length_fill; rewrite ?length_replicate; lia. }
  rewrite insert_insert_eq. do 3 f_equal.
  replace (Z.to_nat (Z.of_nat off + (0 + Z.of_nat k))) with (off + k)%nat by lia.
  change (regular_default :: replicate k regular_default)
    with (replicate (Datatypes.S k) regular_default).
  rewrite replicate_S_end.
  rewrite <- fill_snoc by (rewrite length_replicate; lia).
  by rewrite length_replicate.
Qed.

(** What [Resize] does once the capacity suffices: it value-constructs
    the slots from the size up to the new size. *)
Lemma Resize_constructs_tail (σ : state T) this b cap l new_size :
  repr σ this (Ptr b 0) cap l →
  Z.of_nat (length l) ≤ new_size → new_size ≤ cap →
  ∃ σ', ((v ← Vector.load this;
          p ← RawMemory.plus (data_ v) (size_ v);
          uninitialized_value_construct_n p (wrap (new_size - size_ v)));;
         Vector.put_size_ this new_size) σ = Ok tt σ'
        ∧ repr σ' this (Ptr b 0) cap
            (l ++ replicate (Z.to_nat new_size - length l) regular_default)
        ∧ avail σ' = avail σ ∧ dtor_log σ' = dtor_log σ.
Proof.
  intros R Hge Hle.
  pose proof (repr_bounds _ _ _ _ _ R) as (Hlen & Hcap & _).
  pose proof R as [Hobj Hsz Hby (_ & Hpos & Hb)].
  destruct σ as [o h a d]. simpl_state. unfold PTRDIFF_MAX in *.
  set (n := (Z.to_nat new_size - length l)%nat).
  eexists. split; [|split; [|split]].
  - erewrite bind_Ok.
    2:{ rewrite (bind_Ok _ _ _ _ _ (load_ok _ _ _ _ _ _ Hobj)). simpl_vec.
        erewrite bind_Ok; [|apply plus_ok; lia].
        rewrite wrap_small by lia.
        replace (new_size - Z.of_nat (length l)) with (Z.of_nat n) by lia.
        apply uninitialized_value_construct_n_ok; [done|].
        pose proof (block_image_length l cap). lia. }
    by apply put_size_ok.
  - split; simpl.
    + rewrite lookup_insert_eq. unfold vec. do 2 f_equal.
      rewrite length_app, length_replicate. lia.
    + rewrite length_app, length_replicate. lia.
    + done.
    + split; [done|]. split; [done|].
      rewrite lookup_insert_eq. f_equal.
      pose proof (block_image_fill_extend l [] (replicate n regular_default) cap) as E.
      rewrite app_nil_r in E. apply E; simpl; [lia|].
      rewrite length_replicate. lia.
  - done.
  - done.
Qed.

(** [Resize] to exactly the capacity: no reallocation, the raw slots
    are value-constructed. *)
Lemma Resize_to_capacity (σ : state T) this b cap l :
  repr σ this (Ptr b 0) cap l →
  ∃ σ', Vector.Resize this cap σ = Ok tt σ'
        ∧ repr σ' this (Ptr b 0) cap
            (l ++ replicate (Z.to_nat cap - length l) regular_default)
        ∧ avail σ' = avail σ ∧ dtor_log σ' = dtor_log σ.
Proof.
  intros R.
  pose proof (repr_bounds _ _ _ _ _ R) as (Hlen & Hcap & _).
  destruct (Resize_constructs_tail σ this b cap l cap R) as (σ' & E & Hrest);
    [lia..|].
  exists σ'. split; [|done].
  unfold Vector.Resize.
  pose proof R as [Hobj _ _ _]. destruct σ as [o h a d]. simpl_state.
  rewrite (bind_Ok _ _ _ _ _ (Capacity_ok _ _ _ _ _ _ Hobj)). simpl_vec.
  destruct (Z.geb_spec cap cap); [|lia].
  rewrite bind_assoc.
  by rewrite (bind_Ok _ _ _ _ _ (Reserve_within_capacity _ _ _ _ _ cap R (Z.le_refl _))).
Qed.

(** [Resize] beyond the capacity of a vector that is full: the
    elements move to a block of [new_size] slots, the rest of which
    is value-constructed. *)
Lemma Resize_grows_full (σ : state T) this b cap l new_size :
  repr σ this (Ptr b 0) cap l → Z.of_nat (length l) = cap →
  cap < new_size →
  new_size * sizeof_T ≤ PTRDIFF_MAX → new_size * sizeof_T ≤ avail σ →
  ∃ σ' rs, Vector.Resize this new_size σ = Ok tt σ'
           ∧ repr σ' this (Ptr (fresh (dom (heap σ))) 0) new_size
               (l ++ replicate (Z.to_nat new_size - length l) regular_default)
           ∧ avail σ' = avail σ - (new_size - cap) * sizeof_T
           ∧ length rs = length l ∧ dtor_log σ' = rev rs ++ dtor_log σ.
Proof.
  intros R Hfull Hnew Hmax Hav.
  destruct (Reserve_full σ this b cap l new_size R Hfull Hnew Hmax Hav)
    as (σ1 & rs & E1 & R1 & _ & Ha1 & Hrs & Hlog1).
  destruct (Resize_constructs_tail σ1 this _ new_size l new_size R1)
    as (σ' & E & R' & Ha' & Hlog'); [lia..|].
  exists σ', rs. split; [|split; [done|split; [|split]]]; [|congruence..].
  unfold Vector.Resize.
  pose proof R as [Hobj _ _ _]. destruct σ as [o h a d]. simpl_state.
  rewrite (bind_Ok _ _ _ _ _ (Capacity_ok _ _ _ _ _ _ Hobj)). simpl_vec.
  destruct (Z.geb_spec new_size cap); [|lia].
  rewrite bind_assoc. by rewrite (bind_Ok _ _ _ _ _ E1).
Qed.

End ResizeGrow.

(** * The claims *)

(** [repr] on a concrete state, by evaluation. *)
Ltac concrete_repr :=
  split;
  [ reflexivity
  | vm_compute; congruence
  | vm_compute; congruence
  | first [ reflexivity
          | split; [reflexivity | split; [reflexivity | reflexivity]] ] ].

(** C9.  Copy-assigning a vector to itself is recognised and does
    nothing: whatever the state, [v = v] returns normally, in the same
    state, so with the same size, capacity and elements; it can neither
    throw nor fault. *)
Theorem self_assignment_is_noop {T} `{Element T} (σ : state T) (this : nat) :
  Vector.assign this this σ = Ok tt σ.
Proof. unfold Vector.assign. by rewrite decide_True. Qed.

(** C7.  [PopBack] on an empty vector returns normally and changes
    nothing, the size staying 0.  On a vector holding [l' ++ [x]] it
    returns normally, runs the destructor of [x] and of nothing else,
    leaves [l'] in the same block with the same capacity, the slot of
    [x] being raw, and the size is smaller by exactly one. *)
Theorem PopBack_removes_last {T} `{Element T} (σ : state T) this buf cap l :
  repr σ this buf cap l →
  (l = [] → Vector.PopBack this σ = Ok tt σ ∧ Vector.Size this σ = Ok 0 σ)
  ∧ (∀ l' x, l = l' ++ [x] →
       ∃ σ', Vector.PopBack this σ = Ok tt σ'
             ∧ repr σ' this buf cap l'
             ∧ Vector.Size this σ' = Ok (Z.of_nat (length l) - 1) σ'
             ∧ dtor_log σ' = x :: dtor_log σ
             ∧ slot σ' (position buf (Z.of_nat (length l'))) = Some None).
Proof.
  intros R. split.
  - intros ->. split; [by eapply PopBack_empty|]. by rewrite (repr_Size _ _ _ _ _ R).
  - intros l' x ->.
    destruct (PopBack_nonempty _ _ _ _ _ _ R) as (σ' & E & R' & Hlog & _).
    exists σ'. split; [done|]. split; [done|]. split; [|split; [done|]].
    + rewrite (repr_Size _ _ _ _ _ R'). do 2 f_equal.
      rewrite length_app. simpl. lia.
    + pose proof (repr_bounds _ _ _ _ _ R) as (Hlen & _).
      rewrite length_app in Hlen. simpl in Hlen.
      destruct (repr_nonempty _ _ _ _ _ R') as (b & -> & Hb); [lia|].
      destruct σ' as [o h a d]. simpl_state. unfold position.
      erewrite slot_lookup; [|done|lia].
      apply block_image_raw; lia.
Qed.

Lemma PopBack_removes_last_witness :
  repr (one_vector [1; 2; 3] 4) 0 (Ptr 0 0) 4 [1; 2; 3]
  ∧ ∃ σ', Vector.PopBack 0 (one_vector [1; 2; 3] 4) = Ok tt σ'
          ∧ repr σ' 0 (Ptr 0 0) 4 [1; 2]
          ∧ Vector.Size 0 σ' = Ok (Z.of_nat (length [1; 2; 3]) - 1) σ'
          ∧ dtor_log σ' = 3 :: dtor_log (one_vector [1; 2; 3] 4)
          ∧ slot σ' (position (Ptr 0 0) (Z.of_nat (length [1; 2]))) = Some None.
Proof.
  assert (repr (one_vector [1; 2; 3] 4) 0 (Ptr 0 0) 4 [1; 2; 3]) as R
    by concrete_repr.
  split; [exact R|].
  exact (proj2 (PopBack_removes_last _ _ _ _ _ R) [1; 2] 3 eq_refl).
Defined.

(** C5.  [Erase] at position [length l1] of a vector holding
    [l1 ++ x :: l2]: the elements after the position are move-assigned
    one slot to the left, leftmost first ([shift_onto]), the last slot
    is destructed, and the size is smaller by one, in the same block.
    The result is the address of the erased position, which is the end
    marker when the erased element was the last.  When move assignment
    hands the value over, the vector holds [l1 ++ l2]. *)
Theorem Erase_shifts_left {T} `{Element T} (σ : state T) this b cap l1 x l2 l2' r :
  repr σ this (Ptr b 0) cap (l1 ++ x :: l2) →
  shift_onto x l2 = Some (l2' ++ [r]) →
  ∃ σ', Vector.Erase this (Ptr b (Z.of_nat (length l1))) σ
          = Ok (Ptr b (Z.of_nat (length l1))) σ'
        ∧ repr σ' this (Ptr b 0) cap (l1 ++ l2')
        ∧ Vector.Size this σ' = Ok (Z.of_nat (length (l1 ++ x :: l2)) - 1) σ'
        ∧ dtor_log σ' = r :: dtor_log σ
        ∧ (l2 = [] → Vector.end_ this σ' = Ok (Ptr b (Z.of_nat (length l1))) σ')
        ∧ ((∀ d s, ∃ r', move_assign d s = Some (s, r')) → l2' = l2).
Proof.
  intros R Hshift.
  destruct (Erase_spec _ _ _ _ _ _ _ _ _ R Hshift) as (σ' & E & R' & Hlog & _).
  pose proof (shift_onto_length _ _ _ Hshift) as Hlen.
  rewrite length_app in Hlen. simpl in Hlen.
  exists σ'. split; [done|]. split; [done|]. split; [|split; [done|split]].
  - rewrite (repr_Size _ _ _ _ _ R'). do 2 f_equal.
    rewrite !length_app. simpl. lia.
  - intros ->. destruct l2'; [|simpl in Hlen; lia].
    rewrite (repr_end _ _ _ _ _ R'). by rewrite app_nil_r.
  - intros Hmove. destruct (shift_onto_values x l2 Hmove) as [r' E'].
    rewrite Hshift in E'. injection E' as E'. by apply app_inj_tail in E' as [? _].
Qed.

Lemma Erase_shifts_left_witness :
  repr (one_vector [1; 9; 2; 3] 4) 0 (Ptr 0 0) 4 ([1] ++ 9 :: [2; 3])
  ∧ shift_onto 9 [2; 3] = Some ([2; 3] ++ [3])
  ∧ ∃ σ', Vector.Erase 0 (Ptr 0 (Z.of_nat (length [1]))) (one_vector [1; 9; 2; 3] 4)
            = Ok (Ptr 0 (Z.of_nat (length [1]))) σ'
          ∧ repr σ' 0 (Ptr 0 0) 4 ([1] ++ [2; 3])
          ∧ Vector.Size 0 σ' = Ok (Z.of_nat (length ([1] ++ 9 :: [2; 3])) - 1) σ'
          ∧ dtor_log σ' = 3 :: dtor_log (one_vector [1; 9; 2; 3] 4)
          ∧ ([2; 3] = [] → Vector.end_ 0 σ' = Ok (Ptr 0 (Z.of_nat (length [1]))) σ')
          ∧ ((∀ d s : Z, ∃ r', move_assign d s = Some (s, r')) → [2; 3] = [2; 3]).
Proof.
  assert (repr (one_vector [1; 9; 2; 3] 4) 0 (Ptr 0 0) 4 ([1] ++ 9 :: [2; 3])) as R
    by concrete_repr.
  split; [exact R|]. split; [reflexivity|].
  exact (Erase_shifts_left _ 0%nat 0%nat 4 [1] 9 [2; 3] [2; 3] 3 R eq_refl).
Defined.

(** C10.  Shrinking never changes the capacity.  Whenever one of
    [PopBack], [Erase], [Resize] to a size strictly below the capacity,
    or copy assignment from a vector whose size is at most the capacity,
    finishes (by returning or by throwing), the capacity of the vector
    is what it was before, and so is its block. *)
Theorem shrinking_keeps_capacity {T} `{Element T} (σ σ' : state T) this :
  (finished (Vector.PopBack this σ) σ' →
     capacity_of σ' this = capacity_of σ this)
  ∧ (∀ pos, finished (Vector.Erase this pos σ) σ' →
       capacity_of σ' this = capacity_of σ this)
  ∧ (∀ new_size c, capacity_of σ this = Some c → new_size < c →
       finished (Vector.Resize this new_size σ) σ' →
       capacity_of σ' this = Some c)
  ∧ (∀ rhs r c, objs σ !! rhs = Some r → capacity_of σ this = Some c →
       size_ r ≤ c →
       finished (Vector.assign this rhs σ) σ' →
       capacity_of σ' this = Some c).
Proof.
  split; [|split; [|split]].
  - apply keeps_data_capacity, keeps_data_PopBack.
  - intros pos. apply keeps_data_capacity, keeps_data_Erase.
  - intros n c Hc Hn Hfin. rewrite <- Hc.
    unfold capacity_of in Hc. destruct (objs σ !! this) as [v|] eqn:Hv; [|done].
    simpl in Hc. injection Hc as Hc.
    destruct σ as [o h a d]. simpl_state.
    unfold Vector.Resize in Hfin.
    rewrite (bind_Ok _ _ _ _ _ (Capacity_ok _ _ _ _ _ _ Hv)), Hc in Hfin.
    destruct (Z.geb_spec n c); [lia|].
    by apply (keeps_data_capacity this _ _ _ (keeps_data_Resize_below this n)).
  - intros rhs r c Hr Hc Hfit Hfin. rewrite <- Hc.
    unfold capacity_of in Hc. destruct (objs σ !! this) as [v|] eqn:Hv; [|done].
    simpl in Hc. injection Hc as Hc.
    destruct σ as [o h a d]. simpl_state.
    unfold Vector.assign in Hfin.
    destruct (decide (this = rhs)) as [->|Hne]; [simpl in Hfin; by subst|].
    rewrite (bind_Ok _ _ _ _ _ (load_ok _ _ _ _ _ _ Hr)) in Hfin.
    rewrite (bind_Ok _ _ _ _ _ (load_ok _ _ _ _ _ _ Hv)) in Hfin.
    unfold RawMemory.Capacity in Hfin. rewrite Hc in Hfin.
    destruct (Z.gtb_spec (size_ r) c); [lia|].
    by apply (keeps_data_capacity this _ _ _ (keeps_data_assign_reuse this rhs v r)).
Qed.

Lemma shrinking_keeps_capacity_witness :
  let σ := one_vector [1; 2; 3] 4 in
  let σ2 := two_vectors [1; 2; 3] 4 [7; 8] 2 in
  let after_pop :=
    State {[0%nat := vec (Ptr 0 0) 4 2]} {[0%nat := block_image [1; 2] 4]} 1000 [3] in
  let after_erase :=
    State {[0%nat := vec (Ptr 0 0) 4 2]} {[0%nat := block_image [1; 3] 4]} 1000 [3] in
  let after_resize :=
    State {[0%nat := vec (Ptr 0 0) 4 1]} {[0%nat := block_image [1] 4]} 1000 [3; 2] in
  let after_assign :=
    State {[0%nat := vec (Ptr 0 0) 4 2; 1%nat := vec (Ptr 1 0) 2 2]}
          {[0%nat := block_image [7; 8] 4; 1%nat := block_image [7; 8] 2]} 1000 [3] in
  (finished (Vector.PopBack 0 σ) after_pop
   ∧ capacity_of after_pop 0 = capacity_of σ 0)
  ∧ (finished (Vector.Erase 0 (Ptr 0 1) σ) after_erase
     ∧ capacity_of after_erase 0 = capacity_of σ 0)
  ∧ (capacity_of σ 0 = Some 4 ∧ 1 < 4
     ∧ finished (Vector.Resize 0 1 σ) after_resize
     ∧ capacity_of after_resize 0 = Some 4)
  ∧ (objs σ2 !! 1%nat = Some (vec (Ptr 1 0) 2 2) ∧ capacity_of σ2 0 = Some 4
     ∧ size_ (vec (Ptr 1 0) 2 2) ≤ 4
     ∧ finished (Vector.assign 0 1 σ2) after_assign
     ∧ capacity_of after_assign 0 = Some 4).
Proof.
  intros σ σ2 after_pop after_erase after_resize after_assign.
  assert (finished (Vector.PopBack 0 σ) after_pop) as H1
    by (vm_compute; reflexivity).
  assert (finished (Vector.Erase 0 (Ptr 0 1) σ) after_erase) as H2
    by (vm_compute; reflexivity).
  assert (finished (Vector.Resize 0 1 σ) after_resize) as H3
    by (vm_compute; reflexivity).
  assert (finished (Vector.assign 0 1 σ2) after_assign) as H4
    by (vm_compute; reflexivity).
  assert (capacity_of σ 0 = Some 4) as Hc by reflexivity.
  assert (capacity_of σ2 0 = Some 4) as Hc2 by reflexivity.
  assert (objs σ2 !! 1%nat = Some (vec (Ptr 1 0) 2 2)) as Hr by reflexivity.
  assert (1 < 4) as Hlt by reflexivity.
  assert (size_ (vec (Ptr 1 0) 2 2) ≤ 4) as Hle by (vm_compute; congruence).
  split; [|split; [|split]].
  - split; [exact H1|].
    exact (proj1 (shrinking_keeps_capacity σ after_pop 0%nat) H1).
  - split; [exact H2|].
    exact (proj1 (proj2 (shrinking_keeps_capacity σ after_erase 0%nat)) _ H2).
  - split; [exact Hc|]. split; [exact Hlt|]. split; [exact H3|].
    exact (proj1 (proj2 (proj2 (shrinking_keeps_capacity σ after_resize 0%nat)))
             1 4 Hc Hlt H3).
  - split; [exact Hr|]. split; [exact Hc2|]. split; [exact Hle|]. split; [exact H4|].
    exact (proj2 (proj2 (proj2 (shrinking_keeps_capacity σ2 after_assign 0%nat)))
             1%nat _ 4 Hr Hc2 Hle H4).
Defined.

(** C6 (amended).  From a default-constructed vector, [PushBack] of the
    values [xs] in turn either returns with the size at [length xs],
    the elements [xs] and the capacity on the doubling sequence 0, 1,
    2, 4, 8, ..., which is at least the size, or ends in
    [std::bad_alloc]; with enough memory it returns.  The sequence
    grows to [max(1, 2 * capacity)] exactly when the size has reached
    the capacity.  Each [PushBack] constructs the new element in slot
    [size], behind the others left as they were, and increments the
    size.  [PushBack] is declared [void] and returns nothing: the
    reference to the new element is what the [EmplaceBack] it forwards
    to returns, and [PushBack] drops it. *)
Theorem PushBack_doubling {T} `{Regular T} (σ : state T) this (xs : list T) :
  let run := Vector.ctor_default this ;; push_all this xs in
  (∀ σ', run σ = Ok tt σ' →
     ∃ buf, repr σ' this buf (capacity_after (length xs)) xs
            ∧ Vector.Size this σ' = Ok (Z.of_nat (length xs)) σ'
            ∧ Vector.Capacity this σ' = Ok (capacity_after (length xs)) σ'
            ∧ Z.of_nat (length xs) ≤ capacity_after (length xs))
  ∧ (∀ e σ', run σ = Throw e σ' → e = bad_alloc)
  ∧ (∀ f, run σ ≠ Fault f)
  ∧ (capacity_after (length xs) * sizeof_T ≤ PTRDIFF_MAX →
     2 * capacity_after (length xs) * sizeof_T ≤ avail σ →
     ∃ σ', run σ = Ok tt σ')
  ∧ (∀ n, capacity_after (S n)
          = if decide (Z.of_nat n = capacity_after n)
            then Z.max 1 (2 * capacity_after n) else capacity_after n)
  ∧ (∀ σ0 buf cap l x σ1,
       repr σ0 this buf cap l →
       Vector.PushBack this x σ0 = Ok tt σ1 →
       ∃ b', repr σ1 this (Ptr b' 0) (next_capacity cap (Z.of_nat (length l)))
                  (l ++ [x])
             ∧ Vector.Size this σ1 = Ok (Z.of_nat (length l) + 1) σ1
             ∧ read_at (Ptr b' (Z.of_nat (length l))) σ1 = Ok x σ1
             ∧ Vector.EmplaceBack this (copy_construct x) σ0
               = Ok (Ptr b' (Z.of_nat (length l))) σ1).
Proof.
  intros run.
  destruct (ctor_default_ok σ this) as (σ0 & E0 & R0 & Ha0).
  pose proof (push_all_outcome this xs σ0 NullPtr [] R0) as Hout. simpl in Hout.
  assert (run σ = push_all this xs σ0) as Hrun.
  { unfold run. by rewrite (bind_Ok _ _ _ _ _ E0). }
  split; [|split; [|split; [|split; [|split]]]].
  - intros σ' E. rewrite Hrun in E. rewrite E in Hout.
    destruct Hout as [buf R]. exists buf. split; [done|].
    split; [by rewrite (repr_Size _ _ _ _ _ R)|].
    split; [by rewrite (repr_Capacity _ _ _ _ _ R)|].
    apply capacity_after_ge.
  - intros e σ' E. rewrite Hrun in E. by rewrite E in Hout.
  - intros f E. rewrite Hrun in E. by rewrite E in Hout.
  - intros Hmax Hav. rewrite Hrun.
    apply (push_all_ok this xs σ0 NullPtr [] R0); simpl; [done|]. lia.
  - intros n. rewrite capacity_after_S. unfold next_capacity.
    destruct (Z.eqb_spec (Z.of_nat n) (capacity_after n));
      [by rewrite decide_True|by rewrite decide_False].
  - intros σ1 buf cap l x σ2 R E.
    unfold Vector.PushBack in E. rewrite regular_copy_construct in E |- *.
    pose proof (EmplaceBack_spec σ1 this buf cap l x R) as Hspec. cbv zeta in Hspec.
    destruct (decide _) in Hspec;
      [|by rewrite (bind_Throw _ _ _ _ _ Hspec) in E].
    destruct Hspec as (b' & σ' & E' & R' & _).
    rewrite (bind_Ok _ _ _ _ _ E') in E. injection E as <-.
    exists b'. split; [done|].
    split.
    { rewrite (repr_Size _ _ _ _ _ R'). do 2 f_equal.
      rewrite length_app. simpl. lia. }
    split; [|done].
    pose proof (repr_bounds _ _ _ _ _ R') as (Hlen & _).
    rewrite length_app in Hlen. simpl in Hlen.
    destruct (repr_nonempty _ _ _ _ _ R') as (b & [= <-] & Hb); [lia|].
    destruct σ' as [o' h' a' d']. simpl_state.
    eapply read_at_ok; [done|lia|].
    rewrite Nat2Z.id. apply block_image_lookup, list_lookup_middle. done.
Qed.

Lemma PushBack_doubling_witness :
  let run := Vector.ctor_default 0 ;; push_all 0 [1; 2; 3; 4; 5] in
  let σ' := State {[0%nat := vec (Ptr 3 0) 8 5]}
                  {[3%nat := block_image [1; 2; 3; 4; 5] 8]} 968 [4; 3; 2; 1; 2; 1; 1] in
  run empty_state = Ok tt σ'
  ∧ (∃ buf, repr σ' 0 buf (capacity_after 5) [1; 2; 3; 4; 5]
            ∧ Vector.Size 0 σ' = Ok 5 σ'
            ∧ Vector.Capacity 0 σ' = Ok (capacity_after 5) σ'
            ∧ 5 ≤ capacity_after 5)
  ∧ capacity_after 5 * 4 ≤ PTRDIFF_MAX
  ∧ 2 * capacity_after 5 * 4 ≤ avail empty_state
  ∧ (∃ σ'', run empty_state = Ok tt σ'').
Proof.
  intros run σ'.
  assert (run empty_state = Ok tt σ') as E by (vm_compute; reflexivity).
  assert (capacity_after 5 * 4 ≤ PTRDIFF_MAX) as Hmax by (vm_compute; congruence).
  assert (2 * capacity_after 5 * 4 ≤ avail empty_state) as Hav
    by (vm_compute; congruence).
  split; [exact E|]. split.
  - exact (proj1 (PushBack_doubling empty_state 0%nat [1; 2; 3; 4; 5]) σ' E).
  - split; [exact Hmax|]. split; [exact Hav|].
    exact (proj1 (proj2 (proj2 (proj2
             (PushBack_doubling empty_state 0%nat [1; 2; 3; 4; 5])))) Hmax Hav).
Defined.

(** C6 (the claim as stated).  [PushBack] does not return a reference
    to the new element.  On a vector holding [1] and on one holding
    [1; 2], both with capacity 4, [PushBack(5)] returns the same value,
    the one value of [void], while the new element is at index 1 in
    the first and at index 2 in the second, which are the addresses the
    two calls of [EmplaceBack] return: nothing computed from the result
    of [PushBack] is the address of the new element in both. *)
Lemma PushBack_returns_no_reference :
  let σa := one_vector [1] 4 in
  let σb := one_vector [1; 2] 4 in
  ∃ σa' σb',
    Vector.PushBack 0 5 σa = Ok tt σa'
    ∧ Vector.PushBack 0 5 σb = Ok tt σb'
    ∧ Vector.EmplaceBack 0 (Some 5) σa = Ok (Ptr 0 1) σa'
    ∧ Vector.EmplaceBack 0 (Some 5) σb = Ok (Ptr 0 2) σb'
    ∧ read_at (Ptr 0 1) σa' = Ok 5 σa'
    ∧ read_at (Ptr 0 2) σb' = Ok 5 σb'
    ∧ ¬ ∃ reference : unit → ptr,
          (∀ u σ', Vector.PushBack 0 5 σa = Ok u σ' → reference u = Ptr 0 1)
          ∧ (∀ u σ', Vector.PushBack 0 5 σb = Ok u σ' → reference u = Ptr 0 2).
Proof.
  intros σa σb.
  assert (∃ σa', Vector.PushBack 0 5 σa = Ok tt σa'
                 ∧ Vector.EmplaceBack 0 (Some 5) σa = Ok (Ptr 0 1) σa'
                 ∧ read_at (Ptr 0 1) σa' = Ok 5 σa') as (σa' & Pa & Ea & Ra).
  { eexists. split; [vm_compute; reflexivity|]. split; vm_compute; reflexivity. }
  assert (∃ σb', Vector.PushBack 0 5 σb = Ok tt σb'
                 ∧ Vector.EmplaceBack 0 (Some 5) σb = Ok (Ptr 0 2) σb'
                 ∧ read_at (Ptr 0 2) σb' = Ok 5 σb') as (σb' & Pb & Eb & Rb).
  { eexists. split; [vm_compute; reflexivity|]. split; vm_compute; reflexivity. }
  exists σa', σb'. repeat (split; [done|]).
  intros (f & Ha & Hb).
  specialize (Ha tt σa' Pa). specialize (Hb tt σb' Pb). congruence.
Qed.

(** C4.  On a vector holding [l1 ++ l2], inserting [x] at position
    [length l1] and then erasing at the position returned (that same
    position, in the block the vector has by then) leaves the elements
    and the size as they were before the insertion.  The insertion
    itself returns or, when a larger block is needed and cannot be had,
    throws [std::bad_alloc] without changing the state; with enough
    memory, or spare capacity, it returns. *)
Theorem Insert_Erase_round_trip {T} `{Regular T} (σ : state T) this buf cap l1 l2 x :
  repr σ this buf cap (l1 ++ l2) →
  let pos := position buf (Z.of_nat (length l1)) in
  let len := Z.of_nat (length (l1 ++ l2)) in
  (∀ q σ1, Vector.Insert this pos x σ = Ok q σ1 →
     contents σ1 this = Some (l1 ++ x :: l2)
     ∧ Vector.Size this σ1 = Ok (len + 1) σ1
     ∧ ∃ σ2, Vector.Erase this q σ1 = Ok q σ2
             ∧ contents σ2 this = contents σ this
             ∧ contents σ2 this = Some (l1 ++ l2)
             ∧ Vector.Size this σ2 = Ok len σ2
             ∧ Vector.Size this σ = Ok len σ)
  ∧ (∀ e σ1, Vector.Insert this pos x σ = Throw e σ1 → e = bad_alloc ∧ σ1 = σ)
  ∧ (∀ f, Vector.Insert this pos x σ ≠ Fault f)
  ∧ (len < cap
     ∨ (next_capacity cap len * sizeof_T ≤ PTRDIFF_MAX
        ∧ next_capacity cap len * sizeof_T ≤ avail σ) →
     ∃ q σ1, Vector.Insert this pos x σ = Ok q σ1).
Proof.
  intros R pos len.
  pose proof (Emplace_spec σ this buf cap l1 l2 x R) as Hspec. cbv zeta in Hspec.
  fold pos len in Hspec. unfold Vector.Insert. rewrite regular_copy_construct.
  destruct (decide _) as [Hd|Hd] in Hspec.
  - destruct Hspec as (b' & σ' & E & R' & _).
    split; [|split; [|split]]; [|congruence..|by eauto].
    intros q σ1 E1. rewrite E in E1. injection E1 as <- <-.
    split; [by apply repr_contents in R'|].
    split.
    { rewrite (repr_Size _ _ _ _ _ R'). do 2 f_equal. unfold len.
      rewrite !length_app. simpl. lia. }
    destruct (regular_shift_onto x l2) as [r Hr].
    destruct (Erase_spec _ _ _ _ _ _ _ _ _ R' Hr) as (σ2 & E2 & R2 & _).
    exists σ2. split; [done|].
    rewrite (repr_contents _ _ _ _ _ R2), (repr_contents _ _ _ _ _ R).
    rewrite (repr_Size _ _ _ _ _ R2), (repr_Size _ _ _ _ _ R). done.
  - split; [|split; [|split]]; [congruence| |congruence|done].
    intros e σ1 E1. rewrite Hspec in E1. by injection E1 as <- <-.
Qed.

Lemma Insert_Erase_round_trip_witness :
  let σ := one_vector [1; 2; 3] 4 in
  let σ1 := State {[0%nat := vec (Ptr 0 0) 4 4]}
                  {[0%nat := block_image [1; 9; 2; 3] 4]} 1000 [9] in
  repr σ 0 (Ptr 0 0) 4 ([1] ++ [2; 3])
  ∧ Vector.Insert 0 (position (Ptr 0 0) 1) 9 σ = Ok (Ptr 0 1) σ1
  ∧ contents σ1 0 = Some ([1] ++ 9 :: [2; 3])
  ∧ Vector.Size 0 σ1 = Ok (3 + 1) σ1
  ∧ ∃ σ2, Vector.Erase 0 (Ptr 0 1) σ1 = Ok (Ptr 0 1) σ2
          ∧ contents σ2 0 = contents σ 0
          ∧ contents σ2 0 = Some ([1] ++ [2; 3])
          ∧ Vector.Size 0 σ2 = Ok 3 σ2
          ∧ Vector.Size 0 σ = Ok 3 σ.
Proof.
  intros σ σ1.
  assert (repr σ 0 (Ptr 0 0) 4 ([1] ++ [2; 3])) as R by concrete_repr.
  assert (Vector.Insert 0 (position (Ptr 0 0) 1) 9 σ = Ok (Ptr 0 1) σ1) as E
    by (vm_compute; reflexivity).
  split; [exact R|]. split; [exact E|].
  exact (proj1 (Insert_Erase_round_trip σ 0%nat (Ptr 0 0) 4 [1] [2; 3] 9 R)
           (Ptr 0 1) σ1 E).
Defined.

(** C3.  Copy assignment [*this = rhs] between two distinct vectors.
    When [rhs] holds more elements than [*this] has capacity, a
    complete copy of [rhs] is built in a new block of exactly
    [rhs.size] slots and swapped in; whatever is thrown on that path,
    by the allocation or by a copy constructor, leaves every object and
    every block as it was.  Otherwise the block is reused: the common
    prefix is copy-assigned element by element, then the further
    elements of [rhs] are copy-constructed behind it, or the surplus
    elements of [*this] destructed, and the size is [rhs.size].  If
    copying hands the value over, the destination then holds the
    elements of [rhs], which is unchanged. *)
Theorem copy_assignment {T} `{Element T} (σ : state T) this rhs
    buf cap l bufr capr lr :
  this ≠ rhs →
  repr σ this buf cap l → repr σ rhs bufr capr lr → separate buf bufr →
  (cap < Z.of_nat (length lr) →
     (∀ ys, mapM copy_construct lr = Some ys →
            Z.of_nat (length lr) * sizeof_T ≤ avail σ →
        ∃ σ', Vector.assign this rhs σ = Ok tt σ'
              ∧ repr σ' this (Ptr (fresh (dom (heap σ))) 0) (Z.of_nat (length lr)) ys
              ∧ repr σ' rhs bufr capr lr
              ∧ dtor_log σ' = rev l ++ dtor_log σ)
     ∧ (∀ e σ', Vector.assign this rhs σ = Throw e σ' →
          objs σ' = objs σ ∧ heap σ' = heap σ ∧ avail σ' = avail σ))
  ∧ (Z.of_nat (length lr) ≤ cap →
     ∀ zs cs,
       mapM (λ dx, copy_assign dx.1 dx.2) (zip l lr) = Some zs →
       mapM copy_construct (drop (length l) lr) = Some cs →
       ∃ σ', Vector.assign this rhs σ = Ok tt σ'
             ∧ repr σ' this buf cap (zs ++ cs)
             ∧ length zs = (length l `min` length lr)%nat
             ∧ repr σ' rhs bufr capr lr
             ∧ dtor_log σ' = rev (drop (length lr) l) ++ dtor_log σ)
  ∧ ((∀ x, copy_construct x = Some x) → (∀ d x, copy_assign d x = Some x) →
     (cap < Z.of_nat (length lr) → Z.of_nat (length lr) * sizeof_T ≤ avail σ) →
     ∃ σ', Vector.assign this rhs σ = Ok tt σ'
           ∧ contents σ' this = Some lr
           ∧ Vector.Size this σ' = Ok (Z.of_nat (length lr)) σ'
           ∧ contents σ' rhs = Some lr).
Proof.
  intros Hne R Rr Hsep.
  assert (∀ ys, cap < Z.of_nat (length lr) →
            Forall2 (λ x y, copy_construct x = Some y) lr ys →
            Z.of_nat (length lr) * sizeof_T ≤ avail σ →
            ∃ σ', Vector.assign this rhs σ = Ok tt σ'
              ∧ repr σ' this (Ptr (fresh (dom (heap σ))) 0) (Z.of_nat (length lr)) ys
              ∧ repr σ' rhs bufr capr lr
              ∧ dtor_log σ' = rev l ++ dtor_log σ) as Hfresh.
  { intros ys Hbig Hys Hav.
    pose proof (repr_bounds _ _ _ _ _ R) as (Hlen & _).
    pose proof (repr_bounds _ _ _ _ _ Rr) as (Hlenr & _).
    destruct (repr_nonempty _ _ _ _ _ Rr) as (br & -> & _); [lia|].
    by eapply assign_fresh_ok. }
  split; [|split].
  - intros Hbig. split.
    + intros ys Hys Hav. apply Hfresh; [done| |done]. by apply mapM_Some_1.
    + intros e σ' E. by eapply assign_fresh_throw.
  - intros Hfit zs cs Hzs Hcs.
    apply mapM_Some_1 in Hzs, Hcs.
    destruct (assign_reuse σ this rhs buf cap l bufr capr lr zs cs)
      as (σ' & E & R' & Rr' & Hlog & _); [done..|].
    exists σ'. split; [done|]. split; [done|]. split; [|done].
    apply Forall2_length in Hzs. by rewrite length_zip in Hzs.
  - intros Hcopy Hassign Hmem.
    destruct (decide (cap < Z.of_nat (length lr))) as [Hbig|Hfit].
    + destruct (Hfresh lr Hbig (copies_of_values lr Hcopy) (Hmem Hbig))
        as (σ' & E & R' & Rr' & _).
      exists σ'. split; [done|].
      rewrite (repr_contents _ _ _ _ _ R'), (repr_contents _ _ _ _ _ Rr').
      by rewrite (repr_Size _ _ _ _ _ R').
    + destruct (assign_reuse σ this rhs buf cap l bufr capr lr
                  (take (length l) lr) (drop (length l) lr))
        as (σ' & E & R' & Rr' & _); [done..|lia| | |].
      { by apply assignments_of_values. }
      { by apply copies_of_values. }
      rewrite take_drop in R'.
      exists σ'. split; [done|].
      rewrite (repr_contents _ _ _ _ _ R'), (repr_contents _ _ _ _ _ Rr').
      by rewrite (repr_Size _ _ _ _ _ R').
Qed.

Lemma copy_assignment_witness :
  let σ := two_vectors [1; 2; 3] 4 [7; 8; 9; 10; 11] 8 in
  (0%nat ≠ 1%nat
   ∧ repr σ 0 (Ptr 0 0) 4 [1; 2; 3]
   ∧ repr σ 1 (Ptr 1 0) 8 [7; 8; 9; 10; 11]
   ∧ separate (Ptr 0 0) (Ptr 1 0))
  ∧ (4 < 5
     ∧ mapM copy_construct [7; 8; 9; 10; 11] = Some [7; 8; 9; 10; 11]
     ∧ 5 * sizeof_T ≤ avail σ)
  ∧ ∃ σ', Vector.assign 0 1 σ = Ok tt σ'
          ∧ repr σ' 0 (Ptr (fresh (dom (heap σ))) 0) 5 [7; 8; 9; 10; 11]
          ∧ repr σ' 1 (Ptr 1 0) 8 [7; 8; 9; 10; 11]
          ∧ dtor_log σ' = rev [1; 2; 3] ++ dtor_log σ.
Proof.
  intros σ.
  assert (0%nat ≠ 1%nat) as Hne by discriminate.
  assert (repr σ 0 (Ptr 0 0) 4 [1; 2; 3]) as R by concrete_repr.
  assert (repr σ 1 (Ptr 1 0) 8 [7; 8; 9; 10; 11]) as Rr by concrete_repr.
  assert (separate (Ptr 0 0) (Ptr 1 0)) as Hsep by exact Hne.
  assert (4 < 5) as Hbig by reflexivity.
  assert (mapM copy_construct [7; 8; 9; 10; 11] = Some [7; 8; 9; 10; 11]) as Hys
    by reflexivity.
  assert (5 * sizeof_T ≤ avail σ) as Hav by (vm_compute; congruence).
  split; [by repeat split|]. split; [by repeat split|].
  exact (proj1 (proj1 (copy_assignment σ 0%nat 1%nat _ _ _ _ _ _ Hne R Rr Hsep) Hbig)
           _ Hys Hav).
Defined.

(** ** Where the code departs from the claims *)

Section Defects.
Context {T : Type} `{Regular T}.

(** [Reserve] on a vector that has spare capacity: after the
    relocation, [std::destroy_n] is told to destroy [capacity] slots
    of the old block, not [size], and so reaches a raw slot. *)
Lemma Reserve_with_spare_capacity (σ : state T) this b cap l new_capacity :
  repr σ this (Ptr b 0) cap l →
  Z.of_nat (length l) < cap → cap < new_capacity →
  new_capacity * sizeof_T ≤ PTRDIFF_MAX → new_capacity * sizeof_T ≤ avail σ →
  Vector.Reserve this new_capacity σ = Fault Undefined.
Proof.
  intros R Hspare Hnew Hmax Hav.
  pose proof (repr_bounds _ _ _ _ _ R) as (Hlen & Hcap & _).
  pose proof R as [Hobj Hsz Hby (_ & Hpos & Hb)].
  destruct σ as [o h a d]. simpl_state.
  set (b' := fresh (dom h)).
  assert (b ≠ b') as Hne.
  { intros ->. pose proof (fresh_block h) as E. fold b' in E. congruence. }
  set (h1 := <[b' := replicate (Z.to_nat new_capacity) None]> h).
  destruct (CopyDataRange_ok o h1 (a - new_capacity * sizeof_T) d b 0
              (block_image l cap) b' 0 (replicate (Z.to_nat new_capacity) None) l)
    as (rs & Hrs & E); [done| |apply live_at_block_image| |..].
  { unfold h1. by rewrite lookup_insert_ne. }
  { unfold h1. apply lookup_insert_eq. }
  { rewrite length_replicate. lia. }
  change (Z.of_nat 0) with 0 in E.
  assert (length (block_image l cap) = Z.to_nat cap) as Hbl
    by (pose proof (block_image_length l cap); lia).
  unfold Vector.Reserve.
  rewrite (bind_Ok _ _ _ _ _ (load_ok _ _ _ _ _ _ Hobj)). simpl_vec.
  destruct (Z.leb_spec new_capacity cap); [lia|].
  erewrite bind_Ok; [|apply ctor_ok; lia]. fold b' h1. simpl_vec.
  erewrite bind_Ok; [|apply on_throw_Ok; exact E].
  erewrite bind_Ok; [|by apply put_data_ok].
  apply bind_Fault.
  eapply (destroy_n_reaches_raw _ _ _ _ _ _ rs).
  - rewrite lookup_insert_ne by done. apply lookup_insert_eq.
  - apply live_at_fill. lia.
  - rewrite lookup_fill_ge by lia. apply block_image_raw; lia.
  - lia.
Qed.

(** [Resize] to a size between the size and the capacity: no slot is
    constructed, and [size_] then counts raw slots. *)
Lemma Resize_between_size_and_capacity (σ : state T) this b cap l new_size :
  repr σ this (Ptr b 0) cap l →
  Z.of_nat (length l) < new_size → new_size < cap →
  ∃ σ', Vector.Resize this new_size σ = Ok tt σ'
        ∧ Vector.Size this σ' = Ok new_size σ'
        ∧ heap σ' = heap σ
        ∧ slot σ' (Ptr b (Z.of_nat (length l))) = Some None.
Proof.
  intros R Hlt Hcap.
  pose proof R as [Hobj Hsz Hby (_ & Hpos & Hb)].
  destruct σ as [o h a d]. simpl_state.
  eexists. split; [|split; [|split]].
  - unfold Vector.Resize.
    rewrite (bind_Ok _ _ _ _ _ (Capacity_ok _ _ _ _ _ _ Hobj)). simpl_vec.
    destruct (Z.geb_spec new_size cap); [lia|].
    erewrite bind_Ok.
    2:{ rewrite (bind_Ok _ _ _ _ _ (load_ok _ _ _ _ _ _ Hobj)). simpl_vec.
        replace (Z.to_nat (Z.of_nat (length l) - new_size)) with 0%nat by lia.
        reflexivity. }
    by apply put_size_ok.
  - by erewrite Size_ok by apply lookup_insert_eq.
  - done.
  - erewrite slot_lookup; [|done|lia].
    rewrite Nat2Z.id. apply block_image_raw; lia.
Qed.

End Defects.

(** C1 (the code departs from the claim).  A vector filled by
    [PushBack] of 1, 2, 3 has size 3 and capacity 4.  [Reserve(8)] on it
    relocates the three elements, and then runs the destructor on all
    four slots of the old block, the fourth of which holds no element:
    the behaviour is undefined, where the claim has only the old live
    elements destructed.  ([Reserve_with_spare_capacity] is the general
    statement; [Reserve_full], [Reserve_copy_throws] and
    [Reserve_bad_alloc] are what holds of the claim on a vector that is
    full.) *)
Theorem Reserve_destroys_raw_slot :
  let σ := State {[0%nat := vec (Ptr 2 0) 4 3]}
                 {[2%nat := block_image [1; 2; 3] 4]} 984 [2; 1; 1] in
  (Vector.ctor_default 0 ;; push_all 0 [1; 2; 3]) empty_state = Ok tt σ
  ∧ invariant σ 0 = true
  ∧ contents σ 0 = Some [1; 2; 3]
  ∧ Vector.Capacity 0 σ = Ok 4 σ
  ∧ Vector.Reserve 0 8 σ = Fault Undefined.
Proof. vm_compute. by repeat split. Qed.

(** C2 (the code departs from the claim).  A vector holding 1, 2, 3
    with capacity 8, as after [Reserve(8)] and three [PushBack]s:
    [Resize(5)] takes the branch for sizes below the capacity, whose
    loop destructs nothing, and sets the size to 5.  Slots 3 and 4 are
    still raw: the vector does not hold [1, 2, 3, 0, 0].
    ([Resize_between_size_and_capacity] is the general statement;
    [Resize_to_capacity] and [Resize_grows_full] are the cases in which
    the new slots do hold default values.) *)
Theorem Resize_below_capacity_constructs_nothing :
  let σ := State {[0%nat := vec (Ptr 0 0) 8 3]}
                 {[0%nat := block_image [1; 2; 3] 8]} 968 [] in
  let σ' := State {[0%nat := vec (Ptr 0 0) 8 5]}
                  {[0%nat := block_image [1; 2; 3] 8]} 968 [] in
  (Vector.ctor_default 0 ;; Vector.Reserve 0 8 ;; push_all 0 [1; 2; 3]) empty_state
  = Ok tt σ
  ∧ contents σ 0 = Some [1; 2; 3]
  ∧ Vector.Resize 0 5 σ = Ok tt σ'
  ∧ Vector.Size 0 σ' = Ok 5 σ'
  ∧ slot σ' (Ptr 0 3) = Some None
  ∧ slot σ' (Ptr 0 4) = Some None
  ∧ contents σ' 0 ≠ Some [1; 2; 3; 0; 0].
Proof. vm_compute. by repeat split. Qed.

(** C8 (the code departs from the claim).  On the same vector, which
    satisfies the invariant, [Resize(5)] returns normally in a state
    that violates it: [size_] is 5 and at most the capacity, but the
    slots below [size_] are not all constructed elements. *)
Theorem Resize_breaks_invariant :
  let σ := State {[0%nat := vec (Ptr 0 0) 8 3]}
                 {[0%nat := block_image [1; 2; 3] 8]} 968 [] in
  invariant σ 0 = true
  ∧ ∃ σ', Vector.Resize 0 5 σ = Ok tt σ'
          ∧ Vector.Size 0 σ' = Ok 5 σ'
          ∧ Vector.Capacity 0 σ' = Ok 8 σ'
          ∧ invariant σ' 0 = false.
Proof.
  split; [reflexivity|].
  eexists. split; [vm_compute; reflexivity|]. vm_compute. by repeat split.
Qed.

(** * Further properties of [vector.h] *)

(** ** Element access and iterators *)

(** X1.  [operator[]] of [Vector]: for an index below the size it
    yields the address [begin() + i], at which the [i]-th element is
    read; for every index from the size on, the assertion fails. *)
Theorem subscript_bounds {T} `{Element T} (σ : state T) this buf cap l :
  repr σ this buf cap l →
  (∀ i x, l !! i = Some x →
     Vector.subscript this (Z.of_nat i) σ = Ok (position buf (Z.of_nat i)) σ
     ∧ read_at (position buf (Z.of_nat i)) σ = Ok x σ)
  ∧ (∀ i, Z.of_nat (length l) ≤ i →
       Vector.subscript this i σ = Fault AssertionFailed).
Proof.
  intros R. pose proof (repr_bounds _ _ _ _ _ R) as (Hlen & Hcap & _).
  split.
  - intros i x Hx. pose proof (lookup_lt_Some _ _ _ Hx) as Hi.
    destruct (repr_nonempty _ _ _ _ _ R) as (b & -> & Hb); [lia|].
    destruct R as [Hobj _ _ _]. destruct σ as [o h a d]. simpl_state.
    simpl. split.
    + unfold Vector.subscript.
      rewrite (bind_Ok _ _ _ _ _ (load_ok _ _ _ _ _ _ Hobj)). simpl_vec.
      destruct (Z.ltb_spec (Z.of_nat i) (Z.of_nat (length l))); [|lia].
      simpl. apply subscript_ok. lia.
    + eapply read_at_ok; [done|lia|].
      replace (Z.to_nat (0 + Z.of_nat i)) with i by lia. by apply block_image_lookup.
  - intros i Hi. destruct R as [Hobj _ _ _]. destruct σ as [o h a d]. simpl_state.
    unfold Vector.subscript.
    rewrite (bind_Ok _ _ _ _ _ (load_ok _ _ _ _ _ _ Hobj)). simpl_vec.
    by destruct (Z.ltb_spec i (Z.of_nat (length l))); [lia|].
Qed.

Lemma subscript_bounds_witness :
  repr (one_vector [1; 2; 3] 4) 0 (Ptr 0 0) 4 [1; 2; 3]
  ∧ (Vector.subscript 0 (Z.of_nat 1) (one_vector [1; 2; 3] 4)
       = Ok (position (Ptr 0 0) (Z.of_nat 1)) (one_vector [1; 2; 3] 4)
     ∧ read_at (position (Ptr 0 0) (Z.of_nat 1)) (one_vector [1; 2; 3] 4)
       = Ok 2 (one_vector [1; 2; 3] 4))
  ∧ Vector.subscript 0 3 (one_vector [1; 2; 3] 4) = Fault AssertionFailed.
Proof.
  assert (repr (one_vector [1; 2; 3] 4) 0 (Ptr 0 0) 4 [1; 2; 3]) as R
    by concrete_repr.
  split; [exact R|]. split.
  - exact (proj1 (subscript_bounds _ _ _ _ _ R) 1%nat 2 eq_refl).
  - apply (proj2 (subscript_bounds _ _ _ _ _ R) 3). vm_compute. congruence.
Defined.

(** X2.  [begin()] and [end()] delimit the elements: [end() - begin()]
    is the size, [begin() + i] designates the [i]-th element for every
    [i] below the size, and [end()] itself designates no element.  On a
    vector without storage both are null. *)
Theorem iterators_delimit_elements {T} `{Element T} (σ : state T) this buf cap l :
  repr σ this buf cap l →
  Vector.begin this σ = Ok buf σ
  ∧ Vector.end_ this σ = Ok (position buf (Z.of_nat (length l))) σ
  ∧ ptr_diff (position buf (Z.of_nat (length l))) buf = Some (Z.of_nat (length l))
  ∧ (∀ i x, l !! i = Some x → read_at (position buf (Z.of_nat i)) σ = Ok x σ)
  ∧ read_at (position buf (Z.of_nat (length l))) σ = Fault Undefined
  ∧ (buf = NullPtr → l = []).
Proof.
  intros R. pose proof (repr_bounds _ _ _ _ _ R) as (Hlen & Hcap & _).
  pose proof R as [Hobj Hsz Hby Hblk].
  destruct σ as [o h a d]. simpl_state.
  split; [by rewrite (begin_ok _ _ _ _ _ _ Hobj)|].
  destruct buf as [|b off].
  - assert (l = []) as -> by (destruct l; [done|simpl in *; lia]).
    simpl. split; [|by repeat split].
    unfold Vector.end_. rewrite (bind_Ok _ _ _ _ _ (load_ok _ _ _ _ _ _ Hobj)).
    simpl. by rewrite (begin_ok _ _ _ _ _ _ Hobj).
  - destruct Hblk as (-> & Hpos & Hb). simpl.
    split; [by apply (repr_end _ _ _ _ _ R)|].
    split; [rewrite decide_True by done; f_equal; lia|].
    split; [|split; [|done]].
    + intros i x Hx. pose proof (lookup_lt_Some _ _ _ Hx).
      eapply read_at_ok; [done|lia|].
      replace (Z.to_nat (0 + Z.of_nat i)) with i by lia. by apply block_image_lookup.
    + unfold read_at. erewrite slot_lookup; [|done|lia].
      replace (Z.to_nat (0 + Z.of_nat (length l))) with (length l) by lia.
      destruct (decide (Z.of_nat (length l) < cap)).
      * by rewrite block_image_raw by lia.
      * rewrite lookup_ge_None_2; [done|].
        pose proof (block_image_length l cap). lia.
Qed.

Lemma iterators_delimit_elements_witness :
  repr (one_vector [1; 2; 3] 4) 0 (Ptr 0 0) 4 [1; 2; 3]
  ∧ Vector.begin 0 (one_vector [1; 2; 3] 4) = Ok (Ptr 0 0) (one_vector [1; 2; 3] 4)
  ∧ Vector.end_ 0 (one_vector [1; 2; 3] 4)
    = Ok (position (Ptr 0 0) (Z.of_nat (length [1; 2; 3]))) (one_vector [1; 2; 3] 4).
Proof.
  assert (repr (one_vector [1; 2; 3] 4) 0 (Ptr 0 0) 4 [1; 2; 3]) as R
    by concrete_repr.
  split; [exact R|].
  pose proof (iterators_delimit_elements _ _ _ _ _ R) as (Hb & He & _).
  by split.
Defined.

(** ** Move construction, swapping and move assignment *)

(** X3.  The move constructor takes over the storage of [other]: the
    new vector has its block, capacity and elements, and [other] is
    left as a valid empty vector without storage.  Nothing is
    allocated, no element is constructed, moved or destructed. *)
Theorem ctor_move_steals {T} `{Element T} (σ : state T) this other buf cap l :
  this ≠ other → repr σ other buf cap l →
  ∃ σ', Vector.ctor_move this other σ = Ok tt σ'
        ∧ repr σ' this buf cap l
        ∧ repr σ' other NullPtr 0 []
        ∧ heap σ' = heap σ ∧ avail σ' = avail σ ∧ dtor_log σ' = dtor_log σ.
Proof.
  intros Hne [Hobj Hsz Hby Hblk]. destruct σ as [o h a d]. simpl_state.
  eexists. split; [|split; [|split]].
  - unfold Vector.ctor_move.
    rewrite (bind_Ok _ _ _ _ _ (load_ok _ _ _ _ _ _ Hobj)). reflexivity.
  - split; simpl; [by rewrite lookup_insert_eq|done|done|done].
  - split; simpl.
    + by rewrite lookup_insert_ne, lookup_insert_eq.
    + lia.
    + unfold PTRDIFF_MAX. lia.
    + done.
  - done.
Qed.

Lemma ctor_move_steals_witness :
  1%nat ≠ 0%nat
  ∧ repr (one_vector [1; 2; 3] 4) 0 (Ptr 0 0) 4 [1; 2; 3]
  ∧ ∃ σ', Vector.ctor_move 1 0 (one_vector [1; 2; 3] 4) = Ok tt σ'
          ∧ repr σ' 1 (Ptr 0 0) 4 [1; 2; 3]
          ∧ repr σ' 0 NullPtr 0 []
          ∧ heap σ' = heap (one_vector [1; 2; 3] 4)
          ∧ avail σ' = avail (one_vector [1; 2; 3] 4)
          ∧ dtor_log σ' = dtor_log (one_vector [1; 2; 3] 4).
Proof.
  assert (1%nat ≠ 0%nat) as Hne by discriminate.
  assert (repr (one_vector [1; 2; 3] 4) 0 (Ptr 0 0) 4 [1; 2; 3]) as R
    by concrete_repr.
  split; [exact Hne|]. split; [exact R|].
  exact (ctor_move_steals _ 1%nat 0%nat _ _ _ Hne R).
Defined.

(** X4.  [Swap] exchanges the storage, capacity, size and elements of
    two vectors.  The blocks stay where they are; nothing is allocated
    and no element is touched. *)
Theorem Swap_exchanges {T} `{Element T} (σ : state T) this other
    buf cap l bufo capo lo :
  this ≠ other → repr σ this buf cap l → repr σ other bufo capo lo →
  ∃ σ', Vector.Swap this other σ = Ok tt σ'
        ∧ repr σ' this bufo capo lo
        ∧ repr σ' other buf cap l
        ∧ heap σ' = heap σ ∧ avail σ' = avail σ ∧ dtor_log σ' = dtor_log σ.
Proof.
  intros Hne [Hobj Hsz Hby Hblk] [Hobjo Hszo Hbyo Hblko].
  destruct σ as [o h a d]. simpl_state.
  eexists. split; [by apply Swap_ok|].
  split; [|split; [|done]].
  - split; simpl; [|done..].
    by rewrite lookup_insert_ne, lookup_insert_eq.
  - split; simpl; [|done..].
    by rewrite lookup_insert_eq.
Qed.

Lemma Swap_exchanges_witness :
  let σ := two_vectors [1; 2; 3] 4 [7; 8] 2 in
  (0%nat ≠ 1%nat
   ∧ repr σ 0 (Ptr 0 0) 4 [1; 2; 3] ∧ repr σ 1 (Ptr 1 0) 2 [7; 8])
  ∧ ∃ σ', Vector.Swap 0 1 σ = Ok tt σ'
          ∧ repr σ' 0 (Ptr 1 0) 2 [7; 8]
          ∧ repr σ' 1 (Ptr 0 0) 4 [1; 2; 3]
          ∧ heap σ' = heap σ ∧ avail σ' = avail σ ∧ dtor_log σ' = dtor_log σ.
Proof.
  intros σ.
  assert (0%nat ≠ 1%nat) as Hne by discriminate.
  assert (repr σ 0 (Ptr 0 0) 4 [1; 2; 3]) as R by concrete_repr.
  assert (repr σ 1 (Ptr 1 0) 2 [7; 8]) as Rr by concrete_repr.
  split; [by repeat split|].
  exact (Swap_exchanges σ 0%nat 1%nat _ _ _ _ _ _ Hne R Rr).
Defined.

(** X5.  Swapping twice restores the state exactly, and swapping a
    vector with itself changes nothing. *)
Theorem Swap_twice {T} `{Element T} (σ : state T) this other v w :
  objs σ !! this = Some v → objs σ !! other = Some w →
  (Vector.Swap this other ;; Vector.Swap this other) σ = Ok tt σ
  ∧ Vector.Swap this this σ = Ok tt σ.
Proof.
  intros Hv Hw. destruct σ as [o h a d]. simpl_state.
  assert (Vector.Swap this this (State o h a d) = Ok tt (State o h a d)) as Hself.
  { unfold Vector.Swap.
    rewrite (bind_Ok _ _ _ _ _ (load_ok _ _ _ _ _ _ Hv)).
    rewrite (bind_Ok _ _ _ _ _ (load_ok _ _ _ _ _ _ Hv)).
    simpl_vec.
    erewrite bind_Ok; [|by apply put_data_ok].
    erewrite bind_Ok; [|by apply put_data_ok, lookup_insert_eq].
    erewrite bind_Ok; [|by apply load_ok, lookup_insert_eq].
    erewrite bind_Ok; [|by apply load_ok, lookup_insert_eq].
    erewrite bind_Ok; [|by apply put_size_ok, lookup_insert_eq].
    erewrite put_size_ok; [|by apply lookup_insert_eq].
    simpl. rewrite !insert_insert_eq.
    destruct v as [[bv cv] nv]. simpl. by rewrite insert_id. }
  split; [|done].
  destruct (decide (this = other)) as [->|Hne].
  - by rewrite (bind_Ok _ _ _ _ _ Hself).
  - rewrite (bind_Ok _ _ _ _ _ (Swap_ok _ _ _ _ _ _ _ _ Hne Hv Hw)).
    erewrite Swap_ok; [|done| |].
    2:{ by rewrite lookup_insert_ne, lookup_insert_eq. }
    2:{ by rewrite lookup_insert_eq. }
    do 2 f_equal. apply map_eq. intros k.
    destruct (decide (k = other)) as [->|]; [by rewrite lookup_insert_eq|].
    rewrite lookup_insert_ne by done.
    destruct (decide (k = this)) as [->|]; [by rewrite lookup_insert_eq|].
    by rewrite !lookup_insert_ne.
Qed.

Lemma Swap_twice_witness :
  let σ := two_vectors [1; 2; 3] 4 [7; 8] 2 in
  (objs σ !! 0%nat = Some (vec (Ptr 0 0) 4 3)
   ∧ objs σ !! 1%nat = Some (vec (Ptr 1 0) 2 2))
  ∧ (Vector.Swap 0 1 ;; Vector.Swap 0 1) σ = Ok tt σ
  ∧ Vector.Swap 0 0 σ = Ok tt σ.
Proof.
  intros σ.
  assert (objs σ !! 0%nat = Some (vec (Ptr 0 0) 4 3)) as Hv by reflexivity.
  assert (objs σ !! 1%nat = Some (vec (Ptr 1 0) 2 2)) as Hw by reflexivity.
  split; [by split|].
  exact (Swap_twice σ 0%nat 1%nat _ _ Hv Hw).
Defined.

(** X6.  Move assignment between two distinct vectors hands the
    storage and elements of [rhs] to [*this] and those of [*this] to
    [rhs]: the old elements of [*this] are not destructed, they now
    belong to [rhs].  Move-assigning a vector to itself changes
    nothing.  Neither allocates or touches an element. *)
Theorem assign_move_hands_over {T} `{Element T} (σ : state T) this rhs
    buf cap l bufr capr lr :
  repr σ this buf cap l → repr σ rhs bufr capr lr →
  Vector.assign_move this this σ = Ok tt σ
  ∧ (this ≠ rhs →
     ∃ σ', Vector.assign_move this rhs σ = Ok tt σ'
           ∧ repr σ' this bufr capr lr
           ∧ repr σ' rhs buf cap l
           ∧ heap σ' = heap σ ∧ avail σ' = avail σ ∧ dtor_log σ' = dtor_log σ).
Proof.
  intros R Rr. split.
  - unfold Vector.assign_move. by rewrite decide_True.
  - intros Hne. destruct R as [Hobj Hsz Hby Hblk], Rr as [Hobjo Hszo Hbyo Hblko].
    destruct σ as [o h a d]. simpl_state.
    eexists. split; [|split; [|split]].
    + unfold Vector.assign_move. rewrite decide_False by done.
      apply noexcept_Ok. by apply Swap_ok.
    + split; simpl; [|done..]. by rewrite lookup_insert_ne, lookup_insert_eq.
    + split; simpl; [|done..]. by rewrite lookup_insert_eq.
    + done.
Qed.

Lemma assign_move_hands_over_witness :
  let σ := two_vectors [1; 2; 3] 4 [7; 8] 2 in
  (repr σ 0 (Ptr 0 0) 4 [1; 2; 3] ∧ repr σ 1 (Ptr 1 0) 2 [7; 8])
  ∧ Vector.assign_move 0 0 σ = Ok tt σ
  ∧ (0%nat ≠ 1%nat →
     ∃ σ', Vector.assign_move 0 1 σ = Ok tt σ'
           ∧ repr σ' 0 (Ptr 1 0) 2 [7; 8]
           ∧ repr σ' 1 (Ptr 0 0) 4 [1; 2; 3]
           ∧ heap σ' = heap σ ∧ avail σ' = avail σ ∧ dtor_log σ' = dtor_log σ).
Proof.
  intros σ.
  assert (repr σ 0 (Ptr 0 0) 4 [1; 2; 3]) as R by concrete_repr.
  assert (repr σ 1 (Ptr 1 0) 2 [7; 8]) as Rr by concrete_repr.
  split; [by split|].
  exact (assign_move_hands_over σ 0%nat 1%nat _ _ _ _ _ _ R Rr).
Defined.

(** ** Construction and destruction *)

Section Construction.
Context {T : Type} `{Element T}.
Implicit Types (h : gmap nat (list (option T))) (o : gmap nat Vector).

(** [std::uninitialized_value_construct_n] for an element type whose
    value-initialisation yields [v]. *)
Lemma value_construct_rounds o h a (d : list T) b off blk n v :
  value_init = Some v →
  h !! b = Some blk → (off + Z.to_nat n ≤ length blk)%nat →
  uninitialized_value_construct_n (Ptr b (Z.of_nat off)) n (State o h a d)
  = Ok tt (State o (<[b := fill off (replicate (Z.to_nat n) v) blk]> h) a d).
Proof.
  intros Hv Hb Hlen. unfold uninitialized_value_construct_n.
  edestruct (repeat_from_invariant
    (λ k σ, σ = State o (<[b := fill off (replicate k v) blk]> h) a d))
    as (σ' & -> & ->); [| |done].
  { simpl. by rewrite fill_nil, insert_id. }
  intros k σ Hk ->. eexists. split; [|reflexivity].
  apply on_throw_Ok.
  rewrite Hv. simpl. rewrite ret_bind.
  rewrite (bind_Ok _ _ _ _ _ (at_offset_Ptr _ _ _ _)).
  erewrite construct_at_ok; [|apply lookup_insert_eq|lia|].
  2:{ rewrite length_fill; rewrite ?length_replicate; lia. }
  rewrite insert_insert_eq. do 3 f_equal.
  replace (Z.to_nat (Z.of_nat off + (0 + Z.of_nat k))) with (off + k)%nat by lia.
  change (v :: replicate k v) with (replicate (Datatypes.S k) v).
  rewrite replicate_S_end.
  rewrite <- fill_snoc by (rewrite length_replicate; lia).
  by rewrite length_replicate.
Qed.

(** The first value-initialisation throws: nothing was constructed. *)
Lemma value_construct_throws (σ : state T) (p : ptr) n :
  value_init = None → 0 < n →
  uninitialized_value_construct_n p n σ = Throw element_exception σ.
Proof.
  intros Hv Hn. unfold uninitialized_value_construct_n.
  destruct (Z.to_nat n) as [|k] eqn:E; [lia|].
  rewrite repeat_from_S. apply bind_Throw.
  eapply on_throw_Throw; [|apply destroy_n_0].
  by rewrite Hv.
Qed.

(** The copy of a vector that holds no element has no storage. *)
Lemma ctor_copy_empty o h a (d : list T) c rhs bufr capr :
  o !! rhs = Some (vec bufr capr 0) →
  Vector.ctor_copy c rhs (State o h a d)
  = Ok tt (State (<[c := vec NullPtr 0 0]> o) h a d).
Proof.
  intros Hrhs. unfold Vector.ctor_copy.
  by rewrite (bind_Ok _ _ _ _ _ (load_ok _ _ _ _ _ _ Hrhs)).
Qed.

End Construction.

(** X7.  [Vector(size)] builds [size] value-initialised elements in a
    block of exactly [size] slots, so that capacity and size are both
    [size]; for [size = 0] it allocates nothing and the vector has no
    storage.  No destructor runs. *)
Theorem ctor_sized_builds {T} `{Regular T} (σ : state T) this n :
  0 ≤ n → n * sizeof_T ≤ PTRDIFF_MAX → n * sizeof_T ≤ avail σ →
  ∃ σ' buf, Vector.ctor_sized this n σ = Ok tt σ'
            ∧ repr σ' this buf n (replicate (Z.to_nat n) regular_default)
            ∧ avail σ' = avail σ - n * sizeof_T
            ∧ dtor_log σ' = dtor_log σ
            ∧ (n = 0 → buf = NullPtr ∧ heap σ' = heap σ).
Proof.
  intros Hn Hmax Hav. destruct σ as [o h a d]. simpl_state.
  destruct (decide (n = 0)) as [->|Hpos].
  - exists (State (<[this := vec NullPtr 0 0]> o) h a d), NullPtr.
    split; [done|]. split; [|by repeat split; simpl; try lia].
    split; simpl; [by rewrite lookup_insert_eq|lia|done|done].
  - eexists _, (Ptr (fresh (dom h)) 0). split; [|split; [|split; [|split]]].
    + unfold Vector.ctor_sized.
      erewrite bind_Ok; [|apply ctor_ok; lia]. simpl_vec.
      erewrite bind_Ok; [reflexivity|].
      apply on_throw_Ok.
      eapply (value_construct_rounds _ _ _ _ _ 0%nat _ _ regular_default);
        [apply regular_value_init|apply lookup_insert_eq|].
      rewrite length_replicate. lia.
    + split; simpl.
      * rewrite lookup_insert_eq. unfold vec. do 2 f_equal.
        rewrite length_replicate. lia.
      * rewrite length_replicate. lia.
      * done.
      * split; [done|]. split; [lia|].
        rewrite insert_insert_eq, lookup_insert_eq. f_equal.
        rewrite fill_replicate by (by rewrite length_replicate).
        f_equal. lia.
    + done.
    + done.
    + intros ->. lia.
Qed.

Lemma ctor_sized_builds_witness :
  (0 ≤ 3 ∧ 3 * sizeof_T ≤ PTRDIFF_MAX ∧ 3 * sizeof_T ≤ avail empty_state)
  ∧ ∃ σ' buf, Vector.ctor_sized 0 3 empty_state = Ok tt σ'
              ∧ repr σ' 0 buf 3 (replicate (Z.to_nat 3) regular_default)
              ∧ avail σ' = avail empty_state - 3 * sizeof_T
              ∧ dtor_log σ' = dtor_log empty_state
              ∧ (3 = 0 → buf = NullPtr ∧ heap σ' = heap empty_state).
Proof.
  assert (0 ≤ 3) as H0 by (vm_compute; congruence).
  assert (3 * sizeof_T ≤ PTRDIFF_MAX) as H1 by (vm_compute; congruence).
  assert (3 * sizeof_T ≤ avail empty_state) as H2 by (vm_compute; congruence).
  split; [by repeat split|].
  exact (ctor_sized_builds empty_state 0%nat 3 H0 H1 H2).
Defined.

(** X8.  [Vector(size)] when the default constructor of the element
    type throws, or when the allocation fails.  These are the only ways
    in which it throws.  If the allocation fails, nothing was obtained;
    if the default constructor throws, which it does for the first
    element, the block obtained for the [size] elements has been
    released.  Either way the state is exactly what it was. *)
Theorem ctor_sized_failure {T} `{Element T} (σ σ' : state T) this n e :
  0 ≤ n → n * sizeof_T < 2 ^ 64 →
  Vector.ctor_sized this n σ = Throw e σ' →
  σ' = σ
  ∧ (e = bad_alloc ∧ ¬ (n * sizeof_T ≤ PTRDIFF_MAX ∧ n * sizeof_T ≤ avail σ)
     ∨ e = element_exception ∧ value_init = None
       ∧ ∃ data σ1, RawMemory.ctor n σ = Ok data σ1
                    ∧ avail σ1 = avail σ - n * sizeof_T
                    ∧ RawMemory.dtor data σ1 = Ok tt σ).
Proof.
  intros Hn Hfit Hthrow. pose proof sizeof_T_pos.
  destruct σ as [o h a d].
  destruct (decide (n = 0)) as [->|Hpos]; [done|].
  unfold Vector.ctor_sized in Hthrow.
  destruct (decide (n * sizeof_T ≤ PTRDIFF_MAX ∧ n * sizeof_T ≤ a)) as [[Hmax Hav]|Hno].
  - pose proof (ctor_ok o h a d n ltac:(lia) Hmax Hav) as Hctor.
    rewrite (bind_Ok _ _ _ _ _ Hctor) in Hthrow.
    cbn [RawMemory.GetAddress buffer_ capacity_] in Hthrow.
    assert (RawMemory.dtor {| buffer_ := Ptr (fresh (dom h)) 0; capacity_ := n |}
              (State o (<[fresh (dom h) := replicate (Z.to_nat n) None]> h)
                     (a - n * sizeof_T) d)
            = Ok tt (State o h a d)) as Hdtor.
    { erewrite dtor_ok; [|apply lookup_insert_eq].
      rewrite delete_insert_id by apply fresh_block.
      rewrite length_replicate. do 2 f_equal. lia. }
    destruct value_init as [v|] eqn:Hv.
    + erewrite bind_Ok in Hthrow; [done|].
      apply on_throw_Ok.
      eapply (value_construct_rounds _ _ _ _ _ 0%nat _ _ v);
        [done|apply lookup_insert_eq|].
      rewrite length_replicate. lia.
    + erewrite bind_Throw in Hthrow.
      2:{ eapply on_throw_Throw; [apply value_construct_throws; [done|lia]|].
          exact Hdtor. }
      injection Hthrow as <- <-.
      split; [done|]. right. split; [done|]. split; [done|].
      eexists _, _. split; [exact Hctor|]. split; [done|exact Hdtor].
  - erewrite bind_Throw in Hthrow; [|apply ctor_bad_alloc; [lia|done|done]].
    injection Hthrow as <- <-. split; [done|]. by left.
Qed.

Lemma ctor_sized_failure_witness :
  (0 ≤ 3 ∧ 3 * @sizeof_T Z no_default_element < 2 ^ 64
   ∧ @Vector.ctor_sized Z no_default_element 0 3 empty_state
     = Throw element_exception empty_state)
  ∧ empty_state = empty_state
  ∧ (element_exception = bad_alloc
     ∧ ¬ (3 * @sizeof_T Z no_default_element ≤ PTRDIFF_MAX
          ∧ 3 * @sizeof_T Z no_default_element ≤ avail empty_state)
     ∨ element_exception = element_exception
       ∧ @value_init Z no_default_element = None
       ∧ ∃ data σ1, @RawMemory.ctor Z no_default_element 3 empty_state = Ok data σ1
                    ∧ avail σ1 = avail empty_state - 3 * @sizeof_T Z no_default_element
                    ∧ @RawMemory.dtor Z no_default_element data σ1 = Ok tt empty_state).
Proof.
  assert (0 ≤ 3) as H0 by (vm_compute; congruence).
  assert (3 * @sizeof_T Z no_default_element < 2 ^ 64) as H1 by reflexivity.
  assert (@Vector.ctor_sized Z no_default_element 0 3 empty_state
          = Throw element_exception empty_state) as E
    by (vm_compute; reflexivity).
  split; [by repeat split|].
  exact (@ctor_sized_failure Z no_default_element empty_state empty_state 0%nat 3
           element_exception H0 H1 E).
Defined.

(** X9.  The copy constructor makes a deep copy: the new vector holds
    the copies of the elements of [other] in a block of its own of
    exactly [other.size] slots (the capacity of [other] is not copied;
    the copy of a vector without elements has no storage), and [other]
    is unchanged.  No destructor runs. *)
Theorem ctor_copy_deep_copy {T} `{Element T} (σ : state T) c rhs bufr capr lr ys :
  objs σ !! c = None →
  repr σ rhs bufr capr lr →
  mapM copy_construct lr = Some ys →
  Z.of_nat (length lr) * sizeof_T ≤ avail σ →
  ∃ σ' buf, Vector.ctor_copy c rhs σ = Ok tt σ'
            ∧ repr σ' c buf (Z.of_nat (length lr)) ys
            ∧ repr σ' rhs bufr capr lr
            ∧ separate buf bufr
            ∧ (lr = [] → buf = NullPtr)
            ∧ avail σ' = avail σ - Z.of_nat (length lr) * sizeof_T
            ∧ dtor_log σ' = dtor_log σ.
Proof.
  intros Hc R Hys Hav. apply mapM_Some_1 in Hys.
  pose proof (Forall2_length _ _ _ Hys) as Hlen.
  pose proof (repr_bounds _ _ _ _ _ R) as (Hlenr & Hcapr & Hbyr).
  pose proof sizeof_T_pos.
  assert (c ≠ rhs) as Hne.
  { intros ->. destruct R as [Hobj _ _ _]. congruence. }
  destruct (decide (lr = [])) as [->|Hnil].
  - destruct ys; [|done].
    pose proof R as [Hobj _ _ _]. destruct σ as [o h a d]. simpl_state.
    eexists _, NullPtr. split; [exact (ctor_copy_empty _ _ _ _ _ _ _ _ Hobj)|].
    split; [|split; [|split; [done|split; [done|split; [simpl; lia|done]]]]].
    + split; simpl; [by rewrite lookup_insert_eq|lia|unfold PTRDIFF_MAX; lia|done].
    + eapply repr_frame; [done| |done]. simpl. by rewrite lookup_insert_ne.
  - assert (0 < length lr)%nat as Hpos by (destruct lr; [done|simpl; lia]).
    destruct (repr_nonempty _ _ _ _ _ R) as (br & -> & Hbr); [lia|].
    pose proof R as [Hobj _ _ _]. destruct σ as [o h a d]. simpl_state.
    assert (br ≠ fresh (dom h)) as Hfresh.
    { intros ->. pose proof (fresh_block h). congruence. }
    eexists _, (Ptr (fresh (dom h)) 0).
    split; [eapply ctor_copy_ok; [done|done|done| |done|done]|].
    { unfold PTRDIFF_MAX in *. nia. }
    split; [|split; [|split; [|split; [|split]]]].
    + split; simpl.
      * rewrite lookup_insert_eq. unfold vec. do 2 f_equal. lia.
      * lia.
      * unfold PTRDIFF_MAX in *. nia.
      * split; [done|]. split; [lia|]. by rewrite lookup_insert_eq.
    + eapply repr_frame; [done| |]; simpl.
      * by rewrite lookup_insert_ne.
      * intros b off [= <- <-]. by rewrite lookup_insert_ne.
    + simpl. done.
    + done.
    + done.
    + done.
Qed.

Lemma ctor_copy_deep_copy_witness :
  let σ := one_vector [1; 2; 3] 4 in
  (objs σ !! 1%nat = None
   ∧ repr σ 0 (Ptr 0 0) 4 [1; 2; 3]
   ∧ mapM copy_construct [1; 2; 3] = Some [1; 2; 3]
   ∧ Z.of_nat (length [1; 2; 3]) * sizeof_T ≤ avail σ)
  ∧ ∃ σ' buf, Vector.ctor_copy 1 0 σ = Ok tt σ'
              ∧ repr σ' 1 buf (Z.of_nat (length [1; 2; 3])) [1; 2; 3]
              ∧ repr σ' 0 (Ptr 0 0) 4 [1; 2; 3]
              ∧ separate buf (Ptr 0 0)
              ∧ ([1; 2; 3] = [] → buf = NullPtr)
              ∧ avail σ' = avail σ - Z.of_nat (length [1; 2; 3]) * sizeof_T
              ∧ dtor_log σ' = dtor_log σ.
Proof.
  intros σ.
  assert (objs σ !! 1%nat = None) as Hc by reflexivity.
  assert (repr σ 0 (Ptr 0 0) 4 [1; 2; 3]) as R by concrete_repr.
  assert (mapM copy_construct [1; 2; 3] = Some [1; 2; 3]) as Hys by reflexivity.
  assert (Z.of_nat (length [1; 2; 3]) * sizeof_T ≤ avail σ) as Hav
    by (vm_compute; congruence).
  split; [by repeat split|].
  exact (ctor_copy_deep_copy σ 1%nat 0%nat _ _ _ _ Hc R Hys Hav).
Defined.

(** X10.  If the copy constructor throws, from the allocation or from
    the copy constructor of an element, the copies made so far have
    been destructed and the new block released: every object, every
    block and the free store are as before. *)
Theorem ctor_copy_failure {T} `{Element T} (σ σ' : state T) c rhs bufr capr lr e :
  repr σ rhs bufr capr lr →
  Vector.ctor_copy c rhs σ = Throw e σ' →
  objs σ' = objs σ ∧ heap σ' = heap σ ∧ avail σ' = avail σ.
Proof.
  intros R Hthrow.
  pose proof (repr_bounds _ _ _ _ _ R) as (Hlenr & Hcapr & Hbyr).
  pose proof sizeof_T_pos.
  assert (Z.of_nat (length lr) * sizeof_T ≤ PTRDIFF_MAX) as Hmax
    by (unfold PTRDIFF_MAX in *; nia).
  pose proof R as [Hobj _ _ _]. destruct σ as [o h a d]. simpl_state.
  destruct (decide (lr = [])) as [->|Hnil].
  { by rewrite (ctor_copy_empty _ _ _ _ _ _ _ _ Hobj) in Hthrow. }
  assert (0 < length lr)%nat as Hpos by (destruct lr; [done|simpl; lia]).
  destruct (repr_nonempty _ _ _ _ _ R) as (br & -> & Hbr); [lia|]. simpl in Hbr.
  destruct (decide (Z.of_nat (length lr) * sizeof_T ≤ a)) as [Hav|Hav].
  - destruct (copy_cases lr) as [[ys Hys]|(k & x & ys & Hk & Hx & Hys)].
    + by erewrite ctor_copy_ok in Hthrow.
    + erewrite ctor_copy_throw in Hthrow by done. by injection Hthrow as _ <-.
  - erewrite ctor_copy_bad_alloc in Hthrow; [|done|lia|done|done].
    by injection Hthrow as _ <-.
Qed.

Lemma ctor_copy_failure_witness :
  let σ := one_vector [1; 13; 3] 4 in
  let σ' := State (objs σ) (heap σ) (avail σ) [1] in
  (@repr Z unlucky_element σ 0 (Ptr 0 0) 4 [1; 13; 3]
   ∧ @Vector.ctor_copy Z unlucky_element 1 0 σ = Throw element_exception σ')
  ∧ objs σ' = objs σ ∧ heap σ' = heap σ ∧ avail σ' = avail σ.
Proof.
  intros σ σ'.
  assert (@repr Z unlucky_element σ 0 (Ptr 0 0) 4 [1; 13; 3]) as R by concrete_repr.
  assert (@Vector.ctor_copy Z unlucky_element 1 0 σ = Throw element_exception σ') as E
    by (vm_compute; reflexivity).
  split; [by split|].
  exact (@ctor_copy_failure Z unlucky_element σ σ' 1%nat 0%nat _ _ _ _ R E).
Defined.

(** X11.  The destructor runs the destructor of each element, first to
    last, releases the block and returns its bytes to the free store;
    the object is gone afterwards.  On a vector without storage it
    releases nothing. *)
Theorem dtor_releases {T} `{Element T} (σ : state T) this buf cap l :
  repr σ this buf cap l →
  ∃ σ', Vector.dtor this σ = Ok tt σ'
        ∧ objs σ' = delete this (objs σ)
        ∧ heap σ' = match buf with
                    | Ptr b _ => delete b (heap σ)
                    | NullPtr => heap σ
                    end
        ∧ avail σ' = avail σ + cap * sizeof_T
        ∧ dtor_log σ' = rev l ++ dtor_log σ.
Proof.
  intros R. pose proof (repr_bounds _ _ _ _ _ R) as (Hlen & Hcap & _).
  pose proof R as [Hobj Hsz Hby Hblk]. destruct σ as [o h a d]. simpl_state.
  destruct buf as [|b off].
  - subst cap. assert (l = []) as -> by (destruct l; [done|simpl in *; lia]).
    eexists. split; [by apply dtor_null_vector|].
    simpl. repeat split. lia.
  - destruct Hblk as (-> & Hpos & Hb).
    eexists. split; [by eapply dtor_block|]. done.
Qed.

Lemma dtor_releases_witness :
  let σ := one_vector [1; 2; 3] 4 in
  repr σ 0 (Ptr 0 0) 4 [1; 2; 3]
  ∧ ∃ σ', Vector.dtor 0 σ = Ok tt σ'
          ∧ objs σ' = delete 0%nat (objs σ)
          ∧ heap σ' = delete 0%nat (heap σ)
          ∧ avail σ' = avail σ + 4 * sizeof_T
          ∧ dtor_log σ' = rev [1; 2; 3] ++ dtor_log σ.
Proof.
  intros σ.
  assert (repr σ 0 (Ptr 0 0) 4 [1; 2; 3]) as R by concrete_repr.
  split; [exact R|].
  exact (dtor_releases σ 0%nat _ _ _ R).
Defined.

Section Lifecycle.
Context {T : Type} `{Regular T}.

(** The bytes a run of [PushBack]s takes from the free store. *)
Lemma push_all_avail this xs : ∀ (σ σ' : state T) buf l,
  repr σ this buf (capacity_after (length l)) l →
  push_all this xs σ = Ok tt σ' →
  avail σ' = avail σ
             - (capacity_after (length (l ++ xs)) - capacity_after (length l))
               * sizeof_T.
Proof.
  induction xs as [|x xs IH]; intros σ σ' buf l R E.
  - simpl in E. injection E as <-. rewrite app_nil_r. lia.
  - simpl in E. pose proof (PushBack_spec σ this buf _ l x R) as P. cbv zeta in P.
    destruct (decide _) in P.
    + destruct P as (b' & σ1 & E1 & R1 & Ha1).
      rewrite (bind_Ok _ _ _ _ _ E1) in E.
      rewrite <- capacity_after_S in R1, Ha1.
      replace (S (length l)) with (length (l ++ [x])) in R1, Ha1
        by (rewrite length_app; simpl; lia).
      rewrite (IH σ1 σ' _ _ R1 E), <- app_assoc, Ha1. simpl. lia.
    + by rewrite (bind_Throw _ _ _ _ _ P) in E.
Qed.

End Lifecycle.

(** X12.  A whole life of a vector returns what it took: after default
    construction, [PushBack] of the values [xs] and destruction, the
    free store has as many bytes as at the start, the destructor has
    run on each of the elements [xs], first to last, and the object is
    gone.  With enough memory for the largest block and its
    predecessor, every step returns. *)
Theorem lifecycle_returns_memory {T} `{Regular T} (σ : state T) this (xs : list T) :
  capacity_after (length xs) * sizeof_T ≤ PTRDIFF_MAX →
  2 * capacity_after (length xs) * sizeof_T ≤ avail σ →
  ∃ σ1 σ', (Vector.ctor_default this ;; push_all this xs) σ = Ok tt σ1
           ∧ contents σ1 this = Some xs
           ∧ Vector.dtor this σ1 = Ok tt σ'
           ∧ avail σ' = avail σ
           ∧ objs σ' !! this = None
           ∧ dtor_log σ' = rev xs ++ dtor_log σ1.
Proof.
  intros Hmax Hav.
  destruct (ctor_default_ok σ this) as (σ0 & E0 & R0 & Ha0).
  destruct (push_all_ok this xs σ0 NullPtr [] R0) as [σ1 E1]; simpl; [done|lia|].
  pose proof (push_all_outcome this xs σ0 NullPtr [] R0) as Hout.
  rewrite E1 in Hout. destruct Hout as [buf R1]. simpl in R1.
  pose proof (push_all_avail this xs σ0 σ1 NullPtr [] R0 E1) as Ha1. simpl in Ha1.
  pose proof (repr_bounds _ _ _ _ _ R1) as (Hlen & Hcap & _).
  pose proof R1 as [Hobj Hsz Hby Hblk]. destruct σ1 as [o1 h1 a1 d1]. simpl_state.
  assert (∃ σ', Vector.dtor this (State o1 h1 a1 d1) = Ok tt σ'
                ∧ objs σ' = delete this o1
                ∧ avail σ' = a1 + capacity_after (length xs) * sizeof_T
                ∧ dtor_log σ' = rev xs ++ d1) as (σ' & E' & Ho' & Ha' & Hd').
  { destruct buf as [|b off].
    - assert (xs = []) as -> by (destruct xs; [done|simpl in *; lia]).
      eexists. split; [by apply dtor_null_vector|]. simpl. repeat split. lia.
    - destruct Hblk as (-> & Hpos & Hb).
      eexists. split; [by eapply dtor_block|]. done. }
  exists (State o1 h1 a1 d1), σ'.
  split; [by rewrite (bind_Ok _ _ _ _ _ E0)|].
  split; [by apply (repr_contents _ _ _ _ _ R1)|].
  split; [done|]. split; [lia|]. split; [|done].
  rewrite Ho'. apply lookup_delete_eq.
Qed.

Lemma lifecycle_returns_memory_witness :
  (capacity_after (length [1; 2; 3]) * sizeof_T ≤ PTRDIFF_MAX
   ∧ 2 * capacity_after (length [1; 2; 3]) * sizeof_T ≤ avail empty_state)
  ∧ ∃ σ1 σ', (Vector.ctor_default 0 ;; push_all 0 [1; 2; 3]) empty_state = Ok tt σ1
             ∧ contents σ1 0 = Some [1; 2; 3]
             ∧ Vector.dtor 0 σ1 = Ok tt σ'
             ∧ avail σ' = avail empty_state
             ∧ objs σ' !! 0%nat = None
             ∧ dtor_log σ' = rev [1; 2; 3] ++ dtor_log σ1.
Proof.
  assert (capacity_after (length [1; 2; 3]) * sizeof_T ≤ PTRDIFF_MAX) as H1
    by (vm_compute; congruence).
  assert (2 * capacity_after (length [1; 2; 3]) * sizeof_T ≤ avail empty_state) as H2
    by (vm_compute; congruence).
  split; [by split|].
  exact (lifecycle_returns_memory empty_state 0%nat [1; 2; 3] H1 H2).
Defined.

(** ** Insertion and removal at the back *)

(** X13.  If the constructor of the new element throws, [EmplaceBack]
    changes nothing: the vector, its block and the free store are as
    before, also when a larger block had already been allocated for the
    element.  The exception is that of the constructor, or
    [std::bad_alloc] when the vector is full and the larger block
    cannot be had.  The same holds of [PushBack] when the copy of its
    argument throws. *)
Theorem EmplaceBack_constructor_throws {T} `{Element T} (σ : state T)
    this buf cap l :
  repr σ this buf cap l →
  let cap' := next_capacity cap (Z.of_nat (length l)) in
  let e := if decide (Z.of_nat (length l) < cap
                      ∨ (cap' * sizeof_T ≤ PTRDIFF_MAX ∧ cap' * sizeof_T ≤ avail σ))
           then element_exception else bad_alloc in
  Vector.EmplaceBack this None σ = Throw e σ
  ∧ (∀ x, copy_construct x = None → Vector.PushBack this x σ = Throw e σ).
Proof.
  intros R cap' e.
  assert (Vector.EmplaceBack this None σ = Throw e σ) as E.
  { subst e cap'. unfold next_capacity.
    pose proof (repr_bounds _ _ _ _ _ R) as (Hlen & Hcap & Hby).
    pose proof sizeof_T_pos.
    destruct (Z.eqb_spec (Z.of_nat (length l)) cap) as [Hfull|Hspare].
    - destruct (decide _) as [[Hlt|[Hmax Hav]]|Hno]; [lia| |].
      + pose proof R as [Hobj _ _ _]. destruct σ as [o h a d]. simpl_state.
        unfold Vector.EmplaceBack.
        rewrite (bind_Ok _ _ _ _ _ (load_ok _ _ _ _ _ _ Hobj)). simpl_vec.
        destruct (Z.eqb_spec (Z.of_nat (length l)) cap); [|lia].
        rewrite grown_spec by lia.
        apply bind_Throw.
        erewrite bind_Ok; [|apply ctor_ok; lia]. simpl_vec.
        apply bind_Throw. eapply on_throw_Throw.
        { rewrite (bind_Ok _ _ _ _ _ (at_offset_Ptr _ _ _ _)). reflexivity. }
        erewrite dtor_ok; [|apply lookup_insert_eq].
        rewrite delete_insert_id by apply fresh_block.
        rewrite length_replicate. do 2 f_equal. lia.
      + apply EmplaceBack_bad_alloc with buf cap l; [done|done|].
        intros [? ?]. apply Hno. by right.
    - rewrite decide_True by lia.
      destruct (repr_nonempty _ _ _ _ _ R) as (b & -> & Hb); [lia|].
      pose proof R as [Hobj _ _ _]. destruct σ as [o h a d]. simpl_state.
      unfold Vector.EmplaceBack.
      rewrite (bind_Ok _ _ _ _ _ (load_ok _ _ _ _ _ _ Hobj)). simpl_vec.
      destruct (Z.eqb_spec (Z.of_nat (length l)) cap); [lia|].
      apply bind_Throw.
      by rewrite (bind_Ok _ _ _ _ _ (at_offset_Ptr _ _ _ _)). }
  split; [done|].
  intros x Hx. unfold Vector.PushBack. rewrite Hx. by apply bind_Throw.
Qed.

Lemma EmplaceBack_constructor_throws_witness :
  let σ := one_vector [1; 2] 2 in
  repr σ 0 (Ptr 0 0) 2 [1; 2]
  ∧ Vector.EmplaceBack 0 None σ = Throw element_exception σ.
Proof.
  intros σ.
  assert (repr σ 0 (Ptr 0 0) 2 [1; 2]) as R by concrete_repr.
  split; [exact R|].
  exact (proj1 (EmplaceBack_constructor_throws σ 0%nat _ _ _ R)).
Defined.

(** X14.  [EmplaceBack] on a full vector whose elements are relocated
    by copy, when the copy of element [k] throws: the copies made so
    far are destructed and the new block is released, so the vector,
    its block and the free store are as before.  The new element, which
    had been constructed in the new block first, is not destructed:
    the destructor log holds the partial copies only. *)
Theorem EmplaceBack_relocation_throws {T} `{Element T} (σ : state T)
    this b cap l x k y ys :
  is_nothrow_move_constructible || negb is_copy_constructible = false →
  repr σ this (Ptr b 0) cap l → Z.of_nat (length l) = cap →
  2 * cap * sizeof_T ≤ PTRDIFF_MAX → 2 * cap * sizeof_T ≤ avail σ →
  l !! k = Some y → copy_construct y = None →
  Forall2 (λ x y, copy_construct x = Some y) (take k l) ys →
  Vector.EmplaceBack this (Some x) σ
  = Throw element_exception
      (State (objs σ) (heap σ) (avail σ) (rev ys ++ dtor_log σ)).
Proof.
  intros Hcopying R Hfull Hmax Hav Hk Hy Hcopy.
  pose proof (repr_bounds _ _ _ _ _ R) as (Hlen & Hcap & _).
  pose proof R as [Hobj Hsz Hby (_ & Hpos & Hb)].
  destruct σ as [o h a d]. simpl_state.
  set (b' := fresh (dom h)).
  assert (b ≠ b') as Hne.
  { intros ->. pose proof (fresh_block h) as E. fold b' in E. congruence. }
  unfold Vector.EmplaceBack.
  rewrite (bind_Ok _ _ _ _ _ (load_ok _ _ _ _ _ _ Hobj)). simpl_vec.
  destruct (Z.eqb_spec (Z.of_nat (length l)) cap); [|lia].
  rewrite grown_spec by (unfold PTRDIFF_MAX in *; lia).
  rewrite Z.max_r by lia.
  apply bind_Throw.
  erewrite bind_Ok; [|apply ctor_ok; lia]. fold b'. simpl_vec.
  apply bind_Throw. eapply on_throw_Throw.
  { rewrite (bind_Ok _ _ _ _ _ (at_offset_Ptr _ _ _ _)). simpl.
    rewrite ret_bind.
    erewrite bind_Ok; [|eapply construct_at_ok; [apply lookup_insert_eq|lia|]].
    2:{ rewrite length_replicate. lia. }
    rewrite Hcopying.
    eapply (uninitialized_copy_n_throw _ _ _ _ b 0%nat _ b' 0%nat _ l ys k y);
      [done| | | | | |done..].
    - by rewrite !lookup_insert_ne.
    - apply live_at_block_image.
    - apply lookup_insert_eq.
    - rewrite length_insert, length_replicate. lia.
    - intros j Hj. rewrite list_lookup_insert_ne by lia.
      apply lookup_replicate_2. lia. }
  erewrite dtor_ok; [|apply lookup_insert_eq].
  rewrite delete_insert_eq, delete_insert_id by apply fresh_block.
  rewrite length_insert, length_replicate. do 2 f_equal. lia.
Qed.

Lemma EmplaceBack_relocation_throws_witness :
  let σ := one_vector [1; 13] 2 in
  (@is_nothrow_move_constructible Z unlucky_element
     || negb (@is_copy_constructible Z unlucky_element) = false
   ∧ @repr Z unlucky_element σ 0 (Ptr 0 0) 2 [1; 13]
   ∧ Z.of_nat (length [1; 13]) = 2
   ∧ 2 * 2 * @sizeof_T Z unlucky_element ≤ PTRDIFF_MAX
   ∧ 2 * 2 * @sizeof_T Z unlucky_element ≤ avail σ
   ∧ [1; 13] !! 1%nat = Some 13
   ∧ @copy_construct Z unlucky_element 13 = None
   ∧ Forall2 (λ x y, @copy_construct Z unlucky_element x = Some y)
             (take 1 [1; 13]) [1])
  ∧ @Vector.EmplaceBack Z unlucky_element 0 (Some 5) σ
    = Throw element_exception
        (State (objs σ) (heap σ) (avail σ) (rev [1] ++ dtor_log σ)).
Proof.
  intros σ.
  assert (@is_nothrow_move_constructible Z unlucky_element
          || negb (@is_copy_constructible Z unlucky_element) = false) as H1
    by reflexivity.
  assert (@repr Z unlucky_element σ 0 (Ptr 0 0) 2 [1; 13]) as R by concrete_repr.
  assert (Z.of_nat (length [1; 13]) = 2) as H2 by reflexivity.
  assert (2 * 2 * @sizeof_T Z unlucky_element ≤ PTRDIFF_MAX) as H3
    by (vm_compute; congruence).
  assert (2 * 2 * @sizeof_T Z unlucky_element ≤ avail σ) as H4
    by (vm_compute; congruence).
  assert ([1; 13] !! 1%nat = Some 13) as H5 by reflexivity.
  assert (@copy_construct Z unlucky_element 13 = None) as H6 by reflexivity.
  assert (Forall2 (λ x y, @copy_construct Z unlucky_element x = Some y)
                  (take 1 [1; 13]) [1]) as H7
    by (constructor; [reflexivity|constructor]).
  split; [by repeat split|].
  exact (@EmplaceBack_relocation_throws Z unlucky_element σ 0%nat 0%nat 2 [1; 13] 5
           1%nat 13 [1] H1 R H2 H3 H4 H5 H6 H7).
Defined.

(** X15.  [PushBack] followed by [PopBack] gives back the elements and
    the size the vector had; the capacity may have grown, to
    [max(1, 2 * capacity)] if the vector was full.  The element pushed
    is the one destructed by [PopBack]. *)
Theorem PushBack_PopBack_round_trip {T} `{Regular T} (σ : state T)
    this buf cap l x :
  repr σ this buf cap l →
  let cap' := next_capacity cap (Z.of_nat (length l)) in
  Z.of_nat (length l) < cap
  ∨ (cap' * sizeof_T ≤ PTRDIFF_MAX ∧ cap' * sizeof_T ≤ avail σ) →
  ∃ σ1 σ' buf', Vector.PushBack this x σ = Ok tt σ1
                ∧ Vector.PopBack this σ1 = Ok tt σ'
                ∧ repr σ' this buf' cap' l
                ∧ contents σ' this = contents σ this
                ∧ Vector.Size this σ' = Ok (Z.of_nat (length l)) σ'
                ∧ dtor_log σ' = x :: dtor_log σ1.
Proof.
  intros R cap' Hmem.
  pose proof (PushBack_spec σ this buf cap l x R) as P. cbv zeta in P.
  fold cap' in P. rewrite decide_True in P by done.
  destruct P as (b' & σ1 & E1 & R1 & _).
  destruct (PopBack_nonempty _ _ _ _ _ _ R1) as (σ' & E' & R' & Hlog & _).
  exists σ1, σ', (Ptr b' 0). split; [done|]. split; [done|]. split; [done|].
  split; [by rewrite (repr_contents _ _ _ _ _ R'), (repr_contents _ _ _ _ _ R)|].
  split; [by apply (repr_Size _ _ _ _ _ R')|done].
Qed.

Lemma PushBack_PopBack_round_trip_witness :
  let σ := one_vector [1; 2] 2 in
  (repr σ 0 (Ptr 0 0) 2 [1; 2]
   ∧ (Z.of_nat (length [1; 2]) < 2
      ∨ (next_capacity 2 (Z.of_nat (length [1; 2])) * sizeof_T ≤ PTRDIFF_MAX
         ∧ next_capacity 2 (Z.of_nat (length [1; 2])) * sizeof_T ≤ avail σ)))
  ∧ ∃ σ1 σ' buf', Vector.PushBack 0 5 σ = Ok tt σ1
                  ∧ Vector.PopBack 0 σ1 = Ok tt σ'
                  ∧ repr σ' 0 buf' (next_capacity 2 (Z.of_nat (length [1; 2]))) [1; 2]
                  ∧ contents σ' 0 = contents σ 0
                  ∧ Vector.Size 0 σ' = Ok (Z.of_nat (length [1; 2])) σ'
                  ∧ dtor_log σ' = 5 :: dtor_log σ1.
Proof.
  intros σ.
  assert (repr σ 0 (Ptr 0 0) 2 [1; 2]) as R by concrete_repr.
  assert (Z.of_nat (length [1; 2]) < 2
          ∨ (next_capacity 2 (Z.of_nat (length [1; 2])) * sizeof_T ≤ PTRDIFF_MAX
             ∧ next_capacity 2 (Z.of_nat (length [1; 2])) * sizeof_T ≤ avail σ)) as Hm
    by (right; split; vm_compute; congruence).
  split; [by split|].
  exact (PushBack_PopBack_round_trip σ 0%nat _ _ _ 5 R Hm).
Defined.

(** X16.  [n] calls of [PopBack] remove the last [n] elements, or all
    of them if there are fewer: the destructor runs on each element
    removed, last element first, the capacity and the block stay, and
    the calls beyond the last element do nothing. *)
Theorem pop_all_removes_suffix {T} `{Element T} (this : nat) (n : nat) :
  ∀ (σ : state T) buf cap l,
    repr σ this buf cap l →
    ∃ σ', pop_all this n σ = Ok tt σ'
          ∧ repr σ' this buf cap (take (length l - n) l)
          ∧ dtor_log σ' = drop (length l - n) l ++ dtor_log σ.
Proof.
  induction n as [|n IH]; intros σ buf cap l R.
  - exists σ. split; [done|].
    rewrite Nat.sub_0_r, firstn_all, drop_all. by split.
  - destruct l as [|x l _] using rev_ind.
    + destruct (IH σ buf cap [] R) as (σ' & E & R' & Hlog).
      exists σ'. simpl.
      rewrite (bind_Ok _ _ _ _ _ (PopBack_empty _ _ _ _ R)).
      by split.
    + destruct (PopBack_nonempty _ _ _ _ _ _ R) as (σ1 & E1 & R1 & Hlog1 & _).
      destruct (IH σ1 buf cap l R1) as (σ' & E & R' & Hlog).
      exists σ'. simpl. rewrite (bind_Ok _ _ _ _ _ E1).
      split; [done|].
      rewrite length_app. simpl.
      replace (length l + 1 - S n)%nat with (length l - n)%nat by lia.
      rewrite take_app_le, drop_app_le by lia.
      split; [done|]. rewrite Hlog, Hlog1. by rewrite <- app_assoc.
Qed.

Lemma pop_all_removes_suffix_witness :
  let σ := one_vector [1; 2; 3] 4 in
  repr σ 0 (Ptr 0 0) 4 [1; 2; 3]
  ∧ ∃ σ', pop_all 0 2 σ = Ok tt σ'
          ∧ repr σ' 0 (Ptr 0 0) 4 (take (length [1; 2; 3] - 2) [1; 2; 3])
          ∧ dtor_log σ' = drop (length [1; 2; 3] - 2) [1; 2; 3] ++ dtor_log σ.
Proof.
  intros σ.
  assert (repr σ 0 (Ptr 0 0) 4 [1; 2; 3]) as R by concrete_repr.
  split; [exact R|].
  exact (pop_all_removes_suffix 0%nat 2%nat σ _ _ _ R).
Defined.

(** X17.  [Insert] at [end()] appends, as [PushBack] does: both return
    with the elements followed by the new value and with the same
    capacity, [Insert] returning the address of the new element; or
    both throw [std::bad_alloc] and leave the state as it was. *)
Theorem Insert_at_end_appends {T} `{Regular T} (σ : state T) this buf cap l x :
  repr σ this buf cap l →
  ∃ e, Vector.end_ this σ = Ok e σ
       ∧ match Vector.Insert this e x σ, Vector.PushBack this x σ with
         | Ok q σ1, Ok _ σ2 =>
             contents σ1 this = Some (l ++ [x])
             ∧ contents σ2 this = Some (l ++ [x])
             ∧ capacity_of σ1 this = capacity_of σ2 this
             ∧ read_at q σ1 = Ok x σ1
         | Throw e1 σ1, Throw e2 σ2 => e1 = bad_alloc ∧ e2 = bad_alloc ∧ σ1 = σ ∧ σ2 = σ
         | _, _ => False
         end.
Proof.
  intros R.
  exists (position buf (Z.of_nat (length l))). split.
  { destruct buf as [|b off].
    - pose proof (repr_bounds _ _ _ _ _ R) as (Hlen & _).
      pose proof R as [Hobj _ _ Hblk]. simpl in Hblk. subst cap.
      assert (l = []) as -> by (destruct l; [done|simpl in *; lia]).
      destruct σ as [o h a d]. simpl_state. simpl.
      unfold Vector.end_. rewrite (bind_Ok _ _ _ _ _ (load_ok _ _ _ _ _ _ Hobj)).
      simpl. by rewrite (begin_ok _ _ _ _ _ _ Hobj).
    - pose proof R as [_ _ _ (-> & _ & _)]. simpl.
      by rewrite (repr_end _ _ _ _ _ R). }
  assert (repr σ this buf cap (l ++ [])) as R0 by (by rewrite app_nil_r).
  pose proof (Emplace_spec σ this buf cap l [] x R0) as PE.
  pose proof (PushBack_spec σ this buf cap l x R) as PP.
  cbv zeta in PE, PP. rewrite app_nil_r in PE.
  unfold Vector.Insert. rewrite regular_copy_construct.
  destruct (decide _) as [Hd|Hd] in PE.
  - rewrite decide_True in PP by done.
    destruct PE as (b1 & σ1 & E1 & R1 & _), PP as (b2 & σ2 & E2 & R2 & _).
    rewrite E1, E2.
    split; [by apply (repr_contents _ _ _ _ _ R1)|].
    split; [by apply (repr_contents _ _ _ _ _ R2)|].
    split.
    + destruct R1 as [Ho1 _ _ _], R2 as [Ho2 _ _ _].
      unfold capacity_of. by rewrite Ho1, Ho2.
    + pose proof (repr_bounds _ _ _ _ _ R1) as (Hlen & _).
      rewrite length_app in Hlen. simpl in Hlen.
      destruct (repr_nonempty _ _ _ _ _ R1) as (b & [= <-] & Hb); [lia|].
      destruct σ1 as [o1 h1 a1 d1]. simpl_state.
      eapply read_at_ok; [done|lia|].
      rewrite Nat2Z.id. apply block_image_lookup, list_lookup_middle. done.
  - rewrite decide_False in PP by done. by rewrite PE, PP.
Qed.

Lemma Insert_at_end_appends_witness :
  let σ := one_vector [1; 2] 2 in
  repr σ 0 (Ptr 0 0) 2 [1; 2]
  ∧ ∃ e, Vector.end_ 0 σ = Ok e σ
         ∧ match Vector.Insert 0 e 5 σ, Vector.PushBack 0 5 σ with
           | Ok q σ1, Ok _ σ2 =>
               contents σ1 0 = Some ([1; 2] ++ [5])
               ∧ contents σ2 0 = Some ([1; 2] ++ [5])
               ∧ capacity_of σ1 0 = capacity_of σ2 0
               ∧ read_at q σ1 = Ok 5 σ1
           | Throw e1 σ1, Throw e2 σ2 =>
               e1 = bad_alloc ∧ e2 = bad_alloc ∧ σ1 = σ ∧ σ2 = σ
           | _, _ => False
           end.
Proof.
  intros σ.
  assert (repr σ 0 (Ptr 0 0) 2 [1; 2]) as R by concrete_repr.
  split; [exact R|].
  exact (Insert_at_end_appends σ 0%nat _ _ _ 5 R).
Defined.

(** ** [Reserve] and [Resize] where they work *)

Section NeverThrows.
Context {T : Type} `{Element T}.

Lemma bind_Throw_inv {A B} (m : M (state T) A) (k : A → M (state T) B) σ e σ' :
  (m ≫= k) σ = Throw e σ' →
  m σ = Throw e σ' ∨ ∃ a σ1, m σ = Ok a σ1 ∧ k a σ1 = Throw e σ'.
Proof.
  unfold mbind, M_bind. destruct (m σ) as [a σ1|e1 σ1|f]; intros E; simpl in E.
  - right. by exists a, σ1.
  - left. by injection E as -> ->.
  - done.
Qed.

(** Destructors do not throw. *)
Lemma destroy_n_never_throws (p : ptr) n (σ : state T) e σ' :
  destroy_n p n σ ≠ Throw e σ'.
Proof.
  unfold destroy_n. generalize 0. revert σ.
  induction (Z.to_nat n) as [|k IH]; intros σ i; [done|].
  rewrite repeat_from_S. intros E.
  apply bind_Throw_inv in E as [E|(a & σ1 & _ & E)]; [|by apply IH in E].
  apply bind_Throw_inv in E as [E|(q & σ1 & _ & E)].
  - unfold at_offset, defined in E. by destruct (ptr_add p i).
  - unfold destroy_at in E. by destruct (slot σ1 q) as [[x|]|].
Qed.

(** Neither does the release of a block. *)
Lemma dtor_never_throws (m : RawMemory) (σ : state T) e σ' :
  RawMemory.dtor m σ ≠ Throw e σ'.
Proof.
  unfold RawMemory.dtor, RawMemory.Deallocate, operator_delete.
  destruct (buffer_ m) as [|b off]; [done|].
  destruct (heap σ !! b); [|done]. by destruct (off =? 0).
Qed.

End NeverThrows.

(** X18.  [Reserve] with a capacity the vector already has does
    nothing at all.  Beyond the capacity, on a vector that is full (or
    has no storage yet), it moves the elements to a block of exactly
    [new_capacity] slots: elements and size are unchanged, the capacity
    is [new_capacity], the old block is released, and the destructor
    has run once for each old element. *)
Theorem Reserve_keeps_elements {T} `{Regular T} (σ : state T)
    this buf cap l new_capacity :
  repr σ this buf cap l →
  (new_capacity ≤ cap → Vector.Reserve this new_capacity σ = Ok tt σ)
  ∧ (cap < new_capacity → Z.of_nat (length l) = cap →
     new_capacity * sizeof_T ≤ PTRDIFF_MAX → new_capacity * sizeof_T ≤ avail σ →
     ∃ σ' buf' rs,
       Vector.Reserve this new_capacity σ = Ok tt σ'
       ∧ repr σ' this buf' new_capacity l
       ∧ contents σ' this = contents σ this
       ∧ Vector.Size this σ' = Ok (Z.of_nat (length l)) σ'
       ∧ Vector.Capacity this σ' = Ok new_capacity σ'
       ∧ avail σ' = avail σ - (new_capacity - cap) * sizeof_T
       ∧ length rs = length l ∧ dtor_log σ' = rev rs ++ dtor_log σ).
Proof.
  intros R. split; [by apply Reserve_within_capacity with buf l|].
  intros Hnew Hfull Hmax Hav.
  assert (∃ σ' buf' rs,
            Vector.Reserve this new_capacity σ = Ok tt σ'
            ∧ repr σ' this buf' new_capacity l
            ∧ avail σ' = avail σ - (new_capacity - cap) * sizeof_T
            ∧ length rs = length l ∧ dtor_log σ' = rev rs ++ dtor_log σ)
    as (σ' & buf' & rs & E & R' & Ha & Hrs & Hlog).
  { destruct buf as [|b off].
    - pose proof R as [_ _ _ Hblk]. simpl in Hblk. subst cap.
      assert (l = []) as -> by (destruct l; [done|simpl in *; lia]).
      destruct (Reserve_null σ this new_capacity R) as (σ' & E & R' & Ha & Hlog);
        [lia|done|done|].
      exists σ', (Ptr (fresh (dom (heap σ))) 0), [].
      split; [done|]. split; [done|]. split; [lia|]. by split.
    - pose proof R as [_ _ _ (-> & _ & _)].
      destruct (Reserve_full σ this b cap l new_capacity R)
        as (σ' & rs & E & R' & _ & Ha & Hrs & Hlog); [done..|].
      by exists σ', (Ptr (fresh (dom (heap σ))) 0), rs. }
  exists σ', buf', rs. split; [done|]. split; [done|].
  split; [by rewrite (repr_contents _ _ _ _ _ R'), (repr_contents _ _ _ _ _ R)|].
  split; [by apply (repr_Size _ _ _ _ _ R')|].
  split; [by apply (repr_Capacity _ _ _ _ _ R')|done].
Qed.

Lemma Reserve_keeps_elements_witness :
  let σ := one_vector [1; 2; 3] 3 in
  (repr σ 0 (Ptr 0 0) 3 [1; 2; 3]
   ∧ 3 < 8 ∧ Z.of_nat (length [1; 2; 3]) = 3
   ∧ 8 * sizeof_T ≤ PTRDIFF_MAX ∧ 8 * sizeof_T ≤ avail σ)
  ∧ ∃ σ' buf' rs,
      Vector.Reserve 0 8 σ = Ok tt σ'
      ∧ repr σ' 0 buf' 8 [1; 2; 3]
      ∧ contents σ' 0 = contents σ 0
      ∧ Vector.Size 0 σ' = Ok (Z.of_nat (length [1; 2; 3])) σ'
      ∧ Vector.Capacity 0 σ' = Ok 8 σ'
      ∧ avail σ' = avail σ - (8 - 3) * sizeof_T
      ∧ length rs = length [1; 2; 3] ∧ dtor_log σ' = rev rs ++ dtor_log σ.
Proof.
  intros σ.
  assert (repr σ 0 (Ptr 0 0) 3 [1; 2; 3]) as R by concrete_repr.
  assert (3 < 8) as H1 by reflexivity.
  assert (Z.of_nat (length [1; 2; 3]) = 3) as H2 by reflexivity.
  assert (8 * sizeof_T ≤ PTRDIFF_MAX) as H3 by (vm_compute; congruence).
  assert (8 * sizeof_T ≤ avail σ) as H4 by (vm_compute; congruence).
  split; [by repeat split|].
  exact (proj2 (Reserve_keeps_elements σ 0%nat _ _ _ 8 R) H1 H2 H3 H4).
Defined.

(** X19.  [Reserve] is all or nothing for element types relocated by
    copy: if it throws, because the allocation fails or because the
    copy constructor of an element throws, then every object, every
    block and the free store are as before. *)
Theorem Reserve_failure_atomic {T} `{Element T} (σ σ' : state T)
    this buf cap l new_capacity e :
  is_nothrow_move_constructible || negb is_copy_constructible = false →
  repr σ this buf cap l →
  new_capacity * sizeof_T < 2 ^ 64 →
  Vector.Reserve this new_capacity σ = Throw e σ' →
  objs σ' = objs σ ∧ heap σ' = heap σ ∧ avail σ' = avail σ.
Proof.
  intros Hcopying R Hfit Hthrow.
  pose proof (repr_bounds _ _ _ _ _ R) as (Hlen & Hcap & _).
  destruct (decide (new_capacity ≤ cap)) as [Hle|Hgt].
  { by rewrite (Reserve_within_capacity _ _ _ _ _ _ R Hle) in Hthrow. }
  destruct (decide (new_capacity * sizeof_T ≤ PTRDIFF_MAX
                    ∧ new_capacity * sizeof_T ≤ avail σ)) as [[Hmax Hav]|Hno].
  2:{ rewrite (Reserve_bad_alloc _ _ _ _ _ _ R) in Hthrow by (done || lia).
      by injection Hthrow as _ <-. }
  destruct (copy_cases l) as [[ys Hys]|(k & x & ys & Hk & Hx & Hys)].
  - exfalso.
    pose proof R as [Hobj Hsz Hby Hblk]. destruct σ as [o h a d]. simpl_state.
    unfold Vector.Reserve, Vector.CopyDataRange in Hthrow.
    rewrite Hcopying in Hthrow.
    rewrite (bind_Ok _ _ _ _ _ (load_ok _ _ _ _ _ _ Hobj)) in Hthrow.
    cbn [RawMemory.GetAddress RawMemory.Capacity RawMemory.Swap
         buffer_ capacity_ data_ size_ vec] in Hthrow.
    destruct (Z.leb_spec new_capacity cap); [lia|].
    rewrite (bind_Ok _ _ _ _ _ (ctor_ok o h a d new_capacity ltac:(lia) Hmax Hav))
      in Hthrow.
    cbn [RawMemory.GetAddress RawMemory.Capacity RawMemory.Swap
         buffer_ capacity_ data_ size_ vec] in Hthrow.
    assert (∃ σ2, uninitialized_copy_n buf (Z.of_nat (length l))
                    (Ptr (fresh (dom h)) 0)
                    (State o (<[fresh (dom h) := replicate (Z.to_nat new_capacity) None]> h)
                           (a - new_capacity * sizeof_T) d) = Ok tt σ2
                  ∧ objs σ2 = o) as (σ2 & E2 & Ho2).
    { destruct buf as [|b off].
      - simpl in Hblk. subst cap.
        assert (l = []) as -> by (destruct l; [done|simpl in *; lia]).
        by eexists.
      - destruct Hblk as (-> & Hpos & Hb).
        assert (b ≠ fresh (dom h)) as Hne.
        { intros ->. pose proof (fresh_block h). congruence. }
        eexists. split.
        + eapply (uninitialized_copy_n_ok _ _ _ _ b 0%nat _ (fresh (dom h)) 0%nat _ l ys);
            [done| | | | |done].
          * by rewrite lookup_insert_ne.
          * apply live_at_block_image.
          * apply lookup_insert_eq.
          * rewrite length_replicate. lia.
        + done. }
    rewrite (bind_Ok _ _ _ _ _ (on_throw_Ok _ _ _ _ _ E2)) in Hthrow.
    destruct σ2 as [o2 h2 a2 d2]. simpl in Ho2. subst o2.
    rewrite (bind_Ok _ _ _ _ _ (put_data_ok _ _ _ _ _ _ _ Hobj)) in Hthrow.
    apply bind_Throw_inv in Hthrow as [E|(u & σ3 & _ & E)].
    + by apply destroy_n_never_throws in E.
    + by apply dtor_never_throws in E.
  - destruct buf as [|b off].
    { pose proof R as [_ _ _ Hblk]. simpl in Hblk. subst cap.
      apply lookup_lt_Some in Hk. lia. }
    pose proof R as [_ _ _ (-> & _ & _)].
    rewrite (Reserve_copy_throws σ this b cap l new_capacity k x ys) in Hthrow
      by (done || lia).
    by injection Hthrow as _ <-.
Qed.

Lemma Reserve_failure_atomic_witness :
  let σ := one_vector [1; 13; 3] 3 in
  let σ' := State (objs σ) (heap σ) (avail σ) [1] in
  (@is_nothrow_move_constructible Z unlucky_element
     || negb (@is_copy_constructible Z unlucky_element) = false
   ∧ @repr Z unlucky_element σ 0 (Ptr 0 0) 3 [1; 13; 3]
   ∧ 8 * @sizeof_T Z unlucky_element < 2 ^ 64
   ∧ @Vector.Reserve Z unlucky_element 0 8 σ = Throw element_exception σ')
  ∧ objs σ' = objs σ ∧ heap σ' = heap σ ∧ avail σ' = avail σ.
Proof.
  intros σ σ'.
  assert (@is_nothrow_move_constructible Z unlucky_element
          || negb (@is_copy_constructible Z unlucky_element) = false) as H1
    by reflexivity.
  assert (@repr Z unlucky_element σ 0 (Ptr 0 0) 3 [1; 13; 3]) as R by concrete_repr.
  assert (8 * @sizeof_T Z unlucky_element < 2 ^ 64) as H2 by reflexivity.
  assert (@Vector.Reserve Z unlucky_element 0 8 σ = Throw element_exception σ') as E
    by (vm_compute; reflexivity).
  split; [by repeat split|].
  exact (@Reserve_failure_atomic Z unlucky_element σ σ' 0%nat _ _ _ 8 _ H1 R H2 E).
Defined.

(** X20.  [Resize] to a size that is at most the size and below the
    capacity truncates: the elements from [new_size] on are destructed,
    first to last, the elements before stay in place, and block and
    capacity are unchanged.  In particular [Resize(0)] empties a vector
    and keeps its storage. *)
Theorem Resize_truncates {T} `{Element T} (σ : state T) this buf cap l1 l2 :
  repr σ this buf cap (l1 ++ l2) → Z.of_nat (length l1) < cap →
  ∃ σ', Vector.Resize this (Z.of_nat (length l1)) σ = Ok tt σ'
        ∧ repr σ' this buf cap l1
        ∧ contents σ' this = Some l1
        ∧ Vector.Size this σ' = Ok (Z.of_nat (length l1)) σ'
        ∧ Vector.Capacity this σ' = Ok cap σ'
        ∧ avail σ' = avail σ
        ∧ dtor_log σ' = rev l2 ++ dtor_log σ.
Proof.
  intros R Hlt.
  destruct (repr_nonempty _ _ _ _ _ R) as (b & -> & _); [lia|].
  destruct (Resize_shrinks σ this b cap l1 l2 R Hlt) as (σ' & E & R' & Ha & Hlog).
  exists σ'. split; [done|]. split; [done|].
  split; [by apply (repr_contents _ _ _ _ _ R')|].
  split; [by apply (repr_Size _ _ _ _ _ R')|].
  split; [by apply (repr_Capacity _ _ _ _ _ R')|done].
Qed.

Lemma Resize_truncates_witness :
  let σ := one_vector [1; 2; 3] 4 in
  (repr σ 0 (Ptr 0 0) 4 ([1] ++ [2; 3]) ∧ Z.of_nat (length [1]) < 4)
  ∧ ∃ σ', Vector.Resize 0 (Z.of_nat (length [1])) σ = Ok tt σ'
          ∧ repr σ' 0 (Ptr 0 0) 4 [1]
          ∧ contents σ' 0 = Some [1]
          ∧ Vector.Size 0 σ' = Ok (Z.of_nat (length [1])) σ'
          ∧ Vector.Capacity 0 σ' = Ok 4 σ'
          ∧ avail σ' = avail σ
          ∧ dtor_log σ' = rev [2; 3] ++ dtor_log σ.
Proof.
  intros σ.
  assert (repr σ 0 (Ptr 0 0) 4 ([1] ++ [2; 3])) as R by concrete_repr.
  assert (Z.of_nat (length [1]) < 4) as Hlt by reflexivity.
  split; [by split|].
  exact (Resize_truncates σ 0%nat _ _ [1] [2; 3] R Hlt).
Defined.

(** X21.  [Resize] to exactly the capacity, or beyond the capacity of
    a vector that is full, appends value-initialised elements: the
    vector then holds its old elements followed by [new_size - size]
    default values, with size [new_size].  In the first case nothing is
    allocated; in the second the capacity becomes [new_size]. *)
Theorem Resize_appends_defaults {T} `{Regular T} (σ : state T)
    this buf cap l new_size :
  repr σ this buf cap l →
  new_size = cap
  ∨ (Z.of_nat (length l) = cap ∧ cap < new_size
     ∧ new_size * sizeof_T ≤ PTRDIFF_MAX ∧ new_size * sizeof_T ≤ avail σ) →
  ∃ σ' buf',
    Vector.Resize this new_size σ = Ok tt σ'
    ∧ repr σ' this buf' new_size
        (l ++ replicate (Z.to_nat new_size - length l) regular_default)
    ∧ Vector.Size this σ' = Ok new_size σ'
    ∧ Vector.Capacity this σ' = Ok new_size σ'
    ∧ (new_size = cap → buf' = buf ∧ avail σ' = avail σ ∧ dtor_log σ' = dtor_log σ).
Proof.
  intros R Hcase.
  pose proof (repr_bounds _ _ _ _ _ R) as (Hlen & Hcap & _).
  assert (∃ σ' buf',
            Vector.Resize this new_size σ = Ok tt σ'
            ∧ repr σ' this buf' new_size
                (l ++ replicate (Z.to_nat new_size - length l) regular_default)
            ∧ (new_size = cap →
               buf' = buf ∧ avail σ' = avail σ ∧ dtor_log σ' = dtor_log σ))
    as (σ' & buf' & E & R' & Hsame).
  { destruct Hcase as [->|(Hfull & Hnew & Hmax & Hav)].
    - destruct buf as [|b off].
      + pose proof R as [Hobj _ _ Hblk]. simpl in Hblk. subst cap.
        assert (l = []) as -> by (destruct l; [done|simpl in *; lia]).
        destruct σ as [o h a d]. simpl_state.
        exists (State (<[this := vec NullPtr 0 0]> o) h a d), NullPtr.
        split; [|split; [|done]].
        * unfold Vector.Resize.
          rewrite (bind_Ok _ _ _ _ _ (Capacity_ok _ _ _ _ _ _ Hobj)). simpl_vec.
          simpl. rewrite bind_assoc.
          rewrite (bind_Ok _ _ _ _ _ (Reserve_within_capacity _ _ _ _ _ 0 R (Z.le_refl _))).
          erewrite bind_Ok.
          2:{ rewrite (bind_Ok _ _ _ _ _ (load_ok _ _ _ _ _ _ Hobj)). reflexivity. }
          by rewrite (put_size_ok _ _ _ _ _ _ _ Hobj).
        * split; simpl; [by rewrite lookup_insert_eq|lia|unfold PTRDIFF_MAX; lia|done].
      + pose proof R as [_ _ _ (-> & _ & _)].
        destruct (Resize_to_capacity σ this b cap l R) as (σ' & E & R' & Ha & Hlog).
        by exists σ', (Ptr b 0).
    - destruct buf as [|b off].
      + pose proof R as [Hobj _ _ Hblk]. simpl in Hblk. subst cap.
        assert (l = []) as -> by (destruct l; [done|simpl in *; lia]).
        destruct (Reserve_null σ this new_size R) as (σ1 & E1 & R1 & _);
          [lia|done|done|].
        destruct (Resize_constructs_tail σ1 this _ new_size [] new_size R1)
          as (σ' & E & R' & _); [simpl; lia|lia|].
        exists σ', (Ptr (fresh (dom (heap σ))) 0).
        split; [|split; [done|lia]].
        unfold Vector.Resize.
        destruct σ as [o h a d]. simpl_state.
        rewrite (bind_Ok _ _ _ _ _ (Capacity_ok _ _ _ _ _ _ Hobj)). simpl_vec.
        change (Z.of_nat (length (@nil T))) with 0.
        destruct (Z.geb_spec new_size 0); [|lia].
        rewrite bind_assoc. by rewrite (bind_Ok _ _ _ _ _ E1).
      + pose proof R as [_ _ _ (-> & _ & _)].
        destruct (Resize_grows_full σ this b cap l new_size R)
          as (σ' & rs & E & R' & _); [done..|].
        exists σ', (Ptr (fresh (dom (heap σ))) 0).
        split; [done|]. split; [done|lia]. }
  exists σ', buf'. split; [done|]. split; [done|].
  pose proof (repr_Size _ _ _ _ _ R') as Hs.
  rewrite length_app, length_replicate in Hs.
  replace (Z.of_nat (length l + (Z.to_nat new_size - length l))) with new_size in Hs
    by (destruct Hcase; lia).
  split; [done|]. split; [by apply (repr_Capacity _ _ _ _ _ R')|done].
Qed.

Lemma Resize_appends_defaults_witness :
  let σ := one_vector [1; 2; 3] 3 in
  (repr σ 0 (Ptr 0 0) 3 [1; 2; 3]
   ∧ (5 = 3
      ∨ (Z.of_nat (length [1; 2; 3]) = 3 ∧ 3 < 5
         ∧ 5 * sizeof_T ≤ PTRDIFF_MAX ∧ 5 * sizeof_T ≤ avail σ)))
  ∧ ∃ σ' buf',
      Vector.Resize 0 5 σ = Ok tt σ'
      ∧ repr σ' 0 buf' 5
          ([1; 2; 3] ++ replicate (Z.to_nat 5 - length [1; 2; 3]) regular_default)
      ∧ Vector.Size 0 σ' = Ok 5 σ'
      ∧ Vector.Capacity 0 σ' = Ok 5 σ'
      ∧ (5 = 3 → buf' = Ptr 0 0 ∧ avail σ' = avail σ ∧ dtor_log σ' = dtor_log σ).
Proof.
  intros σ.
  assert (repr σ 0 (Ptr 0 0) 3 [1; 2; 3]) as R by concrete_repr.
  assert (5 = 3
          ∨ (Z.of_nat (length [1; 2; 3]) = 3 ∧ 3 < 5
             ∧ 5 * sizeof_T ≤ PTRDIFF_MAX ∧ 5 * sizeof_T ≤ avail σ)) as Hc
    by (right; repeat split; vm_compute; congruence).
  split; [by split|].
  exact (Resize_appends_defaults σ 0%nat _ _ _ 5 R Hc).
Defined.

(** ** Bounds *)

(** X22.  The assertions that guard [Erase].  On an empty vector
    [assert(!Empty())] fails, whatever the position.  At [end()] of a
    vector that has elements and is full, [&data_[size + 1]] is an
    index above the capacity and fails the assertion of
    [RawMemory::operator[]]. *)
Theorem Erase_out_of_range {T} `{Element T} (σ : state T) this buf cap l :
  repr σ this buf cap l →
  (l = [] → ∀ pos, Vector.Erase this pos σ = Fault AssertionFailed)
  ∧ (l ≠ [] → Z.of_nat (length l) = cap →
     Vector.Erase this (position buf (Z.of_nat (length l))) σ
     = Fault AssertionFailed).
Proof.
  intros R. pose proof (repr_bounds _ _ _ _ _ R) as (Hlen & Hcap & _).
  pose proof R as [Hobj _ _ _]. split.
  - intros -> pos. destruct σ as [o h a d]. simpl_state.
    unfold Vector.Erase, noexcept.
    by rewrite (bind_Ok _ _ _ _ _ (Empty_ok _ _ _ _ _ _ Hobj)).
  - intros Hnil Hfull.
    assert (0 < length l)%nat as Hpos by (destruct l; [done|simpl; lia]).
    destruct (repr_nonempty _ _ _ _ _ R) as (b & -> & Hb); [lia|].
    destruct σ as [o h a d]. simpl_state. unfold PTRDIFF_MAX in *.
    unfold position. rewrite Z.add_0_l.
    unfold Vector.Erase, noexcept.
    rewrite (bind_Ok _ _ _ _ _ (Empty_ok _ _ _ _ _ _ Hobj)). simpl.
    destruct (Z.eqb_spec (Z.of_nat (length l)) 0) as [|_]; [lia|].
    simpl. rewrite ret_bind.
    rewrite (bind_Ok _ _ _ _ _ (begin_ok _ _ _ _ _ _ Hobj)). simpl.
    destruct (decide (b = b)); [|done]. simpl. rewrite ret_bind.
    rewrite (bind_Ok _ _ _ _ _ (load_ok _ _ _ _ _ _ Hobj)). simpl.
    rewrite Z.sub_0_r, (wrap_small (Z.of_nat (length l))) by lia.
    rewrite wrap_small by lia.
    erewrite bind_Fault; [done|].
    unfold RawMemory.subscript. simpl.
    by destruct (Z.leb_spec (Z.of_nat (length l) + 1) cap); [lia|].
Qed.

Lemma Erase_out_of_range_witness :
  let σ := one_vector [1; 2; 3] 3 in
  (repr σ 0 (Ptr 0 0) 3 [1; 2; 3]
   ∧ [1; 2; 3] ≠ [] ∧ Z.of_nat (length [1; 2; 3]) = 3)
  ∧ Vector.Erase 0 (position (Ptr 0 0) (Z.of_nat (length [1; 2; 3]))) σ
    = Fault AssertionFailed.
Proof.
  intros σ.
  assert (repr σ 0 (Ptr 0 0) 3 [1; 2; 3]) as R by concrete_repr.
  assert ([1; 2; 3] ≠ @nil Z) as Hnil by discriminate.
  assert (Z.of_nat (length [1; 2; 3]) = 3) as Hfull by reflexivity.
  split; [by repeat split|].
  exact (proj2 (Erase_out_of_range σ 0%nat _ _ _ R) Hnil Hfull).
Defined.

(** X23.  The byte count of [Allocate], [n * sizeof(T)], is computed
    in [size_t] and wraps.  [RawMemory(n)] requests the wrapped count:
    when [operator new] can satisfy it, the object records the capacity
    [n] for a block of only [(n * sizeof(T) mod 2^64) / sizeof(T)]
    slots, fewer than [n] whenever the product overflows. *)
Theorem RawMemory_ctor_wraps {T} `{Element T} (σ : state T) n :
  0 < n < 2 ^ 64 →
  wrap (n * sizeof_T) ≤ PTRDIFF_MAX → wrap (n * sizeof_T) ≤ avail σ →
  ∃ σ', RawMemory.ctor n σ
        = Ok {| buffer_ := Ptr (fresh (dom (heap σ))) 0; capacity_ := n |} σ'
        ∧ heap σ' !! fresh (dom (heap σ))
          = Some (replicate (Z.to_nat (wrap (n * sizeof_T) / sizeof_T)) None)
        ∧ avail σ' = avail σ - wrap (n * sizeof_T)
        ∧ (2 ^ 64 ≤ n * sizeof_T → wrap (n * sizeof_T) / sizeof_T < n).
Proof.
  intros Hn Hmax Hav. pose proof sizeof_T_pos.
  destruct σ as [o h a d]. simpl_state.
  eexists. split; [|split; [|split]].
  - unfold RawMemory.ctor, RawMemory.Allocate.
    destruct (Z.eqb_spec n 0); [lia|]. simpl.
    erewrite bind_Ok; [reflexivity|].
    unfold operator_new. simpl.
    destruct (Z.leb_spec (wrap (n * sizeof_T)) PTRDIFF_MAX); [|lia].
    by destruct (Z.leb_spec (wrap (n * sizeof_T)) a); [|lia].
  - simpl. apply lookup_insert_eq.
  - done.
  - intros Hover. apply Z.div_lt_upper_bound; [lia|].
    unfold wrap. pose proof (Z.mod_pos_bound (n * sizeof_T) (2 ^ 64)). lia.
Qed.

Lemma RawMemory_ctor_wraps_witness :
  (0 < 2 ^ 62 + 1 < 2 ^ 64
   ∧ wrap ((2 ^ 62 + 1) * sizeof_T) ≤ PTRDIFF_MAX
   ∧ wrap ((2 ^ 62 + 1) * sizeof_T) ≤ avail empty_state)
  ∧ ∃ σ', RawMemory.ctor (2 ^ 62 + 1) empty_state
          = Ok {| buffer_ := Ptr (fresh (dom (heap empty_state))) 0;
                  capacity_ := 2 ^ 62 + 1 |} σ'
          ∧ heap σ' !! fresh (dom (heap empty_state))
            = Some (replicate (Z.to_nat (wrap ((2 ^ 62 + 1) * sizeof_T) / sizeof_T)) None)
          ∧ avail σ' = avail empty_state - wrap ((2 ^ 62 + 1) * sizeof_T)
          ∧ (2 ^ 64 ≤ (2 ^ 62 + 1) * sizeof_T
             → wrap ((2 ^ 62 + 1) * sizeof_T) / sizeof_T < 2 ^ 62 + 1).
Proof.
  assert (0 < 2 ^ 62 + 1 < 2 ^ 64) as H1 by (split; reflexivity).
  assert (wrap ((2 ^ 62 + 1) * sizeof_T) ≤ PTRDIFF_MAX) as H2
    by (vm_compute; congruence).
  assert (wrap ((2 ^ 62 + 1) * sizeof_T) ≤ avail empty_state) as H3
    by (vm_compute; congruence).
  split; [by repeat split|].
  exact (RawMemory_ctor_wraps empty_state (2 ^ 62 + 1) H1 H2 H3).
Defined.

(** ** Vectors do not interfere *)

(** X24.  Removing elements from one vector leaves every other vector
    as it was: after [PopBack], or [Erase] at a position of the vector,
    a second vector with storage of its own has the same block,
    capacity and elements as before. *)
Theorem removal_leaves_other_vectors {T} `{Element T} (σ : state T)
    this other buf cap l bufo capo lo :
  this ≠ other → separate buf bufo →
  repr σ this buf cap l → repr σ other bufo capo lo →
  (∃ σ', Vector.PopBack this σ = Ok tt σ' ∧ repr σ' other bufo capo lo)
  ∧ (∀ l1 x l2 l2' r, l = l1 ++ x :: l2 → shift_onto x l2 = Some (l2' ++ [r]) →
       ∃ q σ', Vector.Erase this (position buf (Z.of_nat (length l1))) σ = Ok q σ'
               ∧ repr σ' this buf cap (l1 ++ l2')
               ∧ repr σ' other bufo capo lo).
Proof.
  intros Hne Hsep R Ro. split.
  - destruct l as [|x l _] using rev_ind.
    + exists σ. split; [by eapply PopBack_empty|done].
    + destruct (PopBack_nonempty _ _ _ _ _ _ R) as (σ' & E & _ & _ & _ & Hfo & Hfh).
      exists σ'. split; [done|].
      apply (repr_frame σ σ' other bufo capo lo Ro); [by apply Hfo|].
      intros b off ->. apply Hfh. intros ->. by apply Hsep.
  - intros l1 x l2 l2' r -> Hshift.
    pose proof (repr_bounds _ _ _ _ _ R) as (Hlen & _).
    rewrite length_app in Hlen. simpl in Hlen.
    destruct (repr_nonempty _ _ _ _ _ R) as (b & -> & _); [lia|].
    destruct (Erase_spec _ _ _ _ _ _ _ _ _ R Hshift)
      as (σ' & E & R' & _ & _ & Hfo & Hfh).
    exists (Ptr b (Z.of_nat (length l1))), σ'. simpl. split; [done|]. split; [done|].
    apply (repr_frame σ σ' other bufo capo lo Ro); [by apply Hfo|].
    intros b' off ->. apply Hfh. intros ->. by apply Hsep.
Qed.

Lemma removal_leaves_other_vectors_witness :
  let σ := two_vectors [1; 2; 3] 4 [7; 8] 2 in
  (0%nat ≠ 1%nat ∧ separate (Ptr 0 0) (Ptr 1 0)
   ∧ repr σ 0 (Ptr 0 0) 4 [1; 2; 3] ∧ repr σ 1 (Ptr 1 0) 2 [7; 8])
  ∧ (∃ σ', Vector.PopBack 0 σ = Ok tt σ' ∧ repr σ' 1 (Ptr 1 0) 2 [7; 8])
  ∧ ([1; 2; 3] = [1] ++ 2 :: [3] → shift_onto 2 [3] = Some ([3] ++ [3]) →
     ∃ q σ', Vector.Erase 0 (position (Ptr 0 0) (Z.of_nat (length [1]))) σ = Ok q σ'
             ∧ repr σ' 0 (Ptr 0 0) 4 ([1] ++ [3])
             ∧ repr σ' 1 (Ptr 1 0) 2 [7; 8]).
Proof.
  intros σ.
  assert (0%nat ≠ 1%nat) as Hne by discriminate.
  assert (separate (Ptr 0 0) (Ptr 1 0)) as Hsep by exact Hne.
  assert (repr σ 0 (Ptr 0 0) 4 [1; 2; 3]) as R by concrete_repr.
  assert (repr σ 1 (Ptr 1 0) 2 [7; 8]) as Ro by concrete_repr.
  split; [by repeat split|].
  pose proof (removal_leaves_other_vectors σ 0%nat 1%nat _ _ _ _ _ _ Hne Hsep R Ro)
    as [HP HE].
  split; [exact HP|]. exact (HE [1] 2 [3] [3] 3).
Defined.

(** ** Weaker guarantees *)

Section AssignThrows.
Context {T : Type} `{Element T}.
Implicit Types (h : gmap nat (list (option T))) (o : gmap nat Vector).

(** The first [length zs] rounds of the loop that assigns over the
    common prefix. *)
Lemma assign_rounds_prefix o h a (d : list T) rhs b cap br capr l lr k
    (zs : list T) :
  o !! rhs = Some (vec (Ptr br 0) capr (Z.of_nat (length lr))) →
  Z.of_nat (length lr) ≤ capr →
  h !! br = Some (block_image lr capr) →
  h !! b = Some (block_image l cap) → b ≠ br →
  Z.of_nat (length l) ≤ cap →
  (k ≤ length l)%nat → (k ≤ length lr)%nat →
  Forall2 (λ dx y, copy_assign dx.1 dx.2 = Some y) (take k (zip l lr)) zs →
  repeat_from k 0 (λ i,
    s ← Vector.subscript rhs i;
    dst ← RawMemory.subscript {| buffer_ := Ptr b 0; capacity_ := cap |} i;
    copy_assign_at dst s) (State o h a d)
  = Ok tt (State o (<[b := fill 0 zs (block_image l cap)]> h) a d).
Proof.
  intros Hrhs Hcapr Hbr Hb Hne Hcap Hkl Hkr Hzs.
  pose proof (Forall2_length _ _ _ Hzs) as Hlen.
  rewrite length_take, length_zip in Hlen.
  assert (length zs = k) as Hzk by lia.
  assert (length (block_image l cap) = Z.to_nat cap) as Hbl
    by (pose proof (block_image_length l cap); lia).
  edestruct (repeat_from_invariant
    (λ j σ, σ = State o (<[b := fill 0 (take j zs) (block_image l cap)]> h) a d))
    as (σ' & -> & ->).
  { by rewrite take_0, fill_nil, insert_id. }
  { intros j σ Hj ->.
    destruct (lookup_lt_is_Some_2 l j) as [y Hy]; [lia|].
    destruct (lookup_lt_is_Some_2 lr j) as [x Hx]; [lia|].
    assert (take k (zip l lr) !! j = Some (y, x)) as Hzip.
    { rewrite lookup_take_lt by lia. by rewrite lookup_zip_with, Hy, Hx. }
    destruct (Forall2_lookup_l _ _ _ _ _ Hzs Hzip) as (z & Hz & Hyx).
    simpl in Hyx.
    eexists. split; [|reflexivity].
    erewrite bind_Ok.
    2:{ unfold Vector.subscript.
        rewrite (bind_Ok _ _ _ _ _ (load_ok _ _ _ _ _ _ Hrhs)). simpl_vec.
        destruct (Z.ltb_spec (0 + Z.of_nat j) (Z.of_nat (length lr))); [|lia].
        simpl. rewrite ret_bind. apply subscript_ok. lia. }
    erewrite bind_Ok; [|apply subscript_ok; lia].
    replace (0 + Z.of_nat j) with (Z.of_nat j) by lia.
    erewrite copy_assign_at_ok.
    2:{ by rewrite lookup_insert_ne. }
    2:{ by apply block_image_lookup. }
    2:{ apply lookup_insert_eq. }
    2:{ rewrite lookup_fill_ge by (rewrite ?length_take; lia).
        by apply block_image_lookup. }
    2:{ exact Hyx. }
    rewrite insert_insert_eq. do 3 f_equal.
    rewrite (take_S_r _ _ _ Hz).
    rewrite <- fill_snoc by (rewrite length_take; lia).
    by rewrite length_take, Nat.min_l by lia. }
  by rewrite <- Hzk, firstn_all.
Qed.

End AssignThrows.

(** X25.  Copy assignment that reuses the block gives the basic
    guarantee only.  If the assignment of element [k] throws, the
    elements before [k] already hold the values assigned from [rhs],
    the others are the old ones; the vector is valid, with its old
    size, capacity and block, and [rhs] is unchanged.  Nothing is
    destructed or allocated. *)
Theorem assign_reuse_throws {T} `{Element T} (σ : state T) this rhs
    buf cap l bufr capr lr k d x zs :
  this ≠ rhs →
  repr σ this buf cap l → repr σ rhs bufr capr lr → separate buf bufr →
  Z.of_nat (length lr) ≤ cap →
  l !! k = Some d → lr !! k = Some x → copy_assign d x = None →
  Forall2 (λ dx y, copy_assign dx.1 dx.2 = Some y) (take k (zip l lr)) zs →
  ∃ σ', Vector.assign this rhs σ = Throw element_exception σ'
        ∧ repr σ' this buf cap (zs ++ drop k l)
        ∧ length (zs ++ drop k l) = length l
        ∧ repr σ' rhs bufr capr lr
        ∧ avail σ' = avail σ ∧ dtor_log σ' = dtor_log σ.
Proof.
  intros Hne R Rr Hsep Hfit Hd Hx Hfail Hzs.
  pose proof (repr_bounds _ _ _ _ _ R) as (Hlen & Hcap & _).
  pose proof (repr_bounds _ _ _ _ _ Rr) as (Hlenr & Hcapr & _).
  pose proof (lookup_lt_Some _ _ _ Hd) as Hkl.
  pose proof (lookup_lt_Some _ _ _ Hx) as Hkr.
  pose proof (Forall2_length _ _ _ Hzs) as Hzlen.
  rewrite length_take, length_zip in Hzlen.
  assert (length zs = k) as Hzk by lia.
  destruct (repr_nonempty _ _ _ _ _ R) as (b & -> & Hb); [lia|].
  destruct (repr_nonempty _ _ _ _ _ Rr) as (br & -> & Hbr); [lia|].
  simpl in Hsep.
  pose proof R as [Hobj Hsz Hby _]. pose proof Rr as [Hobjr Hszr Hbyr _].
  destruct σ as [o h a dl]. simpl_state. unfold PTRDIFF_MAX in *.
  assert (length (block_image l cap) = Z.to_nat cap) as Hbl
    by (pose proof (block_image_length l cap); lia).
  set (B1 := fill 0 zs (block_image l cap)).
  assert (B1 = block_image (zs ++ drop k l) cap) as HB1.
  { unfold B1. pose proof (block_image_fill_middle [] (take k l) zs (drop k l) cap) as E.
    simpl in E. rewrite take_drop in E. apply E.
    rewrite length_take. lia. }
  exists (State o (<[b := B1]> h) a dl).
  split; [|split; [|split; [|split; [|done]]]].
  - unfold Vector.assign.
    destruct (decide (this = rhs)) as [Heq|_]; [destruct (Hne Heq)|].
    rewrite (bind_Ok _ _ _ _ _ (load_ok _ _ _ _ _ _ Hobjr)).
    rewrite (bind_Ok _ _ _ _ _ (load_ok _ _ _ _ _ _ Hobj)). simpl_vec.
    destruct (Z.gtb_spec (Z.of_nat (length lr)) cap); [lia|].
    apply bind_Throw.
    eapply (repeat_from_throw _ _ k); [lia| |].
    { apply (assign_rounds_prefix o h a dl rhs b cap br capr l lr k zs);
        [done|lia|done|done|done|lia|lia|lia|done]. }
    fold B1.
    erewrite bind_Ok.
    2:{ unfold Vector.subscript.
        rewrite (bind_Ok _ _ _ _ _ (load_ok _ _ _ _ _ _ Hobjr)). simpl_vec.
        destruct (Z.ltb_spec (0 + Z.of_nat k) (Z.of_nat (length lr))); [|lia].
        simpl. rewrite ret_bind. apply subscript_ok. lia. }
    erewrite bind_Ok; [|apply subscript_ok; lia].
    replace (0 + Z.of_nat k) with (Z.of_nat k) by lia.
    unfold copy_assign_at.
    erewrite bind_Ok; [|eapply read_at_ok; [by rewrite lookup_insert_ne|lia|]].
    2:{ rewrite Nat2Z.id. by apply block_image_lookup. }
    erewrite bind_Ok; [|eapply read_at_ok; [apply lookup_insert_eq|lia|]].
    2:{ rewrite Nat2Z.id. unfold B1. rewrite lookup_fill_ge by lia.
        by apply block_image_lookup. }
    by rewrite Hfail.
  - assert (length (zs ++ drop k l) = length l) as Hl'
      by (rewrite length_app, length_drop; lia).
    split; simpl.
    + by rewrite Hl'.
    + lia.
    + done.
    + split; [done|]. split; [lia|]. rewrite lookup_insert_eq. by f_equal.
  - rewrite length_app, length_drop. lia.
  - eapply repr_frame; [done|done|].
    simpl. intros ?? [= <- <-]. by rewrite lookup_insert_ne.
Qed.

Lemma assign_reuse_throws_witness :
  let σ := two_vectors [1; 2; 3] 4 [7; 13] 2 in
  (0%nat ≠ 1%nat
   ∧ @repr Z unlucky_element σ 0 (Ptr 0 0) 4 [1; 2; 3]
   ∧ @repr Z unlucky_element σ 1 (Ptr 1 0) 2 [7; 13]
   ∧ separate (Ptr 0 0) (Ptr 1 0)
   ∧ Z.of_nat (length [7; 13]) ≤ 4
   ∧ [1; 2; 3] !! 1%nat = Some 2 ∧ [7; 13] !! 1%nat = Some 13
   ∧ @copy_assign Z unlucky_element 2 13 = None
   ∧ Forall2 (λ dx y, @copy_assign Z unlucky_element dx.1 dx.2 = Some y)
             (take 1 (zip [1; 2; 3] [7; 13])) [7])
  ∧ ∃ σ', @Vector.assign Z unlucky_element 0 1 σ = Throw element_exception σ'
          ∧ @repr Z unlucky_element σ' 0 (Ptr 0 0) 4 ([7] ++ drop 1 [1; 2; 3])
          ∧ length ([7] ++ drop 1 [1; 2; 3]) = length [1; 2; 3]
          ∧ @repr Z unlucky_element σ' 1 (Ptr 1 0) 2 [7; 13]
          ∧ avail σ' = avail σ ∧ dtor_log σ' = dtor_log σ.
Proof.
  intros σ.
  assert (0%nat ≠ 1%nat) as Hne by discriminate.
  assert (@repr Z unlucky_element σ 0 (Ptr 0 0) 4 [1; 2; 3]) as R by concrete_repr.
  assert (@repr Z unlucky_element σ 1 (Ptr 1 0) 2 [7; 13]) as Rr by concrete_repr.
  assert (separate (Ptr 0 0) (Ptr 1 0)) as Hsep by exact Hne.
  assert (Z.of_nat (length [7; 13]) ≤ 4) as Hfit by (vm_compute; congruence).
  assert ([1; 2; 3] !! 1%nat = Some 2) as Hd by reflexivity.
  assert ([7; 13] !! 1%nat = Some 13) as Hx by reflexivity.
  assert (@copy_assign Z unlucky_element 2 13 = None) as Hfail by reflexivity.
  assert (Forall2 (λ dx y, @copy_assign Z unlucky_element dx.1 dx.2 = Some y)
                  (take 1 (zip [1; 2; 3] [7; 13])) [7]) as Hzs
    by (constructor; [reflexivity|constructor]).
  split; [by repeat split|].
  exact (@assign_reuse_throws Z unlucky_element σ 0%nat 1%nat _ _ _ _ _ _ 1%nat 2 13 [7]
           Hne R Rr Hsep Hfit Hd Hx Hfail Hzs).
Defined.

(** X26.  [Emplace] before an element, with spare capacity, when the
    constructor of the new element throws.  By then the last element
    has been move-constructed into the slot behind the elements and the
    elements from the position on have been moved one slot to the
    right; the size is not incremented.  The vector keeps its size and
    capacity but holds [l1], a moved-from value, and the elements after
    the position except the last: the old last element [z] sits in the
    slot at index [size], alive, outside the vector, and is never
    destructed. *)
Theorem Emplace_constructor_throws_midway {T} `{Regular T} (σ : state T)
    this b cap l1 mid z :
  repr σ this (Ptr b 0) cap (l1 ++ mid ++ [z]) →
  Z.of_nat (length (l1 ++ mid ++ [z])) < cap →
  ∃ σ' r, Vector.Emplace this (Ptr b (Z.of_nat (length l1))) None σ
            = Throw element_exception σ'
          ∧ objs σ' = objs σ
          ∧ heap σ' !! b = Some (block_image (l1 ++ r :: mid ++ [z]) cap)
          ∧ contents σ' this = Some (l1 ++ r :: mid)
          ∧ slot σ' (Ptr b (Z.of_nat (length (l1 ++ mid ++ [z])))) = Some (Some z)
          ∧ invariant σ' this = false
          ∧ avail σ' = avail σ ∧ dtor_log σ' = dtor_log σ.
Proof.
  intros R Hlt.
  pose proof (repr_bounds _ _ _ _ _ R) as (Hlen & Hcap & _).
  pose proof R as [Hobj Hsz Hby (_ & Hpos & Hb)].
  destruct σ as [o h a d]. simpl_state. unfold PTRDIFF_MAX in *.
  set (l := l1 ++ mid ++ [z]) in *.
  set (n := length l) in *.
  assert (n = length l1 + length mid + 1)%nat as Hn.
  { unfold n, l. rewrite !length_app. simpl. lia. }
  assert (length (block_image l cap) = Z.to_nat cap) as Hbl.
  { pose proof (block_image_length l cap). lia. }
  assert (block_image l cap !! (n - 1)%nat = Some (Some z)) as Hz.
  { apply block_image_lookup. unfold l. rewrite app_assoc.
    apply list_lookup_middle. rewrite length_app. lia. }
  destruct (regular_move_construct z) as [r0 Hr0].
  set (B1 := <[n := Some z]> (<[(n - 1)%nat := Some r0]> (block_image l cap))).
  assert (live_at B1 (length l1) (mid ++ [r0])) as Hlive.
  { intros k y Hk. unfold B1.
    assert (k ≤ length mid)%nat.
    { apply lookup_lt_Some in Hk. rewrite length_app in Hk. simpl in Hk. lia. }
    rewrite list_lookup_insert_ne by lia.
    destruct (decide (k = length mid)) as [->|].
    - rewrite list_lookup_middle in Hk by done.
      assert (y = r0) as -> by congruence.
      replace (length l1 + length mid)%nat with (n - 1)%nat by lia.
      apply list_lookup_insert_eq. lia.
    - rewrite list_lookup_insert_ne by lia. apply block_image_lookup.
      unfold l. rewrite lookup_app_r, Nat.add_comm, Nat.add_sub by lia.
      rewrite lookup_app_l in Hk |- * by lia. done. }
  destruct (std_move_backward_ok o (<[b := B1]> h) a d b B1 (length l1) mid r0)
    as [r E]; [apply lookup_insert_eq|done|].
  set (B2 := fill (length l1) (r :: mid) B1).
  assert (B2 = block_image (l1 ++ r :: mid ++ [z]) cap) as HB2.
  { pose proof (block_image_shift_insert l1 mid z r r r0 cap) as S.
    cbv zeta in S. rewrite <- Hn in S. fold l B1 B2 in S.
    rewrite <- S by lia. symmetry. apply list_insert_id.
    unfold B2. replace (length l1) with (length l1 + 0)%nat at 1 by lia.
    rewrite lookup_fill_mid; [done| |simpl; lia].
    unfold B1. rewrite !length_insert. lia. }
  assert (length (l1 ++ r :: mid) = n) as Hn'.
  { rewrite length_app. simpl. lia. }
  exists (State o (<[b := B2]> h) a d), r.
  split; [|split; [done|split; [|split; [|split; [|split; [|done]]]]]].
  - unfold Vector.Emplace.
    rewrite (bind_Ok _ _ _ _ _ (begin_ok _ _ _ _ _ _ Hobj)). simpl.
    destruct (decide (b = b)); [|done]. simpl. rewrite ret_bind.
    rewrite (bind_Ok _ _ _ _ _ (load_ok _ _ _ _ _ _ Hobj)). simpl_vec.
    rewrite Z.sub_0_r, (wrap_small (Z.of_nat (length l1))) by lia.
    destruct (Z.eqb_spec (Z.of_nat n) cap); [lia|].
    apply bind_Throw.
    erewrite bind_Ok; [|eapply end_ok; [done|lia]].
    destruct (decide (Ptr b (Z.of_nat (length l1)) = Ptr b (Z.of_nat n)))
      as [[=]|_]; [lia|].
    erewrite bind_Ok; [|eapply end_ok; [done|lia]].
    erewrite bind_Ok; [|eapply end_ok; [done|lia]].
    rewrite (bind_Ok _ _ _ _ _ (at_offset_Ptr _ _ _ _)).
    erewrite bind_Ok; [|eapply read_at_ok; [done|lia|]].
    2:{ replace (Z.to_nat (Z.of_nat n + -1)) with (n - 1)%nat by lia. done. }
    rewrite Hr0. simpl. rewrite ret_bind.
    erewrite bind_Ok; [|eapply write_at_ok; [done|lia|]].
    2:{ replace (Z.to_nat (Z.of_nat n + -1)) with (n - 1)%nat by lia. done. }
    erewrite bind_Ok; [|eapply construct_at_ok; [apply lookup_insert_eq|lia|]].
    2:{ rewrite length_insert. lia. }
    rewrite insert_insert_eq.
    replace (Z.to_nat (Z.of_nat n + -1)) with (n - 1)%nat by lia.
    rewrite Nat2Z.id. fold B1.
    erewrite bind_Ok; [|apply subscript_ok; lia].
    erewrite bind_Ok; [|eapply end_ok; [done|lia]].
    rewrite (bind_Ok _ _ _ _ _ (at_offset_Ptr _ _ _ _)).
    erewrite bind_Ok; [|eapply end_ok; [done|lia]].
    erewrite bind_Ok.
    2:{ replace (Z.of_nat n + -1) with (Z.of_nat (length l1 + length mid)) by lia.
        replace (Z.of_nat n) with (Z.of_nat (length l1 + length mid) + 1) by lia.
        exact E. }
    rewrite insert_insert_eq. reflexivity.
  - simpl. rewrite lookup_insert_eq. by rewrite HB2.
  - unfold contents. simpl. rewrite Hobj. simpl. rewrite lookup_insert_eq. simpl.
    rewrite HB2.
    assert (length (block_image (l1 ++ r :: mid ++ [z]) cap) = Z.to_nat cap) as Hbl'.
    { pose proof (block_image_length (l1 ++ r :: mid ++ [z]) cap) as L.
      rewrite !length_app in L. simpl in L. rewrite length_app in L. simpl in L. lia. }
    fold n. destruct (Z.leb_spec 0 (Z.of_nat n)); [|lia].
    destruct (Z.leb_spec (Z.of_nat n)
                (Z.of_nat (length (block_image (l1 ++ r :: mid ++ [z]) cap)))); [|lia].
    simpl. rewrite Nat2Z.id. unfold block_image.
    replace (l1 ++ r :: mid ++ [z]) with ((l1 ++ r :: mid) ++ [z])
      by (by rewrite <- app_assoc).
    rewrite fmap_app, <- app_assoc.
    rewrite <- Hn', <- (length_fmap Some (l1 ++ r :: mid)), take_app_length.
    apply mapM_id_Some.
  - simpl. rewrite lookup_insert_eq. simpl. fold n.
    destruct (Z.leb_spec 0 (Z.of_nat n)); [|lia].
    rewrite Nat2Z.id, HB2.
    apply block_image_lookup.
    replace (l1 ++ r :: mid ++ [z]) with ((l1 ++ r :: mid) ++ [z])
      by (by rewrite <- app_assoc).
    rewrite <- Hn'. apply list_lookup_middle. done.
  - unfold invariant. simpl. rewrite Hobj. simpl. rewrite lookup_insert_eq.
    fold n. rewrite Nat2Z.id, HB2.
    assert (drop n (block_image (l1 ++ r :: mid ++ [z]) cap)
            = Some z :: replicate (Z.to_nat cap - length (l1 ++ r :: mid ++ [z])) None)
      as ->.
    { unfold block_image.
      replace (l1 ++ r :: mid ++ [z]) with ((l1 ++ r :: mid) ++ [z])
        by (by rewrite <- app_assoc).
      rewrite fmap_app, <- app_assoc.
      by rewrite <- Hn', <- (length_fmap Some (l1 ++ r :: mid)), drop_app_length. }
    simpl. by rewrite !andb_false_r.
Qed.

Lemma Emplace_constructor_throws_midway_witness :
  let σ := one_vector [1; 2; 3] 4 in
  (repr σ 0 (Ptr 0 0) 4 ([1] ++ [2] ++ [3])
   ∧ Z.of_nat (length ([1] ++ [2] ++ [3])) < 4)
  ∧ ∃ σ' r, Vector.Emplace 0 (Ptr 0 (Z.of_nat (length [1]))) None σ
              = Throw element_exception σ'
            ∧ objs σ' = objs σ
            ∧ heap σ' !! 0%nat = Some (block_image ([1] ++ r :: [2] ++ [3]) 4)
            ∧ contents σ' 0 = Some ([1] ++ r :: [2])
            ∧ slot σ' (Ptr 0 (Z.of_nat (length ([1] ++ [2] ++ [3])))) = Some (Some 3)
            ∧ invariant σ' 0 = false
            ∧ avail σ' = avail σ ∧ dtor_log σ' = dtor_log σ.
Proof.
  intros σ.
  assert (repr σ 0 (Ptr 0 0) 4 ([1] ++ [2] ++ [3])) as R by concrete_repr.
  assert (Z.of_nat (length ([1] ++ [2] ++ [3])) < 4) as Hlt by reflexivity.
  split; [by split|].
  exact (Emplace_constructor_throws_midway σ 0%nat 0%nat 4 [1] [2] 3 R Hlt).
Defined.

(** ** Strong guarantees of [Emplace], and moved-from vectors *)

(** X27.  When [Emplace] needs a larger block, or inserts at [end()],
    a throwing constructor of the new element leaves the state exactly
    as it was: the new block, if one was allocated, is released.  The exception is that of the constructor, or
    [std::bad_alloc] when the larger block cannot be had. *)
Theorem Emplace_constructor_throws_unchanged {T} `{Element T} (σ : state T)
    this buf cap l i :
  repr σ this buf cap l → 0 ≤ i ≤ Z.of_nat (length l) →
  Z.of_nat (length l) = cap ∨ i = Z.of_nat (length l) →
  let cap' := next_capacity cap (Z.of_nat (length l)) in
  let e := if decide (Z.of_nat (length l) < cap
                      ∨ (cap' * sizeof_T ≤ PTRDIFF_MAX ∧ cap' * sizeof_T ≤ avail σ))
           then element_exception else bad_alloc in
  Vector.Emplace this (position buf i) None σ = Throw e σ.
Proof.
  intros R Hi Hcase cap' e. subst e cap'. unfold next_capacity.
  pose proof (repr_bounds _ _ _ _ _ R) as (Hlen & Hcap & Hby).
  pose proof sizeof_T_pos.
  destruct (Z.eqb_spec (Z.of_nat (length l)) cap) as [Hfull|Hspare].
  - destruct (decide _) as [[Hlt|[Hmax Hav]]|Hno]; [lia| |].
    + pose proof R as [Hobj _ _ Hblk]. destruct σ as [o h a d]. simpl_state.
      unfold Vector.Emplace.
      rewrite (bind_Ok _ _ _ _ _ (begin_ok _ _ _ _ _ _ Hobj)). simpl_vec.
      assert (∃ n, ptr_diff (position buf i) buf = Some n) as [n ->].
      { destruct buf as [|b off]; simpl; [by eexists|].
        destruct (decide (b = b)); [by eexists|done]. }
      simpl. rewrite ret_bind.
      rewrite (bind_Ok _ _ _ _ _ (load_ok _ _ _ _ _ _ Hobj)). simpl_vec.
      destruct (Z.eqb_spec (Z.of_nat (length l)) cap); [|lia].
      rewrite grown_spec by lia.
      apply bind_Throw.
      erewrite bind_Ok; [|apply ctor_ok; lia]. simpl_vec.
      apply bind_Throw. eapply on_throw_Throw.
      { rewrite (bind_Ok _ _ _ _ _ (at_offset_Ptr _ _ _ _)). reflexivity. }
      erewrite dtor_ok; [|apply lookup_insert_eq].
      rewrite delete_insert_id by apply fresh_block.
      rewrite length_replicate. do 2 f_equal. lia.
    + eapply Emplace_bad_alloc; [done|done|].
      intros [? ?]. apply Hno. by right.
  - rewrite decide_True by lia.
    destruct Hcase as [?| ->]; [lia|].
    destruct (repr_nonempty _ _ _ _ _ R) as (b & -> & Hb); [lia|].
    pose proof R as [Hobj _ _ _]. destruct σ as [o h a d]. simpl_state.
    unfold PTRDIFF_MAX in *. unfold position. rewrite Z.add_0_l.
    unfold Vector.Emplace.
    rewrite (bind_Ok _ _ _ _ _ (begin_ok _ _ _ _ _ _ Hobj)). simpl.
    destruct (decide (b = b)); [|done]. simpl. rewrite ret_bind.
    rewrite (bind_Ok _ _ _ _ _ (load_ok _ _ _ _ _ _ Hobj)). simpl_vec.
    destruct (Z.eqb_spec (Z.of_nat (length l)) cap); [lia|].
    apply bind_Throw.
    erewrite bind_Ok; [|eapply end_ok; [done|lia]].
    rewrite decide_True by done.
    erewrite bind_Ok; [|eapply end_ok; [done|lia]].
    reflexivity.
Qed.

Lemma Emplace_constructor_throws_unchanged_witness :
  let σ := one_vector [1; 2; 3] 3 in
  (repr σ 0 (Ptr 0 0) 3 [1; 2; 3]
   ∧ 0 ≤ 1 ≤ Z.of_nat (length [1; 2; 3])
   ∧ (Z.of_nat (length [1; 2; 3]) = 3 ∨ 1 = Z.of_nat (length [1; 2; 3])))
  ∧ Vector.Emplace 0 (position (Ptr 0 0) 1) None σ = Throw element_exception σ.
Proof.
  intros σ.
  assert (repr σ 0 (Ptr 0 0) 3 [1; 2; 3]) as R by concrete_repr.
  assert (0 ≤ 1 ≤ Z.of_nat (length [1; 2; 3])) as Hi by (vm_compute; split; congruence).
  assert (Z.of_nat (length [1; 2; 3]) = 3 ∨ 1 = Z.of_nat (length [1; 2; 3])) as Hc
    by (left; reflexivity).
  split; [by repeat split|].
  exact (Emplace_constructor_throws_unchanged σ 0%nat _ _ _ 1 R Hi Hc).
Defined.

(** X28.  A vector that has been moved from is destructed without
    effect: after move construction from [other] and the destruction of
    [other], the new vector holds the block and the elements, no
    destructor of an element has run and no memory has been released. *)
Theorem moved_from_destructs_trivially {T} `{Element T} (σ : state T)
    this other buf cap l :
  this ≠ other → repr σ other buf cap l →
  ∃ σ', (Vector.ctor_move this other ;; Vector.dtor other) σ = Ok tt σ'
        ∧ repr σ' this buf cap l
        ∧ objs σ' !! other = None
        ∧ heap σ' = heap σ ∧ avail σ' = avail σ ∧ dtor_log σ' = dtor_log σ.
Proof.
  intros Hne [Hobj Hsz Hby Hblk]. destruct σ as [o h a d]. simpl_state.
  eexists. split; [|split; [|split]].
  - erewrite bind_Ok.
    2:{ unfold Vector.ctor_move.
        rewrite (bind_Ok _ _ _ _ _ (load_ok _ _ _ _ _ _ Hobj)). reflexivity. }
    apply dtor_null_vector. simpl.
    by rewrite lookup_insert_ne, lookup_insert_eq.
  - split; simpl; [|done..].
    by rewrite lookup_delete_ne, lookup_insert_eq.
  - simpl. apply lookup_delete_eq.
  - done.
Qed.

Lemma moved_from_destructs_trivially_witness :
  let σ := one_vector [1; 2; 3] 4 in
  (1%nat ≠ 0%nat ∧ repr σ 0 (Ptr 0 0) 4 [1; 2; 3])
  ∧ ∃ σ', (Vector.ctor_move 1 0 ;; Vector.dtor 0) σ = Ok tt σ'
          ∧ repr σ' 1 (Ptr 0 0) 4 [1; 2; 3]
          ∧ objs σ' !! 0%nat = None
          ∧ heap σ' = heap σ ∧ avail σ' = avail σ ∧ dtor_log σ' = dtor_log σ.
Proof.
  intros σ.
  assert (1%nat ≠ 0%nat) as Hne by discriminate.
  assert (repr σ 0 (Ptr 0 0) 4 [1; 2; 3]) as R by concrete_repr.
  split; [by split|].
  exact (moved_from_destructs_trivially σ 1%nat 0%nat _ _ _ Hne R).
Defined.

(** ** References to elements *)

Section References.
Context {T : Type} `{Regular T}.
Implicit Types (h : gmap nat (list (option T))) (o : gmap nat Vector).

(** [EmplaceBack] on a full vector releases the old block. *)
Lemma EmplaceBack_grow_releases (σ : state T) this b cap l x :
  repr σ this (Ptr b 0) cap l → Z.of_nat (length l) = cap →
  2 * cap * sizeof_T ≤ PTRDIFF_MAX → 2 * cap * sizeof_T ≤ avail σ →
  ∃ σ', Vector.EmplaceBack this (Some x) σ
           = Ok (Ptr (fresh (dom (heap σ))) (Z.of_nat (length l))) σ'
        ∧ repr σ' this (Ptr (fresh (dom (heap σ))) 0) (2 * cap) (l ++ [x])
        ∧ heap σ' !! b = None.
Proof.
  intros R Hfull Hmax Hav.
  pose proof (repr_bounds _ _ _ _ _ R) as (Hlen & Hcap & _).
  pose proof R as [Hobj Hsz Hby (_ & Hpos & Hb)].
  destruct σ as [o h a d]. simpl_state. unfold PTRDIFF_MAX in *.
  set (b' := fresh (dom h)).
  assert (b ≠ b') as Hne.
  { intros ->. pose proof (fresh_block h) as E. fold b' in E. congruence. }
  set (h2 := <[b' := <[length l := Some x]> (replicate (Z.to_nat (2 * cap)) None)]>
               (<[b' := replicate (Z.to_nat (2 * cap)) None]> h)).
  destruct (CopyDataRange_ok o h2 (a - 2 * cap * sizeof_T) d b 0 (block_image l cap)
              b' 0 (<[length l := Some x]> (replicate (Z.to_nat (2 * cap)) None)) l)
    as (rs & Hrs & Hreloc); [done| |apply live_at_block_image| |..].
  { unfold h2. by rewrite !lookup_insert_ne. }
  { unfold h2. by rewrite lookup_insert_eq. }
  { rewrite length_insert, length_replicate. lia. }
  unfold Vector.CopyDataRange in Hreloc. change (Z.of_nat 0) with 0 in Hreloc.
  eexists. split; [|split].
  - unfold Vector.EmplaceBack.
    rewrite (bind_Ok _ _ _ _ _ (load_ok _ _ _ _ _ _ Hobj)). simpl_vec.
    destruct (Z.eqb_spec (Z.of_nat (length l)) cap); [|lia].
    rewrite grown_spec by (unfold PTRDIFF_MAX; lia).
    rewrite Z.max_r by lia.
    erewrite bind_Ok.
    2:{ erewrite bind_Ok; [|apply ctor_ok; unfold PTRDIFF_MAX; lia].
        fold b'. simpl_vec.
        erewrite bind_Ok.
        2:{ apply on_throw_Ok.
            rewrite (bind_Ok _ _ _ _ _ (at_offset_Ptr _ _ _ _)). simpl.
            rewrite ret_bind.
            erewrite bind_Ok; [|eapply construct_at_ok; [apply lookup_insert_eq|lia|]].
            2:{ rewrite length_replicate. lia. }
            replace (Z.to_nat (0 + Z.of_nat (length l))) with (length l) by lia.
            fold h2. exact Hreloc. }
        erewrite bind_Ok; [|by apply put_data_ok].
        simpl_vec.
        erewrite bind_Ok.
        2:{ replace cap with (Z.of_nat (length rs)) at 1 by lia.
            apply (destroy_n_ok _ _ _ _ _ 0%nat); [|apply live_at_full; done].
            rewrite lookup_insert_ne by done. apply lookup_insert_eq. }
        erewrite bind_Ok; [|by apply put_size_ok, lookup_insert_eq].
        eapply dtor_ok. apply lookup_insert_eq. }
    erewrite bind_Ok; [|by apply load_ok, lookup_insert_eq]. simpl_vec.
    rewrite (wrap_small (Z.of_nat (length l) + 1)) by lia.
    rewrite wrap_small by lia.
    replace (Z.of_nat (length l) + 1 - 1) with (Z.of_nat (length l)) by lia.
    apply subscript_ok. lia.
  - fold b'. split; simpl.
    + rewrite insert_insert_eq, lookup_insert_eq. unfold vec. do 2 f_equal.
      rewrite length_app. simpl. lia.
    + rewrite length_app. simpl. lia.
    + unfold PTRDIFF_MAX. lia.
    + split; [done|]. split; [lia|].
      rewrite lookup_delete_ne, lookup_insert_ne, lookup_insert_eq by done.
      f_equal.
      pose proof (block_image_insert l [] x (2 * cap)) as E.
      rewrite fill_nil in E. rewrite <- E; [done|]. simpl. lia.
  - simpl. apply lookup_delete_eq.
Qed.

End References.

(** X29.  [PushBack] and the addresses of the elements.  With spare
    capacity the elements stay where they are: every address that
    designated an element still designates it.  On a full vector the
    elements move to a new block and the old block is released: every
    address into the old block dangles, and reading through it is
    undefined. *)
Theorem PushBack_reference_validity {T} `{Regular T} (σ : state T)
    this b cap l x :
  repr σ this (Ptr b 0) cap l →
  (Z.of_nat (length l) < cap →
   ∃ σ', Vector.PushBack this x σ = Ok tt σ'
         ∧ ∀ i y, l !! i = Some y → read_at (Ptr b (Z.of_nat i)) σ' = Ok y σ')
  ∧ (Z.of_nat (length l) = cap →
     2 * cap * sizeof_T ≤ PTRDIFF_MAX → 2 * cap * sizeof_T ≤ avail σ →
     ∃ σ', Vector.PushBack this x σ = Ok tt σ'
           ∧ contents σ' this = Some (l ++ [x])
           ∧ ∀ i, read_at (Ptr b i) σ' = Fault Undefined).
Proof.
  intros R. split.
  - intros Hlt.
    destruct (EmplaceBack_in_place σ this b cap l x R Hlt) as (σ' & E & R' & _).
    exists σ'. split.
    { unfold Vector.PushBack. rewrite regular_copy_construct.
      by rewrite (bind_Ok _ _ _ _ _ E). }
    intros i y Hy. pose proof (lookup_lt_Some _ _ _ Hy).
    destruct R' as [_ _ _ (_ & _ & Hb)]. destruct σ' as [o' h' a' d'].
    simpl_state.
    eapply read_at_ok; [done|lia|]. rewrite Nat2Z.id.
    by apply block_image_lookup, lookup_app_l_Some.
  - intros Hfull Hmax Hav.
    destruct (EmplaceBack_grow_releases σ this b cap l x R Hfull Hmax Hav)
      as (σ' & E & R' & Hgone).
    exists σ'. split.
    { unfold Vector.PushBack. rewrite regular_copy_construct.
      by rewrite (bind_Ok _ _ _ _ _ E). }
    split; [by apply (repr_contents _ _ _ _ _ R')|].
    intros i. unfold read_at, slot. destruct (0 <=? i); [|done].
    by rewrite Hgone.
Qed.

Lemma PushBack_reference_validity_witness :
  let σ := one_vector [1; 2] 2 in
  (repr σ 0 (Ptr 0 0) 2 [1; 2]
   ∧ Z.of_nat (length [1; 2]) = 2
   ∧ 2 * 2 * sizeof_T ≤ PTRDIFF_MAX ∧ 2 * 2 * sizeof_T ≤ avail σ)
  ∧ ∃ σ', Vector.PushBack 0 5 σ = Ok tt σ'
          ∧ contents σ' 0 = Some ([1; 2] ++ [5])
          ∧ ∀ i, read_at (Ptr 0 i) σ' = Fault Undefined.
Proof.
  intros σ.
  assert (repr σ 0 (Ptr 0 0) 2 [1; 2]) as R by concrete_repr.
  assert (Z.of_nat (length [1; 2]) = 2) as H1 by reflexivity.
  assert (2 * 2 * sizeof_T ≤ PTRDIFF_MAX) as H2 by (vm_compute; congruence).
  assert (2 * 2 * sizeof_T ≤ avail σ) as H3 by (vm_compute; congruence).
  split; [by repeat split|].
  exact (proj2 (PushBack_reference_validity σ 0%nat 0%nat 2 [1; 2] 5 R) H1 H2 H3).
Defined.
